(** * autonomous_driver: the geometric projection and instance-decoding core

    A shallow embedding of [src/autonomous_driver/util.py] and the properties
    its design document states about it.

    Conventions of the embedding.
    - Python calls that may raise are computations in [py]: [Ret v] is a
      normal return, [Raise e] an uncaught exception.
    - [uint8]/[uint16] numpy integers are [Z] with the wrap-around written
      out ([u16]).
    - Python and numpy floats (binary64) are idealised as real numbers [R].
      A float division whose divisor is zero does not raise in numpy: it
      yields [inf] or [nan].  The perspective divide keeps that case apart
      ([npfloat], [np_div]).
    - CARLA objects are records of the values the code reads from them; the
      geometric methods of the CARLA library the code calls are the fields
      of the interface [Carla]. *)

From Stdlib Require Import ZArith List Bool Lia Reals Lra.
Import ListNotations.

Set Implicit Arguments.

(** ** Python outcomes *)

Inductive exn : Type :=
| IndexError      (* a subscript out of range *)
| ValueError      (* numpy shape mismatch, reduction of an empty array *)
| FloatToIntError (* int() of inf (OverflowError) or of nan (ValueError) *).

Inductive py (A : Type) : Type :=
| Ret (a : A)
| Raise (e : exn).

Arguments Ret {A} a.
Arguments Raise {A} e.

Definition bind {A B : Type} (c : py A) (k : A -> py B) : py B :=
  match c with
  | Ret a => k a
  | Raise e => Raise e
  end.

Notation "x <- c ;; k" := (bind c (fun x => k))
  (at level 61, c at next level, right associativity).

Fixpoint mapM {A B : Type} (f : A -> py B) (l : list A) : py (list B) :=
  match l with
  | [] => Ret []
  | a :: r => b <- f a ;; bs <- mapM f r ;; Ret (b :: bs)
  end.

(** [l[i]] for a non-negative constant subscript. *)
Definition idx {A : Type} (l : list A) (i : nat) : py A :=
  match nth_error l i with
  | Some a => Ret a
  | None => Raise IndexError
  end.

(** [l[i] = v] for a non-negative constant subscript. *)
Fixpoint set_idx {A : Type} (l : list A) (i : nat) (v : A) : py (list A) :=
  match l, i with
  | [], _ => Raise IndexError
  | _ :: r, O => Ret (v :: r)
  | a :: r, S i' => r' <- set_idx r i' v ;; Ret (a :: r')
  end.

(** ** Instance segmentation decoding *)

(** A pixel is the list of its channel bytes in storage order; an image is a
    list of rows of pixels (numpy shape [(H, W, C)]). *)
Definition pixel := list Z.
Definition image := list (list pixel).
Definition grid := list (list Z).

(** Storage order of the simulator's raw buffer, as the source's comment on
    subscript 2 fixes it: B, G, R, A. *)
Definition chan_B : nat := 0.
Definition chan_G : nat := 1.
Definition chan_R : nat := 2.

(** [.astype(np.uint16)] and the wrap-around of uint16 arithmetic. *)
Definition u16 (z : Z) : Z := z mod 65536.

(** [img[..., c]] *)
Definition take_channel (img : image) (c : nat) : py grid :=
  mapM (mapM (fun px : pixel => idx px c)) img.

(** Elementwise binary operation on two grids of one shape. *)
Fixpoint zip_with {A B C : Type} (f : A -> B -> C) (l : list A) (m : list B) : list C :=
  match l, m with
  | a :: l', b :: m' => f a b :: zip_with f l' m'
  | _, _ => []
  end.

Definition grid_map (f : Z -> Z) (g : grid) : grid := map (map f) g.
Definition grid_zip (f : Z -> Z -> Z) (g1 g2 : grid) : grid :=
  zip_with (zip_with f) g1 g2.

(** uint16 [+] and [<< 8]. *)
Definition add16 (a b : Z) : Z := u16 (a + b).
Definition shl8_16 (a : Z) : Z := u16 (Z.shiftl a 8).

(** [decode_instance_segmentation(img_rgba)] *)
Definition decode_instance_segmentation (img_rgba : image) : py (grid * grid) :=
  semantic_labels <- take_channel img_rgba 2 ;;
  g <- take_channel img_rgba 1 ;;
  b <- take_channel img_rgba 0 ;;
  let actor_ids := grid_zip add16 (grid_map u16 g) (grid_map shl8_16 (grid_map u16 b)) in
  Ret (semantic_labels, actor_ids).

(** Shapes and subscripts of grids and images. *)
Definition is_byte (z : Z) : Prop := (0 <= z <= 255)%Z.

Definition rectangular {A : Type} (h w : nat) (g : list (list A)) : Prop :=
  length g = h /\ Forall (fun row => length row = w) g.

Definition well_formed_pixel (px : pixel) : Prop :=
  length px = 4%nat /\ Forall is_byte px.

Definition well_formed_buffer (h w : nat) (img : image) : Prop :=
  rectangular h w img /\ Forall (Forall well_formed_pixel) img.

Definition at2 {A : Type} (g : list (list A)) (y x : nat) : option A :=
  match nth_error g y with
  | Some row => nth_error row x
  | None => None
  end.

Definition channel (px : pixel) (c : nat) : Z := nth c px 0%Z.

(** Recovering the channel pair from a packed id. *)
Definition unpack_id (i : Z) : Z * Z := (Z.shiftr i 8, Z.land i 255).

(** The uint16 expression of the decoder on one pixel's channels. *)
Definition packed_id (g b : Z) : Z := add16 (u16 g) (shl8_16 (u16 b)).

(** A 2 x 2 buffer, pixels stored as [B; G; R; A]. *)
Definition sample_buffer : image :=
  [[[0; 42; 14; 255]; [1; 2; 14; 255]];
   [[0; 0; 1; 255];   [255; 255; 12; 255]]]%Z.

(** ** CARLA snapshots *)

(** [carla.Vector3D] / [carla.Location] *)
Record Vector3D : Type := mkVec { vx : R; vy : R; vz : R }.

Record Rotation : Type := mkRot { pitch : R; yaw : R; roll : R }.

Record Transform : Type := mkTransform { location : Vector3D; rotation : Rotation }.

(** [carla.BoundingBox]: local centre offset and half-extents. *)
Record BoundingBox : Type := mkBox { bb_location : Vector3D; extent : Vector3D }.

(** What the code reads from an actor: [id], [semantic_tags],
    [get_transform()] and [bounding_box]. *)
Record Actor : Type := mkActor {
  id : Z;
  semantic_tags : list Z;
  get_transform : Transform;
  bounding_box : BoundingBox
}.

(** ** 2D bounding box extraction *)

(** [actor_ids == actor.id] *)
Definition mask_eq (actor_ids : grid) (i : Z) : list (list bool) :=
  map (map (fun v => Z.eqb v i)) actor_ids.

(** [np.any(mask)] *)
Definition np_any (mask : list (list bool)) : bool :=
  existsb (existsb (fun b => b)) mask.

(** [np.where(mask)]: the subscripts of the true entries in row-major order,
    as the pair of arrays (rows, columns). *)
Fixpoint where_row (y x : Z) (row : list bool) : list (Z * Z) :=
  match row with
  | [] => []
  | b :: r => (if b then [(y, x)] else []) ++ where_row y (x + 1) r
  end.

Fixpoint where_rows (y : Z) (mask : list (list bool)) : list (Z * Z) :=
  match mask with
  | [] => []
  | row :: rs => where_row y 0 row ++ where_rows (y + 1) rs
  end.

Definition np_where (mask : list (list bool)) : list Z * list Z :=
  let cs := where_rows 0 mask in (map fst cs, map snd cs).

(** [a.min()] and [a.max()]: numpy raises ValueError on an empty array. *)
Definition np_min (a : list Z) : py Z :=
  match a with
  | [] => Raise ValueError
  | v :: r => Ret (fold_left Z.min r v)
  end.

Definition np_max (a : list Z) : py Z :=
  match a with
  | [] => Raise ValueError
  | v :: r => Ret (fold_left Z.max r v)
  end.

Record Detection2D : Type := mkDet2 {
  d2_actor_id : Z;
  d2_semantic_label : Z;
  bbox_2d : Z * Z * Z * Z   (* (xmin, ymin, xmax, ymax) *)
}.

(** [bbox_2d_for_actor(actor, actor_ids, semantic_labels)]; [None] is
    Python's [None]. *)
Definition bbox_2d_for_actor (actor : Actor) (actor_ids semantic_labels : grid)
  : py (option Detection2D) :=
  let mask := mask_eq actor_ids (id actor) in
  if negb (np_any mask) then Ret None
  else
    let '(ys, xs) := np_where mask in
    xmin <- np_min xs ;;
    xmax <- np_max xs ;;
    ymin <- np_min ys ;;
    ymax <- np_max ys ;;
    tag <- idx (semantic_tags actor) 0 ;;
    Ret (Some {| d2_actor_id := id actor;
                 d2_semantic_label := tag;
                 bbox_2d := (xmin, ymin, xmax, ymax) |}).

(** A pixel of the id grid that carries the actor's id. *)
Definition matches (actor_ids : grid) (i : Z) (y x : nat) : Prop :=
  at2 actor_ids y x = Some i.

(** The box is tight: every matching pixel lies in it and each of its four
    sides touches a matching pixel. *)
Definition tight_box (actor_ids : grid) (i : Z) (box : Z * Z * Z * Z) : Prop :=
  let '(xmin, ymin, xmax, ymax) := box in
  (forall y x : nat, matches actor_ids i y x ->
     (xmin <= Z.of_nat x <= xmax)%Z /\ (ymin <= Z.of_nat y <= ymax)%Z) /\
  (exists y x : nat, matches actor_ids i y x /\ Z.of_nat x = xmin) /\
  (exists y x : nat, matches actor_ids i y x /\ Z.of_nat x = xmax) /\
  (exists y x : nat, matches actor_ids i y x /\ Z.of_nat y = ymin) /\
  (exists y x : nat, matches actor_ids i y x /\ Z.of_nat y = ymax).

(** A car (semantic tag 14) with id 42, and a frame in which its pixels
    carry the label 5. *)
Definition car_42 : Actor :=
  {| id := 42; semantic_tags := [14%Z];
     get_transform := mkTransform (mkVec 0 0 0) (mkRot 0 0 0);
     bounding_box := mkBox (mkVec 0 0 0) (mkVec 1 1 1) |}.

Definition ids_frame : grid := [[0; 0; 0; 0]; [0; 42; 42; 0]; [0; 0; 42; 0]]%Z.
Definition labels_frame : grid := [[1; 1; 1; 1]; [1; 5; 5; 1]; [1; 1; 5; 1]]%Z.

(** A 16 x 32 frame with a 3 x 3 block of id 42 at rows 10-12, columns
    20-22. *)
Definition block_frame : grid :=
  (repeat (repeat 0 32) 10
   ++ repeat (repeat 0 20 ++ [42; 42; 42] ++ repeat 0 9) 3
   ++ repeat (repeat 0 32) 3)%Z.

(** ** Floating point values *)

Local Open Scope R_scope.

(** A float after a division: a finite value, or a non-finite one ([inf] or
    [nan], which numpy produces instead of raising when the divisor is 0). *)
Inductive npfloat : Type :=
| Fin (r : R)
| NonFin.

(** numpy [/] on float64.  A non-finite operand gives a non-finite result
    (the one exception, a finite dividend over an infinite divisor, does not
    arise: the only divisor ever used is a component no division has
    touched). *)
Definition np_div (a b : npfloat) : npfloat :=
  match a, b with
  | Fin x, Fin y => if Req_dec_T y 0 then NonFin else Fin (x / y)
  | _, _ => NonFin
  end.

Definition Rle_b (x y : R) : bool := if Rle_dec x y then true else false.
Definition Rlt_b (x y : R) : bool := if Rlt_dec x y then true else false.

(** Truncation toward zero, as [int()] does on a finite float. *)
Definition truncR (x : R) : Z :=
  if Rle_dec 0 x then Int_part x else (- Int_part (- x))%Z.

(** [int(c)] *)
Definition py_int (c : npfloat) : py Z :=
  match c with
  | Fin x => Ret (truncR x)
  | NonFin => Raise FloatToIntError
  end.

(** [math.radians] *)
Definition radians (deg : R) : R := deg * PI / 180.

(** ** Matrices *)

Definition matrix := list (list R).

(** [np.identity(3)] *)
Definition identity3 : matrix := [[1; 0; 0]; [0; 1; 0]; [0; 0; 1]].

(** [m[i, j] = v] *)
Definition set2 (m : matrix) (i j : nat) (v : R) : py matrix :=
  row <- idx m i ;;
  row' <- set_idx row j v ;;
  set_idx m i row'.

Fixpoint dot (a b : list R) : R :=
  match a, b with
  | x :: a', y :: b' => x * y + dot a' b'
  | _, _ => 0
  end.

(** [np.dot(m, v)] for a 2-D [m] and a 1-D [v]: the inner dimensions must
    agree, else numpy raises ValueError. *)
Definition np_dot (m : matrix) (v : list R) : py (list R) :=
  mapM (fun row => if Nat.eqb (length row) (length v) then Ret (dot row v)
                   else Raise ValueError) m.

Definition shape (n k : nat) (m : matrix) : Prop := rectangular n k m.

Definition entry (m : matrix) (i j : nat) : R := nth j (nth i m []) 0.

(** ** Camera intrinsics *)

(** [build_projection_matrix(w, h, fov, is_behind_camera)].  The quotient
    [focal] is the real quotient; it is the float's idealisation wherever
    the divisor [2 * tan (fov * PI / 360)] is not zero.  Where it is zero
    ([fov] 0 or 360) the float quotient is infinite or huge and the real
    quotient says nothing of the code: a statement about [focal] or about
    projected pixels carries a guard that keeps the divisor away from 0. *)
Definition build_projection_matrix (w h : Z) (fov : R) (is_behind_camera : bool)
  : py matrix :=
  let focal := IZR w / (2 * tan (fov * PI / 360)) in
  let K := identity3 in
  K <- (if is_behind_camera
        then K <- set2 K 0 0 (- focal) ;; set2 K 1 1 (- focal)
        else K <- set2 K 0 0 focal ;; set2 K 1 1 focal) ;;
  K <- set2 K 0 2 (IZR w / 2) ;;
  K <- set2 K 1 2 (IZR h / 2) ;;
  Ret K.

(** ** World to image projection *)

(** [get_image_point(loc, K, w2c)] *)
Definition get_image_point (loc : Vector3D) (K w2c : matrix) : py (list npfloat) :=
  let point := [vx loc; vy loc; vz loc; 1] in
  point_camera <- np_dot w2c point ;;
  c1 <- idx point_camera 1 ;;
  c2 <- idx point_camera 2 ;;
  c0 <- idx point_camera 0 ;;
  let point_camera := [c1; - c2; c0] in
  point_img <- np_dot K point_camera ;;
  let point_img := map Fin point_img in
  u <- idx point_img 0 ;;
  s <- idx point_img 2 ;;
  point_img <- set_idx point_img 0 (np_div u s) ;;
  v <- idx point_img 1 ;;
  s <- idx point_img 2 ;;
  point_img <- set_idx point_img 1 (np_div v s) ;;
  Ret (firstn 2 point_img).

(** One coordinate of the canvas test: [c >= 0 and c < n].  Both [inf] and
    [nan] fail it. *)
Definition in_range (c : npfloat) (n : Z) : bool :=
  match c with
  | Fin x => Rle_b 0 x && Rlt_b x (IZR n)
  | NonFin => false
  end.

(** [point_in_canvas(pos, img_h, img_w)]; [and] evaluates [pos[1]] only when
    the tests on [pos[0]] hold. *)
Definition point_in_canvas (pos : list npfloat) (img_h img_w : Z) : py bool :=
  p0 <- idx pos 0 ;;
  if in_range p0 img_w
  then p1 <- idx pos 1 ;; Ret (in_range p1 img_h)
  else Ret false.

(** ** 3D bounding box projection *)

(** Bounding box edge topology order. *)
Definition EDGES : list (list nat) :=
  [[0; 1]; [1; 3]; [3; 2]; [2; 0]; [0; 4]; [4; 5];
   [5; 1]; [5; 7]; [7; 6]; [6; 4]; [6; 2]; [7; 3]]%nat.

(** [carla.Vector3D] arithmetic. *)
Definition vec_add (a b : Vector3D) : Vector3D :=
  mkVec (vx a + vx b) (vy a + vy b) (vz a + vz b).

Definition vec_sub (a b : Vector3D) : Vector3D :=
  mkVec (vx a - vx b) (vy a - vy b) (vz a - vz b).

Definition vec_dot (a b : Vector3D) : R :=
  vx a * vx b + vy a * vy b + vz a * vz b.

(** The geometry of the CARLA library that the code calls and that is no
    part of this repository: [Transform.inverse_transform],
    [BoundingBox.get_world_vertices], [Transform.get_inverse_matrix] and
    [Transform.get_forward_vector], with the shapes of what they return. *)
Class Carla : Type := {
  inverse_transform : Transform -> Vector3D -> Vector3D;
  get_world_vertices : BoundingBox -> Transform -> list Vector3D;
  get_inverse_matrix : Transform -> matrix;
  get_forward_vector : Transform -> Vector3D;
  world_vertices_length : forall bb t, length (get_world_vertices bb t) = 8%nat;
  inverse_matrix_shape : forall t, shape 4 4 (get_inverse_matrix t)
}.

(** The attributes read from the camera blueprint. *)
Record CameraBlueprint : Type := mkBlueprint {
  image_size_x : Z;
  image_size_y : Z;
  fov : R
}.

Definition segment : Type := Z * Z * Z * Z.

Record BBox3D : Type := mkBBox3D {
  center : Vector3D;
  dimensions : R * R * R;   (* (length, width, height) *)
  rotation_yaw : R
}.

Record Detection3D : Type := mkDet3 {
  d3_actor_id : Z;
  d3_semantic_label : Z;
  bbox_3d : BBox3D;
  projection : list segment
}.

(** The tuple appended for an edge: [(int(p1[0]), int(p1[1]), int(p2[0]),
    int(p2[1]))]. *)
Definition int_segment (p1 p2 : list npfloat) : py segment :=
  a <- (c <- idx p1 0 ;; py_int c) ;;
  b <- (c <- idx p1 1 ;; py_int c) ;;
  c <- (c <- idx p2 0 ;; py_int c) ;;
  d <- (c <- idx p2 1 ;; py_int c) ;;
  Ret (a, b, c, d).

(** The body of [for edge in EDGES], threaded through the list
    [projection] it appends to. *)
Fixpoint edges_loop (verts : list Vector3D) (K K_b world_2_camera : matrix)
    (image_h image_w : Z) (cam_loc cam_forward_vec : Vector3D)
    (edges : list (list nat)) (projection : list segment) : py (list segment) :=
  match edges with
  | [] => Ret projection
  | edge :: rest =>
    e0 <- idx edge 0 ;;
    v0 <- idx verts e0 ;;
    p1 <- get_image_point v0 K world_2_camera ;;
    e1 <- idx edge 1 ;;
    v1 <- idx verts e1 ;;
    p2 <- get_image_point v1 K world_2_camera ;;
    p1_in_canvas <- point_in_canvas p1 image_h image_w ;;
    p2_in_canvas <- point_in_canvas p2 image_h image_w ;;
    if negb p1_in_canvas && negb p2_in_canvas
    then edges_loop verts K K_b world_2_camera image_h image_w
                    cam_loc cam_forward_vec rest projection
    else
      let ray0 := vec_sub v0 cam_loc in
      let ray1 := vec_sub v1 cam_loc in
      p1 <- (if negb (Rlt_b 0 (vec_dot cam_forward_vec ray0))
             then get_image_point v0 K_b world_2_camera else Ret p1) ;;
      p2 <- (if negb (Rlt_b 0 (vec_dot cam_forward_vec ray1))
             then get_image_point v1 K_b world_2_camera else Ret p2) ;;
      seg <- int_segment p1 p2 ;;
      edges_loop verts K K_b world_2_camera image_h image_w
                 cam_loc cam_forward_vec rest (projection ++ [seg])
  end.

Section Projector.
Context {carla : Carla}.

(** [bbox_3d_for_actor(actor, ego, camera_bp, camera)] *)
Definition bbox_3d_for_actor (actor ego : Actor) (camera_bp : CameraBlueprint)
    (camera : Actor) : py Detection3D :=
  let world_2_camera := get_inverse_matrix (get_transform camera) in
  let image_w := image_size_x camera_bp in
  let image_h := image_size_y camera_bp in
  let fov := fov camera_bp in
  K <- build_projection_matrix image_w image_h fov false ;;
  K_b <- build_projection_matrix image_w image_h fov true ;;
  let ego_bbox_loc :=
    vec_add (location (get_transform ego)) (bb_location (bounding_box ego)) in
  let ego_bbox_transform :=
    mkTransform ego_bbox_loc (rotation (get_transform ego)) in
  let npc_bbox_loc :=
    vec_add (location (get_transform actor)) (bb_location (bounding_box actor)) in
  let npc_loc_ego_space := inverse_transform ego_bbox_transform npc_bbox_loc in
  let verts := get_world_vertices (bounding_box actor) (get_transform actor) in
  projection <- edges_loop verts K K_b world_2_camera image_h image_w
                  (location (get_transform camera))
                  (get_forward_vector (get_transform camera)) EDGES [] ;;
  tag <- idx (semantic_tags actor) 0 ;;
  Ret {| d3_actor_id := id actor;
         d3_semantic_label := tag;
         bbox_3d :=
           {| center := npc_loc_ego_space;
              dimensions := (vx (extent (bounding_box actor)) * 2,
                             vy (extent (bounding_box actor)) * 2,
                             vz (extent (bounding_box actor)) * 2);
              rotation_yaw :=
                radians (yaw (rotation (get_transform actor))
                         - yaw (rotation (get_transform ego))) |};
         projection := projection |}.

End Projector.

(** ** The design document's wording of the projection *)

(** Camera-space coordinates [(cx, cy, cz)]: the first three components of
    [w2c] times the homogenized point. *)
Definition camera_space (w2c : matrix) (p : Vector3D) : R * R * R :=
  (entry w2c 0 0 * vx p + entry w2c 0 1 * vy p + entry w2c 0 2 * vz p + entry w2c 0 3 * 1,
   entry w2c 1 0 * vx p + entry w2c 1 1 * vy p + entry w2c 1 2 * vz p + entry w2c 1 3 * 1,
   entry w2c 2 0 * vx p + entry w2c 2 1 * vy p + entry w2c 2 2 * vz p + entry w2c 2 3 * 1).

(** [(x', y', z') = (cy, -cz, cx)] *)
Definition remap_axes (c : R * R * R) : R * R * R :=
  let '(cx, cy, cz) := c in (cy, - cz, cx).

(** [(u, v, s) = K (x', y', z')] *)
Definition apply_intrinsics (K : matrix) (c : R * R * R) : R * R * R :=
  let '(x', y', z') := c in
  (entry K 0 0 * x' + entry K 0 1 * y' + entry K 0 2 * z',
   entry K 1 0 * x' + entry K 1 1 * y' + entry K 1 2 * z',
   entry K 2 0 * x' + entry K 2 1 * y' + entry K 2 2 * z').

Definition homogeneous_image_point (loc : Vector3D) (K w2c : matrix) : R * R * R :=
  apply_intrinsics K (remap_axes (camera_space w2c loc)).

(** Perspective divide: [(u / s, v / s)]. *)
Definition perspective_divide (c : R * R * R) : list npfloat :=
  let '(u, v, s) := c in [np_div (Fin u) (Fin s); np_div (Fin v) (Fin s)].

Definition project_by_spec (loc : Vector3D) (K w2c : matrix) : list npfloat :=
  perspective_divide (homogeneous_image_point loc K w2c).

(** The matrix the design document gives for the intrinsics. *)
Definition focal_length (w : Z) (fov : R) : R := IZR w / (2 * tan (fov * PI / 360)).

Definition intrinsics (w h : Z) (fov : R) (mirrored : bool) : matrix :=
  let f := if mirrored then - focal_length w fov else focal_length w fov in
  [[f; 0; IZR w / 2]; [0; f; IZR h / 2]; [0; 0; 1]].

(** ** The design document's wording of the edge projection *)

(** The canvas test on a projected pair. *)
Definition in_canvas (pos : list npfloat) (img_h img_w : Z) : bool :=
  match pos with
  | u :: v :: _ => in_range u img_w && in_range v img_h
  | _ => false
  end.

(** A vertex is behind the camera when the dot product of the camera's
    forward vector with the vector from the camera to the vertex is [<= 0]. *)
Definition behind_camera (cam_forward_vec cam_loc v : Vector3D) : bool :=
  Rle_b (vec_dot cam_forward_vec (vec_sub v cam_loc)) 0.

(** The per-vertex choice of intrinsics. *)
Definition corrected_projection (K K_b w2c : matrix)
    (cam_loc cam_forward_vec v : Vector3D) : list npfloat :=
  if behind_camera cam_forward_vec cam_loc v
  then project_by_spec v K_b w2c
  else project_by_spec v K w2c.

(** What one edge contributes: nothing when neither endpoint's normal
    projection is in the canvas, else the segment of the two corrected
    projections. *)
Definition edge_segment (verts : list Vector3D) (K K_b w2c : matrix)
    (image_h image_w : Z) (cam_loc cam_forward_vec : Vector3D)
    (edge : list nat) : list (list npfloat * list npfloat) :=
  match edge with
  | [i; j] =>
    match nth_error verts i, nth_error verts j with
    | Some vi, Some vj =>
      if negb (in_canvas (project_by_spec vi K w2c) image_h image_w)
         && negb (in_canvas (project_by_spec vj K w2c) image_h image_w)
      then []
      else [(corrected_projection K K_b w2c cam_loc cam_forward_vec vi,
             corrected_projection K K_b w2c cam_loc cam_forward_vec vj)]
    | _, _ => []
    end
  | _ => []
  end.

Definition emit_segment (s : list npfloat * list npfloat) : py segment :=
  int_segment (fst s) (snd s).

(** An edge over the vertices [0 .. n-1]. *)
Definition edge_over (n : nat) (edge : list nat) : Prop :=
  exists i j : nat, edge = [i; j] /\ (i < n)%nat /\ (j < n)%nat.

(** Depth of a vertex: its camera-space [x], the divisor of the perspective
    divide under the builder's intrinsics. *)
Definition depth (w2c : matrix) (v : Vector3D) : R :=
  let '(cx, _, _) := camera_space w2c v in cx.

(** ** The design document's wording of the 3D box *)

Section BoxBySpec.
Context {carla : Carla}.

(** The ego-relative centre: the inverse transform, in the frame anchored at
    the ego location plus the ego volume's centre offset with the ego's
    orientation, of the target's location plus its volume's centre offset. *)
Definition ego_relative_center (actor ego : Actor) : Vector3D :=
  inverse_transform
    (mkTransform (vec_add (location (get_transform ego)) (bb_location (bounding_box ego)))
                 (rotation (get_transform ego)))
    (vec_add (location (get_transform actor)) (bb_location (bounding_box actor))).

Definition box_by_spec (actor ego : Actor) : BBox3D :=
  {| center := ego_relative_center actor ego;
     dimensions := (vx (extent (bounding_box actor)) * 2,
                    vy (extent (bounding_box actor)) * 2,
                    vz (extent (bounding_box actor)) * 2);
     rotation_yaw := (yaw (rotation (get_transform actor))
                      - yaw (rotation (get_transform ego))) * PI / 180 |}.

(** The segments that survive, before their coordinates are made integers. *)
Definition surviving_edges (actor : Actor) (camera_bp : CameraBlueprint)
    (camera : Actor) : list (list npfloat * list npfloat) :=
  flat_map
    (edge_segment
       (get_world_vertices (bounding_box actor) (get_transform actor))
       (intrinsics (image_size_x camera_bp) (image_size_y camera_bp) (fov camera_bp) false)
       (intrinsics (image_size_x camera_bp) (image_size_y camera_bp) (fov camera_bp) true)
       (get_inverse_matrix (get_transform camera))
       (image_size_y camera_bp) (image_size_x camera_bp)
       (location (get_transform camera))
       (get_forward_vector (get_transform camera)))
    EDGES.

(** The normal projection of a vertex misses the canvas. *)
Definition off_canvas (camera_bp : CameraBlueprint) (camera : Actor) (v : Vector3D) : Prop :=
  exists K p,
    build_projection_matrix (image_size_x camera_bp) (image_size_y camera_bp)
                            (fov camera_bp) false = Ret K /\
    get_image_point v K (get_inverse_matrix (get_transform camera)) = Ret p /\
    point_in_canvas p (image_size_y camera_bp) (image_size_x camera_bp) = Ret false.

(** The vertex fails the forward-dot-product test. *)
Definition fails_forward_test (camera : Actor) (v : Vector3D) : Prop :=
  vec_dot (get_forward_vector (get_transform camera))
          (vec_sub v (location (get_transform camera))) <= 0.

End BoxBySpec.

(** ** A scene without rotations *)

(** CARLA's geometry on transforms whose pitch, yaw and roll are 0: the
    inverse transform is a translation, the forward vector is the x axis,
    and the corners of a volume are its centre plus or minus the extents, in
    CARLA's order (x slowest, z fastest, minus before plus). *)
Definition unrotated_inverse_transform (t : Transform) (p : Vector3D) : Vector3D :=
  vec_sub p (location t).

Definition unrotated_world_vertices (bb : BoundingBox) (t : Transform) : list Vector3D :=
  let c := vec_add (location t) (bb_location bb) in
  let e := extent bb in
  [mkVec (vx c - vx e) (vy c - vy e) (vz c - vz e);
   mkVec (vx c - vx e) (vy c - vy e) (vz c + vz e);
   mkVec (vx c - vx e) (vy c + vy e) (vz c - vz e);
   mkVec (vx c - vx e) (vy c + vy e) (vz c + vz e);
   mkVec (vx c + vx e) (vy c - vy e) (vz c - vz e);
   mkVec (vx c + vx e) (vy c - vy e) (vz c + vz e);
   mkVec (vx c + vx e) (vy c + vy e) (vz c - vz e);
   mkVec (vx c + vx e) (vy c + vy e) (vz c + vz e)].

Definition unrotated_inverse_matrix (t : Transform) : matrix :=
  [[1; 0; 0; - vx (location t)];
   [0; 1; 0; - vy (location t)];
   [0; 0; 1; - vz (location t)];
   [0; 0; 0; 1]].

Definition unrotated_forward_vector (t : Transform) : Vector3D := mkVec 1 0 0.

(** The shapes CARLA promises hold of this geometry. *)
Lemma unrotated_inverse_matrix_shape (t : Transform) :
  shape 4 4 (unrotated_inverse_matrix t).
Proof. split; [reflexivity|]. repeat constructor. Qed.

Definition unrotated : Carla :=
  {| inverse_transform := unrotated_inverse_transform;
     get_world_vertices := unrotated_world_vertices;
     get_inverse_matrix := unrotated_inverse_matrix;
     get_forward_vector := unrotated_forward_vector;
     world_vertices_length := fun _ _ => eq_refl;
     inverse_matrix_shape := unrotated_inverse_matrix_shape |}.

Definition at_rest (x y z : R) : Transform := mkTransform (mkVec x y z) (mkRot 0 0 0).

(** An 800 x 600 camera with a 90 degree field of view at the origin, facing
    +x, mounted on an ego vehicle that is at the origin too. *)
Definition camera_800_600 : CameraBlueprint :=
  {| image_size_x := 800; image_size_y := 600; fov := 90 |}.

Definition camera_at_origin : Actor :=
  {| id := 2; semantic_tags := []; get_transform := at_rest 0 0 0;
     bounding_box := mkBox (mkVec 0 0 0) (mkVec 0 0 0) |}.

Definition ego_at_origin : Actor :=
  {| id := 1; semantic_tags := [14%Z]; get_transform := at_rest 0 0 0;
     bounding_box := mkBox (mkVec 0 0 0) (mkVec 2 1 1) |}.

(** A car whose volume spans x in [-20, -10]: entirely behind the camera. *)
Definition car_behind : Actor :=
  {| id := 42; semantic_tags := [14%Z]; get_transform := at_rest (-15) 0 0;
     bounding_box := mkBox (mkVec 0 0 0) (mkVec 5 1 1) |}.

(** A car whose volume spans x in [10, 20]: in front of the camera. *)
Definition car_ahead : Actor :=
  {| id := 43; semantic_tags := [14%Z]; get_transform := at_rest 15 0 0;
     bounding_box := mkBox (mkVec 0 0 0) (mkVec 5 1 1) |}.

(** A car behind the camera and far to its side: x in [-20, -10],
    y in [39, 41]. *)
Definition car_behind_aside : Actor :=
  {| id := 44; semantic_tags := [14%Z]; get_transform := at_rest (-15) 40 0;
     bounding_box := mkBox (mkVec 0 0 0) (mkVec 5 1 1) |}.

(** An ego vehicle away from the origin whose volume is centred off its
    location, and a car ahead of the camera whose volume is centred off its
    location too: the volume spans x in [10, 20], y in [-1, 1], z in [0, 2]. *)
Definition ego_with_offset : Actor :=
  {| id := 1; semantic_tags := [14%Z]; get_transform := at_rest 1 2 0;
     bounding_box := mkBox (mkVec (1 / 2) 0 (3 / 4)) (mkVec 2 1 1) |}.

Definition car_with_offset : Actor :=
  {| id := 47; semantic_tags := [14%Z]; get_transform := at_rest 14 0 0;
     bounding_box := mkBox (mkVec 1 0 1) (mkVec 5 1 1) |}.



(** ** Further notions used by the properties of the second part *)

(** The pixel of the raw buffer at row [y], column [x] packs the id [i]. *)
Definition carries (img : image) (i : Z) (y x : nat) : Prop :=
  exists px, at2 img y x = Some px /\
             (channel px chan_G + Z.shiftl (channel px chan_B) 8)%Z = i.

(** An edge of the table is kept when the normal projection of one of its
    endpoints passes the canvas test. *)
Definition edge_kept (verts : list Vector3D) (K w2c : matrix)
    (image_h image_w : Z) (edge : list nat) : bool :=
  match edge with
  | [i; j] =>
    match nth_error verts i, nth_error verts j with
    | Some vi, Some vj =>
      in_canvas (project_by_spec vi K w2c) image_h image_w
      || in_canvas (project_by_spec vj K w2c) image_h image_w
    | _, _ => false
    end
  | _ => false
  end.

(** A car whose rear corners lie on the camera plane: x in [0, 10]. *)
Definition car_on_camera_plane : Actor :=
  {| id := 45; semantic_tags := [14%Z]; get_transform := at_rest 5 0 0;
     bounding_box := mkBox (mkVec 0 0 0) (mkVec 5 1 1) |}.

(** A car ahead of the camera that carries no semantic tag. *)
Definition car_without_tags : Actor :=
  {| id := 46; semantic_tags := []; get_transform := at_rest 15 0 0;
     bounding_box := mkBox (mkVec 0 0 0) (mkVec 5 1 1) |}.

(** ** Vehicles, relative velocity and light state *)

From Stdlib Require String.
Import String.StringSyntax.
Delimit Scope string_scope with string.

(** What the code reads from a [carla.Vehicle] besides what it reads from
    any actor: [type_id], [get_velocity()] and [get_light_state()]. *)
Record Vehicle : Type := mkVehicle {
  vehicle_actor : Actor;
  type_id : String.string;
  get_velocity : Vector3D;
  get_light_state : Z
}.

(** [calculate_relative_velocity(actor, ego)]; the returned dict has the
    keys x, y and z. *)
Definition calculate_relative_velocity {carla : Carla} (actor ego : Vehicle) : Vector3D :=
  let rel_vel := vec_sub (get_velocity actor) (get_velocity ego) in
  let vel_ego_frame := inverse_transform (get_transform (vehicle_actor ego)) rel_vel in
  mkVec (vx vel_ego_frame) (vy vel_ego_frame) (vz vel_ego_frame).

(** The members of [carla.VehicleLightState] the code names; their values
    belong to the CARLA library. *)
Record LightFlags : Type := mkLightFlags {
  Position : Z; LowBeam : Z; HighBeam : Z; Brake : Z; Reverse : Z;
  LeftBlinker : Z; RightBlinker : Z; Fog : Z; Interior : Z;
  Special1 : Z; Special2 : Z
}.

(** [bool(state & flag)] *)
Definition flag_set (state flag : Z) : bool := negb (Z.eqb (Z.land state flag) 0).

(** [vehicle_light_state_to_dict(vehicle)], the dict as the list of its
    items in insertion order. *)
Definition vehicle_light_state_to_dict (F : LightFlags) (vehicle : Vehicle)
  : list (String.string * bool) :=
  let state := get_light_state vehicle in
  [("position"%string,      flag_set state (Position F));
   ("low_beam"%string,      flag_set state (LowBeam F));
   ("high_beam"%string,     flag_set state (HighBeam F));
   ("brake"%string,         flag_set state (Brake F));
   ("reverse"%string,       flag_set state (Reverse F));
   ("left_blinker"%string,  flag_set state (LeftBlinker F));
   ("right_blinker"%string, flag_set state (RightBlinker F));
   ("fog"%string,           flag_set state (Fog F));
   ("interior"%string,      flag_set state (Interior F));
   ("special1"%string,      flag_set state (Special1 F));
   ("special2"%string,      flag_set state (Special2 F))].

(** The flags in the order of the dict's keys. *)
Definition flags_in_order (F : LightFlags) : list Z :=
  [Position F; LowBeam F; HighBeam F; Brake F; Reverse F; LeftBlinker F;
   RightBlinker F; Fog F; Interior F; Special1 F; Special2 F].

(** The state that has exactly the chosen flags: their bitwise or. *)
Fixpoint light_state_of (flags : list Z) (chosen : list bool) : Z :=
  match flags, chosen with
  | f :: flags', b :: chosen' =>
    if b then Z.lor f (light_state_of flags' chosen') else light_state_of flags' chosen'
  | _, _ => 0%Z
  end.

(** Every flag is a single bit, and no two flags are the same bit. *)
Definition single_bits (flags : list Z) : Prop :=
  exists bits : list Z,
    flags = map (Z.pow 2) bits /\ Forall (fun n => (0 <= n)%Z) bits /\ NoDup bits.

(** The values CARLA 0.9 gives the flags. *)
Definition carla_light_flags : LightFlags :=
  {| Position := 1; LowBeam := 2; HighBeam := 4; Brake := 8;
     RightBlinker := 16; LeftBlinker := 32; Reverse := 64; Fog := 128;
     Interior := 256; Special1 := 512; Special2 := 1024 |}.

Definition vehicle_with_state (v : Vector3D) (state : Z) (t : Transform) : Vehicle :=
  {| vehicle_actor :=
       {| id := 7; semantic_tags := [14%Z]; get_transform := t;
          bounding_box := mkBox (mkVec 0 0 0) (mkVec 2 1 1) |};
     type_id := "vehicle.lincoln.mkz_2020"%string;
     get_velocity := v;
     get_light_state := state |}.

(** ** The frame handed to the display *)

(** [img[:, :, :3][:, :, ::-1]]: of every pixel the first three channels,
    reversed. *)
Definition rgb_img (img : image) : image :=
  map (map (fun px : pixel => rev (firstn 3 px))) img.

(** [np.transpose(a, (1, 0, 2))] of an array of shape (H, W, C): the array
    of shape (W, H, C) with [result[x][y] = a[y][x]].  The width is read off
    the first row; an array without rows has no width here. *)
Definition np_transpose_102 (a : image) : image :=
  match a with
  | [] => []
  | row0 :: _ => map (fun x => map (fun row : list pixel => nth x row []) a)
                     (seq 0 (length row0))
  end.

(** The argument of [pygame.surfarray.make_surface] in both visualizers:
    [np.transpose(rgb_img[..., 0:3], (1, 0, 2))]. *)
Definition frame_pixels (img : image) : image :=
  np_transpose_102 (map (map (firstn 3)) (rgb_img img)).

(** ** The per-frame annotation of [bounding_boxes.py] *)

(** Map for CARLA semantic labels to class names and colors. *)
Definition SEMANTIC_MAP : list (Z * (String.string * (Z * Z * Z))) :=
  [(0, ("unlabelled"%string, (0, 0, 0))); (1, ("road"%string, (128, 64, 0)));
   (2, ("sidewalk"%string, (244, 35, 232))); (3, ("building"%string, (70, 70, 70)));
   (4, ("wall"%string, (102, 102, 156))); (5, ("fence"%string, (190, 153, 153)));
   (6, ("pole"%string, (153, 153, 153))); (7, ("traffic light"%string, (250, 170, 30)));
   (8, ("traffic sign"%string, (220, 220, 0))); (9, ("vegetation"%string, (107, 142, 35)));
   (10, ("terrain"%string, (152, 251, 152))); (11, ("sky"%string, (70, 130, 180)));
   (12, ("pedestrian"%string, (220, 20, 60))); (13, ("rider"%string, (255, 0, 0)));
   (14, ("car"%string, (0, 0, 142))); (15, ("truck"%string, (0, 0, 70)));
   (16, ("bus"%string, (0, 60, 100))); (17, ("train"%string, (0, 80, 100)));
   (18, ("motorcycle"%string, (0, 0, 230))); (19, ("bicycle"%string, (119, 11, 32)));
   (20, ("static"%string, (110, 190, 160))); (21, ("dynamic"%string, (170, 120, 50)));
   (22, ("other"%string, (55, 90, 80))); (23, ("water"%string, (45, 60, 150)));
   (24, ("road line"%string, (157, 234, 50))); (25, ("ground"%string, (81, 0, 81)));
   (26, ("bridge"%string, (150, 100, 100))); (27, ("rail track"%string, (230, 150, 140)));
   (28, ("guard rail"%string, (180, 165, 180)))]%Z.

(** The exceptions of a frame: those of the functions it calls, and the
    KeyError of a dict subscript. *)
Inductive frame_exn : Type :=
| KeyError (key : Z)
| Raised (e : exn).

Inductive pyf (A : Type) : Type :=
| RetF (a : A)
| RaiseF (e : frame_exn).

Arguments RetF {A} a.
Arguments RaiseF {A} e.

Definition bindF {A B : Type} (c : pyf A) (k : A -> pyf B) : pyf B :=
  match c with
  | RetF a => k a
  | RaiseF e => RaiseF e
  end.

Notation "x <~ c ;; k" := (bindF c (fun x => k))
  (at level 61, c at next level, right associativity).

(** A call of one of the functions above from the frame loop. *)
Definition call {A : Type} (c : py A) : pyf A :=
  match c with
  | Ret a => RetF a
  | Raise e => RaiseF (Raised e)
  end.

(** [SEMANTIC_MAP[key]] *)
Definition semantic_map_get (key : Z) : pyf (String.string * (Z * Z * Z)) :=
  match find (fun item => Z.eqb (fst item) key) SEMANTIC_MAP with
  | Some item => RetF (snd item)
  | None => RaiseF (KeyError key)
  end.

(** [carla.Location.distance]: the Euclidean distance. *)
Definition vec_distance (a b : Vector3D) : R :=
  sqrt ((vx a - vx b) * (vx a - vx b) + (vy a - vy b) * (vy a - vy b)
        + (vz a - vz b) * (vz a - vz b)).

(** An item of [frame_bboxes] and an item of [json_frame_data['objects']]. *)
Record FrameBoxes : Type := mkFrameBoxes {
  boxes_3d : Detection3D;
  boxes_2d : option Detection2D
}.

Record FrameObject : Type := mkFrameObject {
  obj_id : Z;
  obj_class : String.string;
  obj_blueprint_id : String.string;
  obj_velocity : Vector3D;
  obj_bbox_3d : BBox3D;
  obj_bbox_2d : option (Z * Z * Z * Z);   (* xmin, ymin, xmax, ymax *)
  obj_light_state : list (String.string * bool)
}.

Section FrameLoop.
Context {carla : Carla}.
Variable F : LightFlags.

(** The three tests a vehicle passes before it is annotated. *)
Definition annotated (ego_vehicle : Vehicle) (camera : Actor) (distance : Z)
    (npc : Vehicle) : bool :=
  negb (Z.eqb (id (vehicle_actor npc)) (id (vehicle_actor ego_vehicle)))
  && Rlt_b (vec_distance (location (get_transform (vehicle_actor npc)))
                         (location (get_transform (vehicle_actor ego_vehicle))))
           (IZR distance)
  && Rlt_b 0 (vec_dot (get_forward_vector (get_transform camera))
                      (vec_sub (location (get_transform (vehicle_actor npc)))
                               (location (get_transform camera)))).

(** The body of [for npc in world.get_actors().filter('*vehicle*')],
    threaded through [frame_bboxes] and [json_frame_data['objects']]. *)
Fixpoint frame_loop (ego_vehicle : Vehicle) (camera_bp : CameraBlueprint)
    (camera : Actor) (distance : Z) (actor_ids semantic_labels : grid)
    (vehicles : list Vehicle)
    (frame_bboxes : list FrameBoxes) (objects : list FrameObject)
  : pyf (list FrameBoxes * list FrameObject) :=
  match vehicles with
  | [] => RetF (frame_bboxes, objects)
  | npc :: rest =>
    if negb (Z.eqb (id (vehicle_actor npc)) (id (vehicle_actor ego_vehicle))) then
      let dist := vec_distance (location (get_transform (vehicle_actor npc)))
                               (location (get_transform (vehicle_actor ego_vehicle))) in
      if Rlt_b dist (IZR distance) then
        let forward_vec := get_forward_vector (get_transform camera) in
        let inter_vehicle_vec :=
          vec_sub (location (get_transform (vehicle_actor npc)))
                  (location (get_transform camera)) in
        if Rlt_b 0 (vec_dot forward_vec inter_vehicle_vec) then
          npc_bbox_2d <~ call (bbox_2d_for_actor (vehicle_actor npc)
                                                 actor_ids semantic_labels) ;;
          npc_bbox_3d <~ call (bbox_3d_for_actor (vehicle_actor npc)
                                 (vehicle_actor ego_vehicle) camera_bp camera) ;;
          let frame_bboxes :=
            frame_bboxes ++ [{| boxes_3d := npc_bbox_3d; boxes_2d := npc_bbox_2d |}] in
          tag <~ call (idx (semantic_tags (vehicle_actor npc)) 0) ;;
          item <~ semantic_map_get tag ;;
          let object :=
            {| obj_id := id (vehicle_actor npc);
               obj_class := fst item;
               obj_blueprint_id := type_id npc;
               obj_velocity := calculate_relative_velocity npc ego_vehicle;
               obj_bbox_3d := bbox_3d npc_bbox_3d;
               obj_bbox_2d := option_map bbox_2d npc_bbox_2d;
               obj_light_state := vehicle_light_state_to_dict F npc |} in
          frame_loop ego_vehicle camera_bp camera distance actor_ids semantic_labels
                     rest frame_bboxes (objects ++ [object])
        else frame_loop ego_vehicle camera_bp camera distance actor_ids
                        semantic_labels rest frame_bboxes objects
      else frame_loop ego_vehicle camera_bp camera distance actor_ids
                      semantic_labels rest frame_bboxes objects
    else frame_loop ego_vehicle camera_bp camera distance actor_ids
                    semantic_labels rest frame_bboxes objects
  end.

(** One frame: both lists start empty. *)
Definition annotate_frame (ego_vehicle : Vehicle) (camera_bp : CameraBlueprint)
    (camera : Actor) (distance : Z) (actor_ids semantic_labels : grid)
    (vehicles : list Vehicle) : pyf (list FrameBoxes * list FrameObject) :=
  frame_loop ego_vehicle camera_bp camera distance actor_ids semantic_labels
             vehicles [] [].

(** What the loop does for one vehicle that passes the tests, and for the
    vehicles that pass them, in order. *)
Definition annotate_one (ego_vehicle : Vehicle) (camera_bp : CameraBlueprint)
    (camera : Actor) (actor_ids semantic_labels : grid) (npc : Vehicle)
  : pyf (FrameBoxes * FrameObject) :=
  npc_bbox_2d <~ call (bbox_2d_for_actor (vehicle_actor npc)
                                         actor_ids semantic_labels) ;;
  npc_bbox_3d <~ call (bbox_3d_for_actor (vehicle_actor npc)
                         (vehicle_actor ego_vehicle) camera_bp camera) ;;
  tag <~ call (idx (semantic_tags (vehicle_actor npc)) 0) ;;
  item <~ semantic_map_get tag ;;
  RetF ({| boxes_3d := npc_bbox_3d; boxes_2d := npc_bbox_2d |},
        {| obj_id := id (vehicle_actor npc);
           obj_class := fst item;
           obj_blueprint_id := type_id npc;
           obj_velocity := calculate_relative_velocity npc ego_vehicle;
           obj_bbox_3d := bbox_3d npc_bbox_3d;
           obj_bbox_2d := option_map bbox_2d npc_bbox_2d;
           obj_light_state := vehicle_light_state_to_dict F npc |}).

Fixpoint annotate_all (ego_vehicle : Vehicle) (camera_bp : CameraBlueprint)
    (camera : Actor) (actor_ids semantic_labels : grid) (selected : list Vehicle)
  : pyf (list FrameBoxes * list FrameObject) :=
  match selected with
  | [] => RetF ([], [])
  | npc :: rest =>
    one <~ annotate_one ego_vehicle camera_bp camera actor_ids semantic_labels npc ;;
    others <~ annotate_all ego_vehicle camera_bp camera actor_ids semantic_labels rest ;;
    RetF (fst one :: fst others, snd one :: snd others)
  end.

End FrameLoop.

(** A frame of three vehicles seen from the scene without rotations: the
    ego, a car ahead (id 43, one pixel in the frame) and a car behind. *)
Definition ego_vehicle_at_origin : Vehicle :=
  {| vehicle_actor := ego_at_origin; type_id := "vehicle.lincoln.mkz_2020"%string;
     get_velocity := mkVec 10 0 0; get_light_state := 0 |}.

Definition vehicle_ahead : Vehicle :=
  {| vehicle_actor := car_ahead; type_id := "vehicle.audi.tt"%string;
     get_velocity := mkVec 12 0 0; get_light_state := 8 |}.

Definition vehicle_behind : Vehicle :=
  {| vehicle_actor := car_behind; type_id := "vehicle.audi.tt"%string;
     get_velocity := mkVec 8 0 0; get_light_state := 0 |}.

Definition ids_with_43 : grid := [[0; 43]; [0; 0]]%Z.
Definition labels_with_43 : grid := [[0; 14]; [0; 0]]%Z.

Definition detection_ahead : Detection3D :=
  {| d3_actor_id := 43;
     d3_semantic_label := 14;
     bbox_3d := {| center := mkVec 15 0 0;
                   dimensions := (10, 2, 2);
                   rotation_yaw := 0 |};
     projection :=
       [(360, 340, 360, 260); (360, 260, 440, 260); (440, 260, 440, 340);
        (440, 340, 360, 340); (360, 340, 380, 320); (380, 320, 380, 280);
        (380, 280, 360, 260); (380, 280, 420, 280); (420, 280, 420, 320);
        (420, 320, 380, 320); (420, 320, 440, 340); (420, 280, 440, 260)]%Z |}.

Definition frame_boxes_ahead : FrameBoxes :=
  {| boxes_3d := detection_ahead;
     boxes_2d := Some {| d2_actor_id := 43; d2_semantic_label := 14;
                         bbox_2d := (1, 0, 1, 0)%Z |} |}.

Definition frame_object_ahead : FrameObject :=
  {| obj_id := 43;
     obj_class := "car"%string;
     obj_blueprint_id := "vehicle.audi.tt"%string;
     obj_velocity := mkVec 2 0 0;
     obj_bbox_3d := {| center := mkVec 15 0 0;
                       dimensions := (10, 2, 2);
                       rotation_yaw := 0 |};
     obj_bbox_2d := Some (1, 0, 1, 0)%Z;
     obj_light_state :=
       [("position"%string, false); ("low_beam"%string, false);
        ("high_beam"%string, false); ("brake"%string, true);
        ("reverse"%string, false); ("left_blinker"%string, false);
        ("right_blinker"%string, false); ("fog"%string, false);
        ("interior"%string, false); ("special1"%string, false);
        ("special2"%string, false)] |}.

(** ** Spawning vehicles ([setup_world.py], [simulator_training.py]) *)

From Stdlib Require Import Permutation.

Section Spawn.

(** The state the loop threads: the random generator and the blueprints it
    mutates.  [random.shuffle] and the choice of a blueprint with its
    attributes belong to Python's and CARLA's libraries; the blueprint
    library is taken to hold a vehicle, so that [random.choice] returns. *)
Variables (RandomState Blueprint : Type).
Variable shuffle : RandomState -> list Transform -> list Transform * RandomState.
Variable choose_blueprint : RandomState -> Blueprint * RandomState.

(** [for n, transform in enumerate(spawn_points)], threaded through
    [batch]; a command is [SpawnActor(blueprint, transform)] followed by the
    autopilot switch. *)
Fixpoint spawn_loop (number_of_vehicles n : Z) (spawn_points : list Transform)
    (s : RandomState) (batch : list (Blueprint * Transform))
  : list (Blueprint * Transform) * RandomState :=
  match spawn_points with
  | [] => (batch, s)
  | transform :: rest =>
    if Z.geb n number_of_vehicles then (batch, s)
    else
      let '(blueprint, s) := choose_blueprint s in
      spawn_loop number_of_vehicles (n + 1) rest s (batch ++ [(blueprint, transform)])
  end.

(** From [num_spawn_points = len(spawn_points)] to the end of the loop:
    the batch, and [args.number_of_vehicles] as the code leaves it. *)
Definition spawn_vehicles (number_of_vehicles : Z) (spawn_points : list Transform)
    (s : RandomState) : list (Blueprint * Transform) * Z * RandomState :=
  let num_spawn_points := Z.of_nat (length spawn_points) in
  let '(spawn_points, number_of_vehicles, s) :=
    if Z.ltb number_of_vehicles num_spawn_points then
      let '(shuffled, s) := shuffle s spawn_points in
      (shuffled, number_of_vehicles, s)
    else if Z.gtb number_of_vehicles num_spawn_points then
      (spawn_points, num_spawn_points, s)
    else (spawn_points, number_of_vehicles, s) in
  let '(batch, s) := spawn_loop number_of_vehicles 0 spawn_points s [] in
  (batch, number_of_vehicles, s).

End Spawn.

(** A generator that does nothing: it leaves the spawn points in place and
    always picks the blueprint 0. *)
Definition no_shuffle (s : unit) (l : list Transform) : list Transform * unit := (l, s).
Definition first_blueprint (s : unit) : nat * unit := (0%nat, s).

(** ** Walkers and their controllers ([setup_world.py]) *)

(** A response of [client.apply_batch_sync]: whether [error] is set, and
    the id of the spawned actor. *)
Record Response : Type := mkResponse { error : bool; actor_id : Z }.

(** An item of [walkers_list]: the dict with the key "id" and, once its
    controller is spawned, the key "con". *)
Record Walker : Type := mkWalker { walker_id : Z; walker_con : option Z }.

Inductive walker_exn : Type :=
| WalkerIndexError
| WalkerKeyError (key : String.string).

Section Walkers.
Variable Speed : Type.

(** [for i in range(len(responses))] over the responses to the walker
    batch, threaded through [walkers_list] and [successful_walker_speeds];
    [walker_speeds[i]] raises IndexError past the end of the list. *)
Fixpoint collect_walkers (responses : list Response) (i : nat)
    (walker_speeds : list Speed)
    (walkers_list : list Walker) (successful_walker_speeds : list Speed)
  : walker_exn + (list Walker * list Speed) :=
  match responses with
  | [] => inr (walkers_list, successful_walker_speeds)
  | response :: rest =>
    if error response
    then collect_walkers rest (S i) walker_speeds walkers_list successful_walker_speeds
    else
      match nth_error walker_speeds i with
      | None => inl WalkerIndexError
      | Some speed =>
        collect_walkers rest (S i) walker_speeds
          (walkers_list ++ [{| walker_id := actor_id response; walker_con := None |}])
          (successful_walker_speeds ++ [speed])
      end
  end.

(** [walkers_list[i]["con"] = con] *)
Fixpoint set_con (walkers_list : list Walker) (i : nat) (con : Z)
  : walker_exn + list Walker :=
  match walkers_list, i with
  | [], _ => inl WalkerIndexError
  | w :: rest, O => inr ({| walker_id := walker_id w; walker_con := Some con |} :: rest)
  | w :: rest, S i' =>
    match set_con rest i' con with
    | inl e => inl e
    | inr rest' => inr (w :: rest')
    end
  end.

(** [for i in range(len(responses))] over the responses to the controller
    batch. *)
Fixpoint attach_controllers (responses : list Response) (i : nat)
    (walkers_list : list Walker) : walker_exn + list Walker :=
  match responses with
  | [] => inr walkers_list
  | response :: rest =>
    if error response then attach_controllers rest (S i) walkers_list
    else
      match set_con walkers_list i (actor_id response) with
      | inl e => inl e
      | inr walkers_list' => attach_controllers rest (S i) walkers_list'
      end
  end.

(** [for i in range(len(walkers_list))]: the controller id, then the walker
    id; a walker without the key "con" raises KeyError. *)
Fixpoint collect_all_ids (walkers_list : list Walker) (all_ids : list Z)
  : walker_exn + list Z :=
  match walkers_list with
  | [] => inr all_ids
  | w :: rest =>
    match walker_con w with
    | None => inl (WalkerKeyError "con"%string)
    | Some con => collect_all_ids rest (all_ids ++ [con] ++ [walker_id w])
    end
  end.

End Walkers.

(** The walker batch of three spawn points whose second spawn failed, and
    the controller batch for the two walkers it leaves. *)
Definition walker_responses : list Response :=
  [mkResponse false 101; mkResponse true 0; mkResponse false 103]%Z.
Definition controller_responses : list Response :=
  [mkResponse false 201; mkResponse false 203]%Z.

(** ** Further fixtures and abbreviations *)

Section MoreFixtures.
Local Open Scope Z_scope.

(** The same frame as [ids_frame], padded with a row and a column and with
    another actor in it. *)
Definition ids_frame_other : grid :=
  [[7; 7; 0; 0; 0]; [0; 42; 42; 0; 0]; [0; 0; 42; 9; 0]; [0; 0; 0; 0; 0]].

(** An actor whose id does not fit in 16 bits. *)
Definition car_65578 : Actor :=
  {| id := 65578; semantic_tags := [14];
     get_transform := mkTransform (mkVec 0 0 0) (mkRot 0 0 0);
     bounding_box := mkBox (mkVec 0 0 0) (mkVec 1 1 1) |}.

(** A 1 x 2 image without alpha, and one whose second pixel has two
    channels only. *)
Definition bgr_buffer : image := [[[1; 2; 14]; [0; 7; 12]]].
Definition short_buffer : image := [[[1; 2; 14; 255]; [0; 7]]].

(** The actor whose id, 258, is packed in the second pixel of
    [sample_buffer]. *)
Definition car_258 : Actor :=
  {| id := 258; semantic_tags := [14];
     get_transform := mkTransform (mkVec 0 0 0) (mkRot 0 0 0);
     bounding_box := mkBox (mkVec 0 0 0) (mkVec 1 1 1) |}.

(** Whether the bit [n] is among the chosen ones of a list of bit positions
    paired with choices. *)
Definition chosen_bit (n : Z) (l : list (Z * bool)) : bool :=
  existsb (fun p => snd p && Z.eqb (fst p) n) l.

(** What the controller loop leaves of a walker, given the response at its
    index. *)
Definition with_controller (p : Walker * Response) : Walker :=
  if error (snd p) then fst p
  else mkWalker (walker_id (fst p)) (Some (actor_id (snd p))).

End MoreFixtures.

(** The responses of the walker batch without error, each with the speed
    recorded at its index. *)
Definition spawned_walkers {Speed : Type} (responses : list Response) (walker_speeds : list Speed)
  : list (Response * Speed) :=
  filter (fun p => negb (error (fst p))) (combine responses walker_speeds).

(** The facts about one annotated vehicle. *)
Definition annotation_of {carla : Carla} (ego_vehicle : Vehicle) (actor_ids : grid)
    (npc : Vehicle) (b : FrameBoxes) (o : FrameObject) : Prop :=
  d3_actor_id (boxes_3d b) = id (vehicle_actor npc) /\
  obj_id o = id (vehicle_actor npc) /\
  obj_blueprint_id o = type_id npc /\
  obj_bbox_3d o = box_by_spec (vehicle_actor npc) (vehicle_actor ego_vehicle) /\
  obj_velocity o = calculate_relative_velocity npc ego_vehicle /\
  (obj_bbox_2d o = None <->
   forall y x : nat, ~ matches actor_ids (id (vehicle_actor npc)) y x) /\
  (exists tags, semantic_tags (vehicle_actor npc) = d3_semantic_label (boxes_3d b) :: tags) /\
  (exists color, semantic_map_get (d3_semantic_label (boxes_3d b))
                 = RetF (obj_class o, color)).
(** * Properties *)

(** ** Generic facts about [py], subscripts and grids *)

Lemma mapM_total {A B : Type} (f : A -> py B) (g : A -> B) (l : list A) :
  Forall (fun a => f a = Ret (g a)) l -> mapM f l = Ret (map g l).
Proof.
  induction 1 as [|a r Ha _ IH]; simpl.
  - reflexivity.
  - rewrite Ha; simpl. rewrite IH; reflexivity.
Qed.

Lemma idx_nth {A : Type} (l : list A) (i : nat) (d : A) :
  (i < length l)%nat -> idx l i = Ret (nth i l d).
Proof.
  intros Hi. unfold idx.
  rewrite (nth_error_nth' l d Hi). reflexivity.
Qed.

Lemma at2_map {A B : Type} (f : A -> B) (g : list (list A)) (y x : nat) :
  at2 (map (map f) g) y x = option_map f (at2 g y x).
Proof.
  unfold at2. rewrite nth_error_map.
  destruct (nth_error g y) as [row|]; simpl.
  - apply nth_error_map.
  - reflexivity.
Qed.

Lemma rectangular_map {A B : Type} (f : A -> B) (h w : nat) (g : list (list A)) :
  rectangular h w g -> rectangular h w (map (map f) g).
Proof.
  intros [Hh Hw]. split.
  - rewrite length_map. exact Hh.
  - rewrite Forall_map. eapply Forall_impl; [|exact Hw].
    intros row Hrow. simpl. rewrite length_map. exact Hrow.
Qed.

Lemma zip_with_map {A B C D : Type} (f : B -> C -> D) (a : A -> B) (b : A -> C)
    (l : list A) :
  zip_with f (map a l) (map b l) = map (fun v => f (a v) (b v)) l.
Proof.
  induction l as [|v l IH]; simpl; [reflexivity | now rewrite IH].
Qed.

Lemma grid_zip_map {A : Type} (f : Z -> Z -> Z) (a b : A -> Z) (g : list (list A)) :
  grid_zip f (map (map a) g) (map (map b) g) = map (map (fun v => f (a v) (b v))) g.
Proof.
  unfold grid_zip.
  induction g as [|row g IH]; simpl; [reflexivity|].
  rewrite zip_with_map, IH. reflexivity.
Qed.

Lemma take_channel_total (h w : nat) (img : image) (c : nat) :
  well_formed_buffer h w img -> (c < 4)%nat ->
  take_channel img c = Ret (map (map (fun px => channel px c)) img).
Proof.
  intros [_ Hpx] Hc. unfold take_channel.
  apply mapM_total.
  eapply Forall_impl; [|exact Hpx]. intros row Hrow. simpl in *.
  apply mapM_total.
  eapply Forall_impl; [|exact Hrow]. intros px [Hlen _]. simpl.
  apply idx_nth. lia.
Qed.

(** ** The packed actor id *)

Section PackedId.
Local Open Scope Z_scope.


Lemma packed_id_bytes (g b : Z) :
  is_byte g -> is_byte b -> packed_id g b = g + Z.shiftl b 8.
Proof.
  unfold is_byte, packed_id, add16, shl8_16, u16. intros Hg Hb.
  rewrite (Z.mod_small g) by lia.
  rewrite (Z.mod_small b) by lia.
  rewrite Z.shiftl_mul_pow2 by lia. change (2 ^ 8) with 256.
  rewrite (Z.mod_small (b * 256)) by lia.
  apply Z.mod_small. lia.
Qed.

Lemma unpack_id_pack (g b : Z) :
  is_byte g -> is_byte b -> unpack_id (g + Z.shiftl b 8) = (b, g).
Proof.
  unfold is_byte, unpack_id. intros Hg Hb.
  rewrite Z.shiftl_mul_pow2 by lia.
  rewrite Z.shiftr_div_pow2 by lia.
  change 255 with (Z.ones 8). rewrite Z.land_ones by lia.
  change (2 ^ 8) with 256.
  f_equal.
  - rewrite Z.div_add by lia. rewrite Z.div_small by lia. lia.
  - rewrite Z.mod_add by lia. apply Z.mod_small. lia.
Qed.

End PackedId.

(** ** The instance segmentation decoder *)

Section Decoder.
Local Open Scope Z_scope.

Lemma decode_instance_segmentation_eq (h w : nat) (img : image) :
  well_formed_buffer h w img ->
  decode_instance_segmentation img =
    Ret (map (map (fun px => channel px chan_R)) img,
         map (map (fun px => packed_id (channel px chan_G) (channel px chan_B))) img).
Proof.
  intros Hwf. unfold decode_instance_segmentation.
  rewrite (take_channel_total (c:=2) Hwf) by lia.
  rewrite (take_channel_total (c:=1) Hwf) by lia.
  rewrite (take_channel_total (c:=0) Hwf) by lia.
  simpl. unfold grid_map. rewrite !map_map.
  rewrite (map_ext (fun x => map u16 (map (fun px : pixel => channel px 1) x))
                   (map (fun px => u16 (channel px 1))))
    by (intros; apply map_map).
  rewrite (map_ext (fun x => map shl8_16 (map u16 (map (fun px : pixel => channel px 0) x)))
                   (map (fun px => shl8_16 (u16 (channel px 0)))))
    by (intros; rewrite !map_map; reflexivity).
  rewrite grid_zip_map. reflexivity.
Qed.

Lemma channel_byte (px : pixel) (c : nat) :
  well_formed_pixel px -> is_byte (channel px c).
Proof.
  intros [Hlen Hb]. unfold channel.
  destruct (Nat.lt_ge_cases c (length px)) as [Hc|Hc].
  - rewrite Forall_forall in Hb. apply Hb. apply nth_In. exact Hc.
  - rewrite nth_overflow by exact Hc. unfold is_byte. lia.
Qed.

Lemma at2_In {A : Type} (g : list (list A)) (y x : nat) (a : A) :
  at2 g y x = Some a -> exists row, In row g /\ In a row.
Proof.
  unfold at2. destruct (nth_error g y) as [row|] eqn:Hy; [|discriminate].
  intros Hx. exists row. split; eapply nth_error_In; eassumption.
Qed.

(** C3. On every well-formed 4-channel buffer of [h] rows and [w] columns
    the decoder returns (it raises nothing) two grids of [h] rows and [w]
    columns; at every pixel the semantic label is the R channel and the
    actor id is the G channel plus the B channel shifted left by 8 bits. *)
Theorem decode_instance_segmentation_correct (h w : nat) (img : image) :
  well_formed_buffer h w img ->
  exists semantic_labels actor_ids,
    decode_instance_segmentation img = Ret (semantic_labels, actor_ids) /\
    rectangular h w semantic_labels /\
    rectangular h w actor_ids /\
    forall (y x : nat) (px : pixel),
      at2 img y x = Some px ->
      at2 semantic_labels y x = Some (channel px chan_R) /\
      at2 actor_ids y x = Some (channel px chan_G + Z.shiftl (channel px chan_B) 8).
Proof.
  intros Hwf.
  eexists; eexists. split; [apply (decode_instance_segmentation_eq Hwf)|].
  destruct Hwf as [Hrect Hpx].
  split; [apply rectangular_map; exact Hrect|].
  split; [apply rectangular_map; exact Hrect|].
  intros y x px Hat. rewrite !at2_map, Hat. simpl. split; [reflexivity|].
  f_equal. apply packed_id_bytes; apply channel_byte.
  all: destruct (at2_In _ _ _ Hat) as (row & Hrow & Hin);
    rewrite Forall_forall in Hpx; specialize (Hpx _ Hrow);
    rewrite Forall_forall in Hpx; exact (Hpx _ Hin).
Qed.


Lemma sample_buffer_well_formed : well_formed_buffer 2 2 sample_buffer.
Proof.
  unfold well_formed_buffer, rectangular, well_formed_pixel, is_byte, sample_buffer.
  repeat (split || constructor || simpl || lia).
Qed.

Lemma decode_instance_segmentation_correct_witness :
  exists semantic_labels actor_ids,
    decode_instance_segmentation sample_buffer = Ret (semantic_labels, actor_ids) /\
    rectangular 2 2 semantic_labels /\
    rectangular 2 2 actor_ids /\
    forall (y x : nat) (px : pixel),
      at2 sample_buffer y x = Some px ->
      at2 semantic_labels y x = Some (channel px chan_R) /\
      at2 actor_ids y x = Some (channel px chan_G + Z.shiftl (channel px chan_B) 8).
Proof.
  exact (decode_instance_segmentation_correct sample_buffer_well_formed).
Defined.

Example decode_sample_buffer :
  decode_instance_segmentation sample_buffer =
    Ret ([[14; 14]; [1; 12]], [[42; 258]; [0; 65535]]).
Proof. reflexivity. Qed.

(** C9. For bytes [b] and [g], a pixel whose B channel is [b] and whose G
    channel is [g] decodes to the id [g + (b << 8)]; the pair [(b, g)] is
    read back from that id, and no other pair of bytes gives the same id. *)
Theorem packed_id_roundtrip (b g r a : Z) :
  is_byte b -> is_byte g ->
  decode_instance_segmentation [[[b; g; r; a]]] = Ret ([[r]], [[g + Z.shiftl b 8]]) /\
  unpack_id (g + Z.shiftl b 8) = (b, g) /\
  forall b' g', is_byte b' -> is_byte g' ->
    g' + Z.shiftl b' 8 = g + Z.shiftl b 8 -> b' = b /\ g' = g.
Proof.
  intros Hb Hg. split; [|split].
  - change (decode_instance_segmentation [[[b; g; r; a]]])
      with (Ret ([[r]], [[packed_id g b]])).
    rewrite packed_id_bytes by assumption. reflexivity.
  - apply unpack_id_pack; assumption.
  - intros b' g' Hb' Hg' Heq.
    pose proof (unpack_id_pack Hg' Hb') as H1.
    pose proof (unpack_id_pack Hg Hb) as H2.
    rewrite Heq in H1. rewrite H1 in H2. inversion H2. split; reflexivity.
Qed.

Lemma packed_id_roundtrip_witness :
  decode_instance_segmentation [[[1; 2; 14; 255]]] = Ret ([[14]], [[2 + Z.shiftl 1 8]]) /\
  unpack_id (2 + Z.shiftl 1 8) = (1, 2) /\
  forall b' g', is_byte b' -> is_byte g' ->
    g' + Z.shiftl b' 8 = 2 + Z.shiftl 1 8 -> b' = 1 /\ g' = 2.
Proof.
  apply (@packed_id_roundtrip 1 2 14 255); unfold is_byte; lia.
Defined.

End Decoder.

(** ** The 2D bounding box extractor *)

Section Extractor.
Local Open Scope Z_scope.

Lemma fold_left_min_spec (r : list Z) (v : Z) :
  (fold_left Z.min r v = v \/ In (fold_left Z.min r v) r) /\
  fold_left Z.min r v <= v /\ Forall (Z.le (fold_left Z.min r v)) r.
Proof.
  revert v. induction r as [|a r IH]; intros v; simpl.
  - repeat split; auto; lia.
  - destruct (IH (Z.min v a)) as (Hin & Hle & Hall).
    split; [|split].
    + destruct Hin as [Heq|Hin]; [|auto].
      rewrite Heq. destruct (Z.min_spec v a) as [[_ ->]|[_ ->]]; auto.
    + lia.
    + constructor; [lia | exact Hall].
Qed.

Lemma fold_left_max_spec (r : list Z) (v : Z) :
  (fold_left Z.max r v = v \/ In (fold_left Z.max r v) r) /\
  v <= fold_left Z.max r v /\ Forall (fun a => a <= fold_left Z.max r v) r.
Proof.
  revert v. induction r as [|a r IH]; intros v; simpl.
  - repeat split; auto; lia.
  - destruct (IH (Z.max v a)) as (Hin & Hle & Hall).
    split; [|split].
    + destruct Hin as [Heq|Hin]; [|auto].
      rewrite Heq. destruct (Z.max_spec v a) as [[_ ->]|[_ ->]]; auto.
    + lia.
    + constructor; [lia | exact Hall].
Qed.

Lemma np_min_spec (a : list Z) :
  a <> [] ->
  exists m, np_min a = Ret m /\ In m a /\ Forall (Z.le m) a.
Proof.
  destruct a as [|v r]; [congruence|]. intros _.
  destruct (fold_left_min_spec r v) as (Hin & Hle & Hall).
  exists (fold_left Z.min r v). simpl. repeat split.
  - destruct Hin as [->|Hin]; auto.
  - constructor; assumption.
Qed.

Lemma np_max_spec (a : list Z) :
  a <> [] ->
  exists m, np_max a = Ret m /\ In m a /\ Forall (fun v => v <= m) a.
Proof.
  destruct a as [|v r]; [congruence|]. intros _.
  destruct (fold_left_max_spec r v) as (Hin & Hle & Hall).
  exists (fold_left Z.max r v). simpl. repeat split.
  - destruct Hin as [->|Hin]; auto.
  - constructor; assumption.
Qed.

Lemma In_where_row (y x0 : Z) (row : list bool) (Y X : Z) :
  In (Y, X) (where_row y x0 row) <->
  Y = y /\ exists j : nat, X = x0 + Z.of_nat j /\ nth_error row j = Some true.
Proof.
  revert x0. induction row as [|b row IH]; intros x0; simpl.
  - split; [tauto|]. intros (_ & [|j] & _ & Hj); discriminate.
  - rewrite in_app_iff, IH. split.
    + intros [Hhere|(HY & j & HX & Hj)].
      * destruct b; simpl in Hhere; [|tauto].
        destruct Hhere as [Heq|[]]. inversion Heq; subst.
        split; [reflexivity|]. exists 0%nat. split; [lia | reflexivity].
      * split; [exact HY|]. exists (S j). split; [lia | exact Hj].
    + intros (HY & [|j] & HX & Hj); simpl in Hj.
      * left. inversion Hj; subst. simpl. left. f_equal. lia.
      * right. split; [exact HY|]. exists j. split; [lia | exact Hj].
Qed.

Lemma In_where_rows (y0 : Z) (mask : list (list bool)) (Y X : Z) :
  In (Y, X) (where_rows y0 mask) <->
  exists i j : nat,
    Y = y0 + Z.of_nat i /\ X = Z.of_nat j /\ at2 mask i j = Some true.
Proof.
  revert y0. induction mask as [|row mask IH]; intros y0; simpl.
  - split; [tauto|]. intros ([|i] & j & _ & _ & H); discriminate.
  - rewrite in_app_iff, In_where_row, IH. split.
    + intros [(HY & j & HX & Hj)|(i & j & HY & HX & Hij)].
      * exists 0%nat, j. repeat split; [lia | lia | exact Hj].
      * exists (S i), j. repeat split; [lia | exact HX | exact Hij].
    + intros ([|i] & j & HY & HX & Hij).
      * left. split; [lia|]. exists j. split; [lia | exact Hij].
      * right. exists i, j. repeat split; [lia | exact HX | exact Hij].
Qed.

Lemma np_any_true (mask : list (list bool)) :
  np_any mask = true <-> exists i j : nat, at2 mask i j = Some true.
Proof.
  unfold np_any. rewrite existsb_exists. split.
  - intros (row & Hrow & Hex). apply existsb_exists in Hex.
    destruct Hex as (b & Hb & ->).
    apply In_nth_error in Hrow. destruct Hrow as [i Hi].
    apply In_nth_error in Hb. destruct Hb as [j Hj].
    exists i, j. unfold at2. rewrite Hi. exact Hj.
  - intros (i & j & Hij). unfold at2 in Hij.
    destruct (nth_error mask i) as [row|] eqn:Hi; [|discriminate].
    exists row. split; [eapply nth_error_In; eassumption|].
    apply existsb_exists. exists true. split; [|reflexivity].
    eapply nth_error_In; eassumption.
Qed.

Lemma at2_mask_eq (actor_ids : grid) (i : Z) (y x : nat) :
  at2 (mask_eq actor_ids i) y x = Some true <-> matches actor_ids i y x.
Proof.
  unfold mask_eq, matches. rewrite at2_map.
  destruct (at2 actor_ids y x) as [v|]; simpl; [|split; discriminate].
  split; intros H; inversion H as [Hv].
  - apply Z.eqb_eq in Hv. now subst.
  - now rewrite Z.eqb_refl.
Qed.


(** The three outcomes of the extractor. *)
Lemma bbox_2d_for_actor_cases (actor : Actor) (actor_ids semantic_labels : grid) :
  ((forall y x : nat, ~ matches actor_ids (id actor) y x) /\
   bbox_2d_for_actor actor actor_ids semantic_labels = Ret None) \/
  ((exists y x : nat, matches actor_ids (id actor) y x) /\
   ((semantic_tags actor = [] /\
     bbox_2d_for_actor actor actor_ids semantic_labels = Raise IndexError) \/
    (exists tag tags box,
       semantic_tags actor = tag :: tags /\
       tight_box actor_ids (id actor) box /\
       bbox_2d_for_actor actor actor_ids semantic_labels =
         Ret (Some {| d2_actor_id := id actor;
                      d2_semantic_label := tag;
                      bbox_2d := box |})))).
Proof.
  unfold bbox_2d_for_actor.
  destruct (np_any (mask_eq actor_ids (id actor))) eqn:Hany; simpl.
  - right. apply np_any_true in Hany.
    assert (Hex : exists y x : nat, matches actor_ids (id actor) y x).
    { destruct Hany as (i & j & Hij). exists i, j. now apply at2_mask_eq. }
    split; [exact Hex|].
    set (cs := where_rows 0 (mask_eq actor_ids (id actor))).
    assert (Hcs : forall Y X, In (Y, X) cs <->
              exists y x : nat, Y = Z.of_nat y /\ X = Z.of_nat x /\
                                matches actor_ids (id actor) y x).
    { intros Y X. unfold cs. rewrite In_where_rows.
      split; intros (y & x & HY & HX & H); exists y, x;
        (repeat split; [lia | exact HX | now apply at2_mask_eq]). }
    assert (Hne : cs <> []).
    { destruct Hex as (y & x & Hm). intros Hnil.
      assert (Hin : In (Z.of_nat y, Z.of_nat x) cs) by (apply Hcs; eauto).
      rewrite Hnil in Hin. exact Hin. }
    assert (Hxs : map snd cs <> []) by (destruct cs; simpl; congruence).
    assert (Hys : map fst cs <> []) by (destruct cs; simpl; congruence).
    destruct (np_min_spec Hxs) as (xmin & -> & Hxmin & Hxlo).
    destruct (np_max_spec Hxs) as (xmax & -> & Hxmax & Hxhi).
    destruct (np_min_spec Hys) as (ymin & -> & Hymin & Hylo).
    destruct (np_max_spec Hys) as (ymax & -> & Hymax & Hyhi).
    simpl. unfold idx.
    destruct (semantic_tags actor) as [|tag tags]; simpl.
    + left. split; reflexivity.
    + right. exists tag, tags, (xmin, ymin, xmax, ymax).
      split; [reflexivity|]. split; [|reflexivity].
      rewrite Forall_forall in Hxlo, Hxhi, Hylo, Hyhi.
      unfold tight_box. split; [|repeat split].
      * intros y x Hm.
        assert (Hin : In (Z.of_nat y, Z.of_nat x) cs) by (apply Hcs; eauto).
        pose proof (in_map snd _ _ Hin) as Hx.
        pose proof (in_map fst _ _ Hin) as Hy. simpl in Hx, Hy.
        specialize (Hxlo _ Hx). specialize (Hxhi _ Hx).
        specialize (Hylo _ Hy). specialize (Hyhi _ Hy). lia.
      * apply in_map_iff in Hxmin. destruct Hxmin as ([Y X] & HX & Hin).
        apply Hcs in Hin. destruct Hin as (y & x & _ & -> & Hm).
        exists y, x. split; [exact Hm | exact HX].
      * apply in_map_iff in Hxmax. destruct Hxmax as ([Y X] & HX & Hin).
        apply Hcs in Hin. destruct Hin as (y & x & _ & -> & Hm).
        exists y, x. split; [exact Hm | exact HX].
      * apply in_map_iff in Hymin. destruct Hymin as ([Y X] & HY & Hin).
        apply Hcs in Hin. destruct Hin as (y & x & -> & _ & Hm).
        exists y, x. split; [exact Hm | exact HY].
      * apply in_map_iff in Hymax. destruct Hymax as ([Y X] & HY & Hin).
        apply Hcs in Hin. destruct Hin as (y & x & -> & _ & Hm).
        exists y, x. split; [exact Hm | exact HY].
  - left. split; [|reflexivity].
    intros y x Hm. apply at2_mask_eq in Hm.
    assert (Htrue : np_any (mask_eq actor_ids (id actor)) = true)
      by (apply np_any_true; eauto).
    congruence.
Qed.

End Extractor.

Section ExtractorClaims.
Local Open Scope Z_scope.


Example bbox_2d_car_42 :
  bbox_2d_for_actor car_42 ids_frame labels_frame =
    Ret (Some {| d2_actor_id := 42; d2_semantic_label := 14; bbox_2d := (1, 1, 2, 2) |}).
Proof. reflexivity. Qed.

(** The design document's scenario. *)
Example bbox_2d_block_frame :
  bbox_2d_for_actor car_42 block_frame [] =
    Ret (Some {| d2_actor_id := 42; d2_semantic_label := 14;
                 bbox_2d := (20, 10, 22, 12) |}).
Proof. vm_compute. reflexivity. Qed.

Lemma matches_ids_frame (y x : nat) :
  matches ids_frame 42 y x -> at2 labels_frame y x = Some 5.
Proof.
  unfold matches, at2, ids_frame, labels_frame. intros Hm.
  destruct y as [|[|[|y']]]; simpl in *;
    [| | | destruct y'; discriminate];
    destruct x as [|[|[|[|x']]]]; simpl in *;
    try congruence; destruct x'; discriminate.
Qed.

(** C4, as stated, fails: the label returned for [car_42] is its first
    semantic tag, 14, and no pixel that matches its id carries that label in
    the grid of semantic labels. *)
Lemma bbox_2d_label_is_not_read_from_a_pixel :
  bbox_2d_for_actor car_42 ids_frame labels_frame =
    Ret (Some {| d2_actor_id := 42; d2_semantic_label := 14; bbox_2d := (1, 1, 2, 2) |}) /\
  ~ (exists y x : nat, matches ids_frame 42 y x /\ at2 labels_frame y x = Some 14).
Proof.
  split; [reflexivity|].
  intros (y & x & Hm & Hl). rewrite (matches_ids_frame Hm) in Hl. discriminate.
Qed.

(** C4, amended.  The extractor returns [None] exactly when no pixel of the
    id grid equals the actor's id.  Otherwise, for an actor that has a
    semantic tag, it returns the actor's id, the tight inclusive box of the
    matching pixels, and as label the actor's first semantic tag; the grid
    of semantic labels is not read. *)
Theorem bbox_2d_for_actor_correct (actor : Actor) (actor_ids semantic_labels : grid) :
  (bbox_2d_for_actor actor actor_ids semantic_labels = Ret None <->
   forall y x : nat, ~ matches actor_ids (id actor) y x) /\
  (forall tag tags,
     semantic_tags actor = tag :: tags ->
     (exists y x : nat, matches actor_ids (id actor) y x) ->
     exists box,
       tight_box actor_ids (id actor) box /\
       bbox_2d_for_actor actor actor_ids semantic_labels =
         Ret (Some {| d2_actor_id := id actor;
                      d2_semantic_label := tag;
                      bbox_2d := box |})) /\
  (forall other_labels : grid,
     bbox_2d_for_actor actor actor_ids other_labels =
     bbox_2d_for_actor actor actor_ids semantic_labels).
Proof.
  split; [|split].
  - destruct (bbox_2d_for_actor_cases actor actor_ids semantic_labels)
      as [[Hno ->]|[Hex [[_ ->]|(tag & tags & box & _ & _ & ->)]]].
    + split; auto.
    + split; [discriminate|]. intros Hno. destruct Hex as (y & x & Hm).
      elim (Hno _ _ Hm).
    + split; [discriminate|]. intros Hno. destruct Hex as (y & x & Hm).
      elim (Hno _ _ Hm).
  - intros tag tags Htags Hex.
    destruct (bbox_2d_for_actor_cases actor actor_ids semantic_labels)
      as [[Hno _]|[_ [[Hnil _]|(tag' & tags' & box & Htags' & Htight & ->)]]].
    + destruct Hex as (y & x & Hm). elim (Hno _ _ Hm).
    + congruence.
    + exists box. split; [exact Htight|].
      rewrite Htags in Htags'. inversion Htags'. reflexivity.
  - reflexivity.
Qed.

Lemma matches_in_shape (h w : nat) (actor_ids : grid) (i : Z) (y x : nat) :
  rectangular h w actor_ids -> matches actor_ids i y x -> (y < h)%nat /\ (x < w)%nat.
Proof.
  intros [Hh Hw] Hm. unfold matches, at2 in Hm.
  destruct (nth_error actor_ids y) as [row|] eqn:Hy; [|discriminate].
  split.
  - rewrite <- Hh. apply nth_error_Some. congruence.
  - rewrite Forall_forall in Hw. rewrite <- (Hw row (nth_error_In _ _ Hy)).
    apply nth_error_Some. congruence.
Qed.

(** C10. A box returned for a grid of [h] rows and [w] columns is
    well-ordered and lies in the grid:
    [0 <= xmin <= xmax <= w - 1] and [0 <= ymin <= ymax <= h - 1]. *)
Theorem bbox_2d_in_bounds (actor : Actor) (actor_ids semantic_labels : grid)
    (h w : nat) (d : Detection2D) :
  rectangular h w actor_ids ->
  bbox_2d_for_actor actor actor_ids semantic_labels = Ret (Some d) ->
  let '(xmin, ymin, xmax, ymax) := bbox_2d d in
  (0 <= xmin <= xmax /\ xmax <= Z.of_nat w - 1) /\
  (0 <= ymin <= ymax /\ ymax <= Z.of_nat h - 1).
Proof.
  intros Hrect Hret.
  destruct (bbox_2d_for_actor_cases actor actor_ids semantic_labels)
    as [[_ Heq]|[_ [[_ Heq]|(tag & tags & box & _ & Htight & Heq)]]];
    rewrite Heq in Hret; try discriminate.
  inversion Hret; subst d; clear Hret. simpl.
  destruct box as [[[xmin ymin] xmax] ymax].
  destruct Htight as (Hall & (y1 & x1 & H1 & E1) & (y2 & x2 & H2 & E2)
                      & (y3 & x3 & H3 & E3) & (y4 & x4 & H4 & E4)).
  pose proof (matches_in_shape Hrect H1).
  pose proof (matches_in_shape Hrect H2).
  pose proof (matches_in_shape Hrect H3).
  pose proof (matches_in_shape Hrect H4).
  pose proof (Hall _ _ H1). pose proof (Hall _ _ H3). lia.
Qed.

Lemma ids_frame_shape : rectangular 3 4 ids_frame.
Proof. split; [reflexivity|]. repeat constructor. Qed.

Lemma bbox_2d_in_bounds_witness :
  (0 <= 1 <= 2 /\ 2 <= Z.of_nat 4 - 1) /\ (0 <= 1 <= 2 /\ 2 <= Z.of_nat 3 - 1).
Proof.
  exact (@bbox_2d_in_bounds car_42 ids_frame labels_frame 3 4 _
           ids_frame_shape bbox_2d_car_42).
Defined.

End ExtractorClaims.

(** ** The camera intrinsics builder *)

Section Intrinsics.

Lemma build_projection_matrix_eq (w h : Z) (fov : R) (mirrored : bool) :
  build_projection_matrix w h fov mirrored = Ret (intrinsics w h fov mirrored).
Proof. destruct mirrored; reflexivity. Qed.

Lemma intrinsics_shape (w h : Z) (fov : R) (mirrored : bool) :
  shape 3 3 (intrinsics w h fov mirrored).
Proof. split; [reflexivity|]. repeat constructor. Qed.

Lemma half_fov_tan_pos (fov : R) : 0 < fov < 180 -> 0 < tan (fov * PI / 360).
Proof.
  intros [Hlo Hhi]. pose proof PI_RGT_0 as Hpi.
  apply tan_gt_0; nra.
Qed.

(** C7. For positive [w] and [h] and [0 < fov < 180] the builder returns the
    3 x 3 matrix with [K[0][0] = K[1][1] = -focal] when mirrored and [focal]
    otherwise, [focal = w / (2 tan (fov pi / 360))] (a genuine quotient: the
    divisor is positive), [K[0][2] = w/2], [K[1][2] = h/2], [K[2][2] = 1]
    and 0 elsewhere; the mirrored and the normal matrix differ in the sign of
    the two focal entries and nowhere else. *)
Theorem build_projection_matrix_correct (w h : Z) (fov : R) (mirrored : bool) :
  (0 < w)%Z -> (0 < h)%Z -> 0 < fov < 180 ->
  let focal := IZR w / (2 * tan (fov * PI / 360)) in
  let f := if mirrored then - focal else focal in
  0 < 2 * tan (fov * PI / 360) /\
  build_projection_matrix w h fov mirrored =
    Ret [[f; 0; IZR w / 2]; [0; f; IZR h / 2]; [0; 0; 1]] /\
  exists K_normal K_mirrored,
    build_projection_matrix w h fov false = Ret K_normal /\
    build_projection_matrix w h fov true = Ret K_mirrored /\
    entry K_mirrored 0 0 = - entry K_normal 0 0 /\
    entry K_mirrored 1 1 = - entry K_normal 1 1 /\
    forall i j : nat, ~ (i = j /\ (i < 2)%nat) ->
      entry K_mirrored i j = entry K_normal i j.
Proof.
  intros Hw Hh Hfov focal f.
  split; [pose proof (half_fov_tan_pos Hfov); lra|].
  split; [apply build_projection_matrix_eq|].
  exists (intrinsics w h fov false), (intrinsics w h fov true).
  split; [apply build_projection_matrix_eq|].
  split; [apply build_projection_matrix_eq|].
  split; [reflexivity|]. split; [reflexivity|].
  intros i j Hij. unfold entry, intrinsics.
  destruct i as [|[|[|i]]]; destruct j as [|[|[|j]]]; simpl;
    try reflexivity; try (exfalso; apply Hij; split; [reflexivity | lia]);
    destruct i; try reflexivity; destruct j; reflexivity.
Qed.

Lemma tan_quarter_turn : tan (90 * PI / 360) = 1.
Proof.
  replace (90 * PI / 360) with (PI / 4) by field. apply tan_PI4.
Qed.

Lemma build_projection_matrix_correct_witness :
  0 < 2 * tan (90 * PI / 360) /\
  build_projection_matrix 800 600 90 true =
    Ret [[- (IZR 800 / (2 * tan (90 * PI / 360))); 0; IZR 800 / 2];
         [0; - (IZR 800 / (2 * tan (90 * PI / 360))); IZR 600 / 2];
         [0; 0; 1]] /\
  exists K_normal K_mirrored,
    build_projection_matrix 800 600 90 false = Ret K_normal /\
    build_projection_matrix 800 600 90 true = Ret K_mirrored /\
    entry K_mirrored 0 0 = - entry K_normal 0 0 /\
    entry K_mirrored 1 1 = - entry K_normal 1 1 /\
    forall i j : nat, ~ (i = j /\ (i < 2)%nat) ->
      entry K_mirrored i j = entry K_normal i j.
Proof.
  apply (@build_projection_matrix_correct 800 600 90 true); [lia | lia | lra].
Defined.

(** C8, as stated, fails: for the non-positive width -800 the builder
    raises nothing and returns a matrix. *)
Lemma build_projection_matrix_accepts_malformed_input :
  (-800 <= 0)%Z /\
  build_projection_matrix (-800) 600 90 false =
    Ret [[-400; 0; -400]; [0; -400; 300]; [0; 0; 1]] /\
  forall e, build_projection_matrix (-800) 600 90 false <> Raise e.
Proof.
  assert (H : build_projection_matrix (-800) 600 90 false =
              Ret [[-400; 0; -400]; [0; -400; 300]; [0; 0; 1]]).
  { rewrite build_projection_matrix_eq. unfold intrinsics, focal_length.
    rewrite tan_quarter_turn.
    repeat (f_equal; try lra). }
  split; [lia|]. split; [exact H|]. intros e He. rewrite H in He. discriminate.
Qed.

(** C8, amended.  The builder checks nothing: for every width, height and
    field of view, malformed ones included, it returns a 3 x 3 matrix and
    raises no error; [K[0][2] = w/2], [K[1][2] = h/2], the last row is
    [(0, 0, 1)], and wherever the divisor [2 tan (fov pi / 360)] is not zero
    the focal entries are plus or minus [w] over it. *)
Theorem build_projection_matrix_unchecked (w h : Z) (fov : R) (mirrored : bool) :
  exists K,
    build_projection_matrix w h fov mirrored = Ret K /\
    shape 3 3 K /\
    entry K 0 2 = IZR w / 2 /\ entry K 1 2 = IZR h / 2 /\
    entry K 2 0 = 0 /\ entry K 2 1 = 0 /\ entry K 2 2 = 1 /\
    (2 * tan (fov * PI / 360) <> 0 ->
     entry K 0 0 = (if mirrored then - (IZR w / (2 * tan (fov * PI / 360)))
                    else IZR w / (2 * tan (fov * PI / 360))) /\
     entry K 1 1 = entry K 0 0).
Proof.
  exists (intrinsics w h fov mirrored).
  split; [apply build_projection_matrix_eq|].
  split; [apply intrinsics_shape|].
  repeat split; reflexivity.
Qed.

End Intrinsics.

(** ** The world-to-image projector *)

Section ImagePoint.

Lemma length_4_inv {A : Type} (l : list A) :
  length l = 4%nat -> exists a b c d, l = [a; b; c; d].
Proof.
  destruct l as [|a [|b [|c [|d [|e l]]]]]; simpl; try discriminate.
  intros _. now exists a, b, c, d.
Qed.

Lemma length_3_inv {A : Type} (l : list A) :
  length l = 3%nat -> exists a b c, l = [a; b; c].
Proof.
  destruct l as [|a [|b [|c [|d l]]]]; simpl; try discriminate.
  intros _. now exists a, b, c.
Qed.

Lemma shape_4_4_inv (m : matrix) :
  shape 4 4 m ->
  exists a0 a1 a2 a3 b0 b1 b2 b3 c0 c1 c2 c3 d0 d1 d2 d3,
    m = [[a0; a1; a2; a3]; [b0; b1; b2; b3]; [c0; c1; c2; c3]; [d0; d1; d2; d3]].
Proof.
  intros [Hn Hk]. destruct (length_4_inv _ Hn) as (r0 & r1 & r2 & r3 & ->).
  inversion Hk as [|? ? H0 Hk1]; subst.
  inversion Hk1 as [|? ? H1 Hk2]; subst.
  inversion Hk2 as [|? ? H2 Hk3]; subst.
  inversion Hk3 as [|? ? H3 _]; subst.
  destruct (length_4_inv _ H0) as (a0 & a1 & a2 & a3 & ->).
  destruct (length_4_inv _ H1) as (b0 & b1 & b2 & b3 & ->).
  destruct (length_4_inv _ H2) as (c0 & c1 & c2 & c3 & ->).
  destruct (length_4_inv _ H3) as (d0 & d1 & d2 & d3 & ->).
  repeat eexists.
Qed.

Lemma shape_3_3_inv (m : matrix) :
  shape 3 3 m ->
  exists a0 a1 a2 b0 b1 b2 c0 c1 c2,
    m = [[a0; a1; a2]; [b0; b1; b2]; [c0; c1; c2]].
Proof.
  intros [Hn Hk]. destruct (length_3_inv _ Hn) as (r0 & r1 & r2 & ->).
  inversion Hk as [|? ? H0 Hk1]; subst.
  inversion Hk1 as [|? ? H1 Hk2]; subst.
  inversion Hk2 as [|? ? H2 _]; subst.
  destruct (length_3_inv _ H0) as (a0 & a1 & a2 & ->).
  destruct (length_3_inv _ H1) as (b0 & b1 & b2 & ->).
  destruct (length_3_inv _ H2) as (c0 & c1 & c2 & ->).
  repeat eexists.
Qed.

Lemma np_div_congr (u u' s s' : R) :
  u = u' -> s = s' -> np_div (Fin u) (Fin s) = np_div (Fin u') (Fin s').
Proof. now intros -> ->. Qed.

Lemma np_div_finite (u s : R) : s <> 0 -> np_div (Fin u) (Fin s) = Fin (u / s).
Proof.
  intros Hs. unfold np_div. destruct (Req_dec_T s 0); [contradiction | reflexivity].
Qed.

Lemma np_div_by_zero (u : R) : np_div (Fin u) (Fin 0) = NonFin.
Proof.
  unfold np_div. destruct (Req_dec_T 0 0); [reflexivity | congruence].
Qed.

Lemma get_image_point_eq (loc : Vector3D) (K w2c : matrix) :
  shape 3 3 K -> shape 4 4 w2c ->
  get_image_point loc K w2c = Ret (project_by_spec loc K w2c).
Proof.
  intros HK Hw.
  destruct (shape_3_3_inv HK) as (k00 & k01 & k02 & k10 & k11 & k12 & k20 & k21 & k22 & ->).
  destruct (shape_4_4_inv Hw)
    as (a0 & a1 & a2 & a3 & b0 & b1 & b2 & b3 & c0 & c1 & c2 & c3 & d0 & d1 & d2 & d3 & ->).
  unfold get_image_point, project_by_spec, homogeneous_image_point, perspective_divide,
    apply_intrinsics, remap_axes, camera_space, entry.
  cbn [np_dot mapM length Nat.eqb bind idx nth_error dot map set_idx firstn nth].
  f_equal.
  f_equal; [apply np_div_congr; ring | f_equal; apply np_div_congr; ring].
Qed.

(** C1. For every point [p], 3 x 3 intrinsics [K] and 4 x 4 world-to-camera
    matrix [w2c], the projector returns the pair obtained by appending 1 to
    [p], multiplying by [w2c] to get [(cx, cy, cz)], remapping the axes to
    [(cy, -cz, cx)], multiplying by [K] to get [(u, v, s)] and dividing [u]
    and [v] by [s]: the pair [(u / s, v / s)] when [s] is not 0, and what
    the float division by zero leaves (non-finite values) when it is. *)
Theorem get_image_point_correct (p : Vector3D) (K w2c : matrix) :
  shape 3 3 K -> shape 4 4 w2c ->
  let '(cx, cy, cz) := camera_space w2c p in
  let '(u, v, s) := apply_intrinsics K (cy, - cz, cx) in
  get_image_point p K w2c = Ret [np_div (Fin u) (Fin s); np_div (Fin v) (Fin s)] /\
  (s <> 0 -> get_image_point p K w2c = Ret [Fin (u / s); Fin (v / s)]) /\
  (s = 0 -> get_image_point p K w2c = Ret [NonFin; NonFin]).
Proof.
  intros HK Hw.
  pose proof (get_image_point_eq p HK Hw) as Heq.
  unfold project_by_spec, homogeneous_image_point, remap_axes in Heq.
  destruct (camera_space w2c p) as [[cx cy] cz].
  destruct (apply_intrinsics K (cy, - cz, cx)) as [[u v] s].
  unfold perspective_divide in Heq. split; [exact Heq|]. split.
  - intros Hs. rewrite Heq, !np_div_finite by exact Hs. reflexivity.
  - intros ->. rewrite Heq, !np_div_by_zero. reflexivity.
Qed.

End ImagePoint.

(** ** The edge loop of the 3D projector *)

Section EdgeLoop.

Variables (verts : list Vector3D) (K K_b w2c : matrix) (image_h image_w : Z).
Variables (cam_loc cam_forward_vec : Vector3D).
Hypothesis K_shape : shape 3 3 K.
Hypothesis K_b_shape : shape 3 3 K_b.
Hypothesis w2c_shape : shape 4 4 w2c.

Lemma point_in_canvas_projected (v : Vector3D) (M : matrix) :
  point_in_canvas (project_by_spec v M w2c) image_h image_w =
    Ret (in_canvas (project_by_spec v M w2c) image_h image_w).
Proof.
  unfold project_by_spec, perspective_divide.
  destruct (homogeneous_image_point v M w2c) as [[u0 v0] s0].
  generalize (np_div (Fin u0) (Fin s0)) (np_div (Fin v0) (Fin s0)).
  intros a b. unfold point_in_canvas, in_canvas. cbn [idx nth_error bind].
  destruct (in_range a image_w); reflexivity.
Qed.

Lemma not_in_front_is_behind (v : Vector3D) :
  negb (Rlt_b 0 (vec_dot cam_forward_vec (vec_sub v cam_loc))) =
  behind_camera cam_forward_vec cam_loc v.
Proof.
  unfold behind_camera, Rlt_b, Rle_b.
  destruct (Rlt_dec 0 _); destruct (Rle_dec _ 0); simpl; try reflexivity; lra.
Qed.

Lemma reprojection_is_corrected (v : Vector3D) :
  (if negb (Rlt_b 0 (vec_dot cam_forward_vec (vec_sub v cam_loc)))
   then get_image_point v K_b w2c
   else Ret (project_by_spec v K w2c)) =
  Ret (corrected_projection K K_b w2c cam_loc cam_forward_vec v).
Proof.
  rewrite not_in_front_is_behind. unfold corrected_projection.
  destruct (behind_camera cam_forward_vec cam_loc v); [|reflexivity].
  apply get_image_point_eq; assumption.
Qed.

(** The loop appends, in order, the integer segment of every edge that
    [edge_segment] keeps. *)
Lemma edges_loop_eq (edges : list (list nat)) (acc : list segment) :
  Forall (edge_over (length verts)) edges ->
  edges_loop verts K K_b w2c image_h image_w cam_loc cam_forward_vec edges acc =
    (segs <- mapM emit_segment
               (flat_map (edge_segment verts K K_b w2c image_h image_w
                                       cam_loc cam_forward_vec) edges) ;;
     Ret (acc ++ segs)).
Proof.
  intros Hedges. revert acc.
  induction Hedges as [|edge rest (i & j & -> & Hi & Hj) _ IH]; intros acc.
  - simpl. now rewrite app_nil_r.
  - destruct (nth_error verts i) as [vi|] eqn:Evi;
      [|apply nth_error_None in Evi; lia].
    destruct (nth_error verts j) as [vj|] eqn:Evj;
      [|apply nth_error_None in Evj; lia].
    cbn [edges_loop flat_map edge_segment idx nth_error bind].
    unfold idx at 1 2. rewrite Evi, Evj. cbn [bind].
    rewrite !(get_image_point_eq _ K_shape w2c_shape). cbn [bind].
    rewrite !point_in_canvas_projected. cbn [bind].
    destruct (negb (in_canvas (project_by_spec vi K w2c) image_h image_w)
              && negb (in_canvas (project_by_spec vj K w2c) image_h image_w)).
    + rewrite IH. reflexivity.
    + rewrite !reprojection_is_corrected. cbn [bind app mapM].
      unfold emit_segment at 1. cbn [fst snd].
      destruct (int_segment _ _) as [seg|e]; cbn [bind]; [|reflexivity].
      rewrite IH.
      destruct (mapM emit_segment _) as [segs|e]; cbn [bind]; [|reflexivity].
      now rewrite <- app_assoc.
Qed.

End EdgeLoop.

(** ** The 3D bounding box projector *)

Lemma EDGES_over_8 : Forall (edge_over 8) EDGES.
Proof.
  unfold EDGES, edge_over.
  repeat (constructor; [do 2 eexists; split; [reflexivity | lia]|]).
  constructor.
Qed.

Lemma project_by_spec_intrinsics (w h : Z) (fov : R) (mirrored : bool)
    (w2c : matrix) (v : Vector3D) :
  let '(cx, cy, cz) := camera_space w2c v in
  let f := if mirrored then - focal_length w fov else focal_length w fov in
  project_by_spec v (intrinsics w h fov mirrored) w2c =
    [np_div (Fin (f * cy + IZR w / 2 * cx)) (Fin cx);
     np_div (Fin (f * - cz + IZR h / 2 * cx)) (Fin cx)].
Proof.
  unfold project_by_spec, homogeneous_image_point, remap_axes.
  destruct (camera_space w2c v) as [[cx cy] cz].
  unfold apply_intrinsics, perspective_divide, intrinsics, entry.
  cbn [nth].
  f_equal; [|f_equal]; apply np_div_congr; ring.
Qed.

Lemma project_finite (w h : Z) (fov : R) (mirrored : bool) (w2c : matrix) (v : Vector3D) :
  depth w2c v <> 0 ->
  exists a b, project_by_spec v (intrinsics w h fov mirrored) w2c = [Fin a; Fin b].
Proof.
  intros Hd. pose proof (project_by_spec_intrinsics w h fov mirrored w2c v) as H.
  unfold depth in Hd. destruct (camera_space w2c v) as [[cx cy] cz].
  cbv zeta in H. rewrite H, !np_div_finite by exact Hd. eauto.
Qed.

Lemma mapM_emit_total (l : list (list npfloat * list npfloat)) :
  Forall (fun s => exists seg, emit_segment s = Ret seg) l ->
  exists segs, mapM emit_segment l = Ret segs /\ length segs = length l.
Proof.
  induction 1 as [|s l [seg Hs] _ (segs & IH & Hlen)]; simpl.
  - now exists [].
  - rewrite Hs, IH. simpl. exists (seg :: segs). simpl. now rewrite Hlen.
Qed.

Section Projector3D.
Context {carla : Carla}.
Variables (actor ego : Actor) (camera_bp : CameraBlueprint) (camera : Actor).

Let verts := get_world_vertices (bounding_box actor) (get_transform actor).
Let w2c := get_inverse_matrix (get_transform camera).
Let image_w := image_size_x camera_bp.
Let image_h := image_size_y camera_bp.
Let K := intrinsics image_w image_h (fov camera_bp) false.
Let K_b := intrinsics image_w image_h (fov camera_bp) true.
Let cam_loc := location (get_transform camera).
Let cam_forward_vec := get_forward_vector (get_transform camera).

(** The projector as a whole: the surviving edges made integer, then the
    label, then the record. *)
Lemma bbox_3d_for_actor_eq :
  bbox_3d_for_actor actor ego camera_bp camera =
    (projection <- mapM emit_segment (surviving_edges actor camera_bp camera) ;;
     tag <- idx (semantic_tags actor) 0 ;;
     Ret {| d3_actor_id := id actor;
            d3_semantic_label := tag;
            bbox_3d := box_by_spec actor ego;
            projection := projection |}).
Proof.
  unfold bbox_3d_for_actor. rewrite !build_projection_matrix_eq. cbn [bind].
  rewrite edges_loop_eq.
  - fold verts w2c image_w image_h K K_b cam_loc cam_forward_vec.
    unfold surviving_edges.
    fold verts w2c image_w image_h K K_b cam_loc cam_forward_vec.
    destruct (mapM emit_segment _) as [segs|e]; reflexivity.
  - apply intrinsics_shape.
  - apply intrinsics_shape.
  - apply inverse_matrix_shape.
  - rewrite world_vertices_length. exact EDGES_over_8.
Qed.

Lemma off_canvas_spec (v : Vector3D) :
  off_canvas camera_bp camera v <->
  in_canvas (project_by_spec v K w2c) image_h image_w = false.
Proof.
  unfold off_canvas. fold w2c image_w image_h. split.
  - intros (K' & p & HK & Hp & Hc).
    rewrite build_projection_matrix_eq in HK. inversion HK; subst K'.
    fold K in Hp.
    rewrite (@get_image_point_eq v K w2c (intrinsics_shape _ _ _ _)
               (inverse_matrix_shape _)) in Hp.
    inversion Hp; subst p.
    rewrite point_in_canvas_projected in Hc. now inversion Hc.
  - intros Hc. exists K, (project_by_spec v K w2c).
    split; [apply build_projection_matrix_eq|].
    split; [apply get_image_point_eq;
            [apply intrinsics_shape | apply inverse_matrix_shape]|].
    rewrite point_in_canvas_projected, Hc. reflexivity.
Qed.

Lemma surviving_edges_finite :
  (forall v, In v verts -> depth w2c v <> 0) ->
  Forall (fun s => exists seg, emit_segment s = Ret seg)
         (surviving_edges actor camera_bp camera).
Proof.
  intros Hdepth. unfold surviving_edges.
  fold verts w2c image_w image_h K K_b cam_loc cam_forward_vec.
  induction EDGES as [|edge rest IH]; [constructor|].
  cbn [flat_map]. apply Forall_app. split; [|exact IH].
  unfold edge_segment.
  destruct edge as [|i [|j [|k edge]]]; try constructor.
  destruct (nth_error verts i) as [vi|] eqn:Evi; [|constructor].
  destruct (nth_error verts j) as [vj|] eqn:Evj; [|constructor].
  destruct (_ && _); constructor; [|constructor].
  assert (Hfin : forall v, In v verts ->
            exists a b, corrected_projection K K_b w2c cam_loc cam_forward_vec v
                        = [Fin a; Fin b]).
  { intros v Hv. unfold corrected_projection.
    destruct (behind_camera cam_forward_vec cam_loc v);
      apply project_finite; auto. }
  destruct (Hfin vi (nth_error_In _ _ Evi)) as (a & b & ->).
  destruct (Hfin vj (nth_error_In _ _ Evj)) as (c & d & ->).
  eexists. reflexivity.
Qed.

Lemma surviving_edges_all_visible :
  (forall v, In v verts ->
     in_canvas (project_by_spec v K w2c) image_h image_w = true) ->
  length (surviving_edges actor camera_bp camera) = 12%nat.
Proof.
  intros Hvis. unfold surviving_edges.
  fold verts w2c image_w image_h K K_b cam_loc cam_forward_vec.
  change 12%nat with (length EDGES).
  assert (Hedges : Forall (edge_over (length verts)) EDGES).
  { unfold verts. rewrite world_vertices_length. exact EDGES_over_8. }
  induction Hedges as [|edge rest (i & j & -> & Hi & Hj) _ IH]; [reflexivity|].
  cbn [flat_map]. rewrite length_app, IH.
  unfold edge_segment.
  destruct (nth_error verts i) as [vi|] eqn:Evi;
    [|apply nth_error_None in Evi; lia].
  destruct (nth_error verts j) as [vj|] eqn:Evj;
    [|apply nth_error_None in Evj; lia].
  rewrite (Hvis vi (nth_error_In _ _ Evi)). reflexivity.
Qed.

End Projector3D.

Section ProjectorClaims.
Context {carla : Carla}.
Variables (actor ego : Actor) (camera_bp : CameraBlueprint) (camera : Actor).

Let verts := get_world_vertices (bounding_box actor) (get_transform actor).
Let w2c := get_inverse_matrix (get_transform camera).
Let image_w := image_size_x camera_bp.
Let image_h := image_size_y camera_bp.
Let K := intrinsics image_w image_h (fov camera_bp) false.
Let K_b := intrinsics image_w image_h (fov camera_bp) true.
Let cam_loc := location (get_transform camera).
Let cam_forward_vec := get_forward_vector (get_transform camera).

(** C2. The projector runs over exactly the fixed table of 12 edges on the 8
    corner vertices, in its order, and projects both endpoints of an edge
    with the normal intrinsics.  An edge neither of whose projections passes
    the canvas test contributes nothing.  Of an edge that is kept, with
    exactly one endpoint behind the camera (forward vector dot
    camera-to-vertex vector [<= 0]), that endpoint is projected anew with
    the mirrored intrinsics, the other keeps its normal projection, and the
    segment of the two is appended (its four coordinates made integers). *)
Theorem bbox_3d_for_actor_edges :
  (length EDGES = 12%nat /\ Forall (edge_over 8) EDGES /\ length verts = 8%nat) /\
  (build_projection_matrix image_w image_h (fov camera_bp) false = Ret K /\
   build_projection_matrix image_w image_h (fov camera_bp) true = Ret K_b /\
   forall v,
     get_image_point v K w2c = Ret (project_by_spec v K w2c) /\
     get_image_point v K_b w2c = Ret (project_by_spec v K_b w2c) /\
     point_in_canvas (project_by_spec v K w2c) image_h image_w =
       Ret (in_canvas (project_by_spec v K w2c) image_h image_w)) /\
  bbox_3d_for_actor actor ego camera_bp camera =
    (projection <-
       mapM emit_segment
         (flat_map (edge_segment verts K K_b w2c image_h image_w
                                 cam_loc cam_forward_vec) EDGES) ;;
     tag <- idx (semantic_tags actor) 0 ;;
     Ret {| d3_actor_id := id actor;
            d3_semantic_label := tag;
            bbox_3d := box_by_spec actor ego;
            projection := projection |}) /\
  forall (i j : nat) (vi vj : Vector3D),
    In [i; j] EDGES ->
    nth_error verts i = Some vi -> nth_error verts j = Some vj ->
    let kept := edge_segment verts K K_b w2c image_h image_w
                             cam_loc cam_forward_vec [i; j] in
    let normal v := project_by_spec v K w2c in
    let mirrored v := project_by_spec v K_b w2c in
    let visible v := in_canvas (normal v) image_h image_w in
    let behind v := vec_dot cam_forward_vec (vec_sub v cam_loc) <= 0 in
    (visible vi = false -> visible vj = false -> kept = []) /\
    (visible vi = true \/ visible vj = true ->
     behind vi -> ~ behind vj -> kept = [(mirrored vi, normal vj)]) /\
    (visible vi = true \/ visible vj = true ->
     ~ behind vi -> behind vj -> kept = [(normal vi, mirrored vj)]).
Proof.
  assert (HK : shape 3 3 K) by apply intrinsics_shape.
  assert (HKb : shape 3 3 K_b) by apply intrinsics_shape.
  assert (Hw : shape 4 4 w2c) by apply inverse_matrix_shape.
  split; [|split; [|split]].
  - split; [reflexivity|]. split; [exact EDGES_over_8 | apply world_vertices_length].
  - split; [apply build_projection_matrix_eq|].
    split; [apply build_projection_matrix_eq|].
    intros v. split; [apply get_image_point_eq; assumption|].
    split; [apply get_image_point_eq; assumption|].
    apply point_in_canvas_projected.
  - apply bbox_3d_for_actor_eq.
  - intros i j vi vj _ Evi Evj kept normal mirrored visible behind.
    assert (Hbehind : forall v, behind_camera cam_forward_vec cam_loc v = true <-> behind v).
    { intros v. unfold behind_camera, behind, Rle_b.
      destruct (Rle_dec _ 0); split; auto; discriminate. }
    assert (Hkept : kept =
              if negb (visible vi) && negb (visible vj) then []
              else [(corrected_projection K K_b w2c cam_loc cam_forward_vec vi,
                     corrected_projection K K_b w2c cam_loc cam_forward_vec vj)]).
    { unfold kept, edge_segment. rewrite Evi, Evj. reflexivity. }
    unfold corrected_projection in Hkept.
    split; [|split].
    + intros Hi Hj. rewrite Hkept, Hi, Hj. reflexivity.
    + intros Hvis Hbi Hbj.
      apply Hbehind in Hbi.
      assert (Hnj : behind_camera cam_forward_vec cam_loc vj = false).
      { destruct (behind_camera cam_forward_vec cam_loc vj) eqn:E; [|reflexivity].
        elim Hbj. now apply Hbehind. }
      rewrite Hkept, Hbi, Hnj.
      destruct Hvis as [-> | ->]; [|rewrite andb_false_r]; reflexivity.
    + intros Hvis Hbi Hbj.
      apply Hbehind in Hbj.
      assert (Hni : behind_camera cam_forward_vec cam_loc vi = false).
      { destruct (behind_camera cam_forward_vec cam_loc vi) eqn:E; [|reflexivity].
        elim Hbi. now apply Hbehind. }
      rewrite Hkept, Hbj, Hni.
      destruct Hvis as [-> | ->]; [|rewrite andb_false_r]; reflexivity.
Qed.

(** C5, amended.  When the normal projection of none of the 8 corner
    vertices lies in the canvas, the projector of an actor that has a
    semantic tag returns an empty list of segments together with the centre,
    the dimensions and the relative yaw. *)
Theorem bbox_3d_for_actor_off_canvas (tag : Z) (tags : list Z) :
  semantic_tags actor = tag :: tags ->
  (forall v, In v verts -> off_canvas camera_bp camera v) ->
  bbox_3d_for_actor actor ego camera_bp camera =
    Ret {| d3_actor_id := id actor;
           d3_semantic_label := tag;
           bbox_3d := box_by_spec actor ego;
           projection := [] |}.
Proof.
  intros Htags Hoff. rewrite bbox_3d_for_actor_eq.
  assert (Hnone : surviving_edges actor camera_bp camera = []).
  { unfold surviving_edges.
    fold verts w2c image_w image_h K K_b cam_loc cam_forward_vec.
    induction EDGES as [|edge rest IH]; [reflexivity|].
    cbn [flat_map]. rewrite IH, app_nil_r.
    unfold edge_segment.
    destruct edge as [|i [|j [|k edge]]]; try reflexivity.
    destruct (nth_error verts i) as [vi|] eqn:Evi; [|reflexivity].
    destruct (nth_error verts j) as [vj|] eqn:Evj; [|reflexivity].
    pose proof (Hoff vi (nth_error_In _ _ Evi)) as Hi.
    pose proof (Hoff vj (nth_error_In _ _ Evj)) as Hj.
    apply off_canvas_spec in Hi. apply off_canvas_spec in Hj.
    fold w2c image_w image_h K in Hi, Hj.
    rewrite Hi, Hj. reflexivity. }
  rewrite Hnone, Htags. reflexivity.
Qed.


End ProjectorClaims.

(** ** The scene without rotations, evaluated *)

Section Scene.

Let W0 : matrix := unrotated_inverse_matrix (at_rest 0 0 0).

Lemma vec_eq (x y z x' y' z' : R) :
  x = x' -> y = y' -> z = z' -> mkVec x y z = mkVec x' y' z'.
Proof. now intros -> -> ->. Qed.

Lemma focal_800_90 : focal_length 800 90 = 400.
Proof. unfold focal_length. rewrite tan_quarter_turn. lra. Qed.

Lemma origin_camera_depth (x y z : R) : depth W0 (mkVec x y z) = x.
Proof. unfold depth, camera_space, entry, W0. cbn. ring. Qed.

(** The camera at the origin maps [(x, y, z)] with [x <> 0] to
    [(f y / x + 400, - f z / x + 300)], [f = 400] or [-400]. *)
Lemma origin_camera_projection (x y z : R) (mirrored : bool) :
  x <> 0 ->
  project_by_spec (mkVec x y z) (intrinsics 800 600 90 mirrored) W0 =
    [Fin ((if mirrored then -400 else 400) * y / x + 400);
     Fin ((if mirrored then -400 else 400) * - z / x + 300)].
Proof.
  intros Hx.
  pose proof (project_by_spec_intrinsics 800 600 90 mirrored W0 (mkVec x y z)) as H.
  change (camera_space W0 (mkVec x y z))
    with (1 * x + 0 * y + 0 * z + - 0 * 1,
          0 * x + 1 * y + 0 * z + - 0 * 1,
          0 * x + 0 * y + 1 * z + - 0 * 1) in H.
  cbv beta iota zeta in H.
  rewrite focal_800_90 in H. rewrite H.
  assert (Hs : 1 * x + 0 * y + 0 * z + - 0 * 1 <> 0) by lra.
  rewrite !np_div_finite by exact Hs.
  destruct mirrored; f_equal; [|f_equal| |f_equal]; f_equal; field; lra.
Qed.

Lemma in_canvas_finite (a b : R) (h w : Z) :
  in_canvas [Fin a; Fin b] h w = true <-> (0 <= a < IZR w /\ 0 <= b < IZR h).
Proof.
  unfold in_canvas, in_range, Rle_b, Rlt_b.
  destruct (Rle_dec 0 a), (Rlt_dec a (IZR w)), (Rle_dec 0 b), (Rlt_dec b (IZR h));
    simpl; split; try discriminate; try tauto; intros; lra.
Qed.

Lemma in_canvas_finite_false (a b : R) (h w : Z) :
  a < 0 \/ IZR w <= a \/ b < 0 \/ IZR h <= b -> in_canvas [Fin a; Fin b] h w = false.
Proof.
  intros H. destruct (in_canvas [Fin a; Fin b] h w) eqn:E; [|reflexivity].
  apply in_canvas_finite in E. lra.
Qed.

Lemma car_behind_vertices :
  unrotated_world_vertices (bounding_box car_behind) (get_transform car_behind) =
    [mkVec (-20) (-1) (-1); mkVec (-20) (-1) 1; mkVec (-20) 1 (-1); mkVec (-20) 1 1;
     mkVec (-10) (-1) (-1); mkVec (-10) (-1) 1; mkVec (-10) 1 (-1); mkVec (-10) 1 1].
Proof.
  unfold unrotated_world_vertices. cbn.
  repeat (apply (f_equal2 cons); [apply vec_eq; lra|]). reflexivity.
Qed.

Lemma car_ahead_vertices :
  unrotated_world_vertices (bounding_box car_ahead) (get_transform car_ahead) =
    [mkVec 10 (-1) (-1); mkVec 10 (-1) 1; mkVec 10 1 (-1); mkVec 10 1 1;
     mkVec 20 (-1) (-1); mkVec 20 (-1) 1; mkVec 20 1 (-1); mkVec 20 1 1].
Proof.
  unfold unrotated_world_vertices. cbn.
  repeat (apply (f_equal2 cons); [apply vec_eq; lra|]). reflexivity.
Qed.

End Scene.

Section SceneEvaluation.

#[local] Existing Instance unrotated.

Lemma truncR_eq (x : R) (n : Z) :
  0 <= x -> IZR n <= x < IZR n + 1 -> truncR x = n.
Proof.
  intros H0 Hn. unfold truncR.
  destruct (Rle_dec 0 x); [|contradiction].
  symmetry. apply Int_part_spec. lra.
Qed.

Lemma behind_camera_true (f c v : Vector3D) :
  vec_dot f (vec_sub v c) <= 0 -> behind_camera f c v = true.
Proof.
  intros H. unfold behind_camera, Rle_b.
  destruct (Rle_dec _ 0); [reflexivity | contradiction].
Qed.

Lemma behind_camera_false (f c v : Vector3D) :
  0 < vec_dot f (vec_sub v c) -> behind_camera f c v = false.
Proof.
  intros H. unfold behind_camera, Rle_b.
  destruct (Rle_dec _ 0); [lra | reflexivity].
Qed.

Lemma emit_segment_finite (a b c d : R) :
  emit_segment ([Fin a; Fin b], [Fin c; Fin d]) =
    Ret (truncR a, truncR b, truncR c, truncR d).
Proof. reflexivity. Qed.

(** Evaluation of the surviving edges of a scene seen by the camera at the
    origin, once the vertices are a list of numerals. *)
Ltac eval_origin_scene :=
  cbn [flat_map EDGES edge_segment nth_error app];
  repeat rewrite origin_camera_projection by lra;
  repeat match goal with
    | |- context [in_canvas [Fin ?a; Fin ?b] ?h ?w] =>
        first [ rewrite (proj2 (in_canvas_finite a b h w)) by (cbn; lra)
              | rewrite (@in_canvas_finite_false a b h w) by (cbn; lra) ]
    end;
  cbn [negb andb app];
  unfold corrected_projection;
  repeat match goal with
    | |- context [behind_camera ?f ?c ?v] =>
        first [ rewrite (@behind_camera_true f c v)
                  by (unfold vec_dot, vec_sub; cbn; lra)
              | rewrite (@behind_camera_false f c v)
                  by (unfold vec_dot, vec_sub; cbn; lra) ]
    end;
  repeat rewrite origin_camera_projection by lra;
  cbn [mapM]; repeat rewrite emit_segment_finite; cbn [bind].

Lemma seg_eq (a b c d a' b' c' d' : Z) :
  a = a' -> b = b' -> c = c' -> d = d' -> (a, b, c, d) = (a', b', c', d').
Proof. now intros -> -> -> ->. Qed.

Ltac solve_truncations :=
  f_equal;
  repeat (apply (f_equal2 cons); [apply seg_eq; apply truncR_eq; lra|]);
  reflexivity.

Ltac origin_camera_800_600 :=
  change (get_inverse_matrix (get_transform camera_at_origin))
    with (unrotated_inverse_matrix (at_rest 0 0 0));
  change (get_forward_vector (get_transform camera_at_origin)) with (mkVec 1 0 0);
  change (location (get_transform camera_at_origin)) with (mkVec 0 0 0);
  change (image_size_x camera_800_600) with 800%Z;
  change (image_size_y camera_800_600) with 600%Z;
  change (fov camera_800_600) with 90.

Lemma surviving_edges_car_ahead :
  mapM emit_segment (surviving_edges car_ahead camera_800_600 camera_at_origin) =
    Ret [(360, 340, 360, 260); (360, 260, 440, 260); (440, 260, 440, 340);
         (440, 340, 360, 340); (360, 340, 380, 320); (380, 320, 380, 280);
         (380, 280, 360, 260); (380, 280, 420, 280); (420, 280, 420, 320);
         (420, 320, 380, 320); (420, 320, 440, 340); (420, 280, 440, 260)]%Z.
Proof.
  unfold surviving_edges.
  change (get_world_vertices (bounding_box car_ahead) (get_transform car_ahead))
    with (unrotated_world_vertices (bounding_box car_ahead) (get_transform car_ahead)).
  rewrite car_ahead_vertices.
  origin_camera_800_600. eval_origin_scene. solve_truncations.
Qed.

Lemma surviving_edges_car_behind :
  mapM emit_segment (surviving_edges car_behind camera_800_600 camera_at_origin) =
    Ret [(380, 320, 380, 280); (380, 280, 420, 280); (420, 280, 420, 320);
         (420, 320, 380, 320); (380, 320, 360, 340); (360, 340, 360, 260);
         (360, 260, 380, 280); (360, 260, 440, 260); (440, 260, 440, 340);
         (440, 340, 360, 340); (440, 340, 420, 320); (440, 260, 420, 280)]%Z.
Proof.
  unfold surviving_edges.
  change (get_world_vertices (bounding_box car_behind) (get_transform car_behind))
    with (unrotated_world_vertices (bounding_box car_behind) (get_transform car_behind)).
  rewrite car_behind_vertices.
  origin_camera_800_600. eval_origin_scene. solve_truncations.
Qed.

Lemma car_with_offset_vertices :
  unrotated_world_vertices (bounding_box car_with_offset)
                           (get_transform car_with_offset) =
    [mkVec 10 (-1) 0; mkVec 10 (-1) 2; mkVec 10 1 0; mkVec 10 1 2;
     mkVec 20 (-1) 0; mkVec 20 (-1) 2; mkVec 20 1 0; mkVec 20 1 2].
Proof.
  unfold unrotated_world_vertices. cbn.
  repeat (apply (f_equal2 cons); [apply vec_eq; lra|]). reflexivity.
Qed.


Lemma surviving_edges_car_with_offset :
  mapM emit_segment (surviving_edges car_with_offset camera_800_600 camera_at_origin) =
    Ret [(360, 300, 360, 220); (360, 220, 440, 220); (440, 220, 440, 300);
         (440, 300, 360, 300); (360, 300, 380, 300); (380, 300, 380, 260);
         (380, 260, 360, 220); (380, 260, 420, 260); (420, 260, 420, 300);
         (420, 300, 380, 300); (420, 300, 440, 300); (420, 260, 440, 220)]%Z.
Proof.
  unfold surviving_edges.
  change (get_world_vertices (bounding_box car_with_offset)
                             (get_transform car_with_offset))
    with (unrotated_world_vertices (bounding_box car_with_offset)
                                   (get_transform car_with_offset)).
  rewrite car_with_offset_vertices.
  origin_camera_800_600. eval_origin_scene. solve_truncations.
Qed.


Lemma box_by_spec_car_with_offset :
  box_by_spec car_with_offset ego_with_offset =
    {| center := mkVec (27 / 2) (-2) (1 / 4);
       dimensions := (10, 2, 2); rotation_yaw := 0 |}.
Proof.
  unfold box_by_spec, ego_relative_center. cbn.
  unfold unrotated_inverse_transform, vec_sub, vec_add. cbn.
  f_equal; [apply vec_eq; lra | | lra].
  f_equal; [f_equal|]; lra.
Qed.


(** Both volumes centred off their actors: the centre is the difference of
    the two anchors, [(14 + 1, 0 + 0, 0 + 1) - (1 + 1/2, 2 + 0, 0 + 3/4)]. *)
Example bbox_3d_car_with_offset :
  bbox_3d_for_actor car_with_offset ego_with_offset camera_800_600 camera_at_origin =
    Ret {| d3_actor_id := 47;
           d3_semantic_label := 14;
           bbox_3d := {| center := mkVec (27 / 2) (-2) (1 / 4);
                         dimensions := (10, 2, 2);
                         rotation_yaw := 0 |};
           projection :=
             [(360, 300, 360, 220); (360, 220, 440, 220); (440, 220, 440, 300);
              (440, 300, 360, 300); (360, 300, 380, 300); (380, 300, 380, 260);
              (380, 260, 360, 220); (380, 260, 420, 260); (420, 260, 420, 300);
              (420, 300, 380, 300); (420, 300, 440, 300); (420, 260, 440, 220)]%Z |}.
Proof.
  rewrite bbox_3d_for_actor_eq, surviving_edges_car_with_offset.
  rewrite box_by_spec_car_with_offset. reflexivity.
Qed.

Lemma box_by_spec_at_rest (x : R) (i : Z) (tags : list Z) :
  box_by_spec
    {| id := i; semantic_tags := tags; get_transform := at_rest x 0 0;
       bounding_box := mkBox (mkVec 0 0 0) (mkVec 5 1 1) |} ego_at_origin =
    {| center := mkVec x 0 0; dimensions := (10, 2, 2); rotation_yaw := 0 |}.
Proof.
  unfold box_by_spec, ego_relative_center. cbn.
  unfold unrotated_inverse_transform, vec_sub, vec_add. cbn.
  f_equal; [apply vec_eq; lra | | lra].
  f_equal; [f_equal|]; lra.
Qed.

(** A car ahead of the camera: all 12 edges are drawn. *)
Example bbox_3d_car_ahead :
  bbox_3d_for_actor car_ahead ego_at_origin camera_800_600 camera_at_origin =
    Ret {| d3_actor_id := 43;
           d3_semantic_label := 14;
           bbox_3d := {| center := mkVec 15 0 0;
                         dimensions := (10, 2, 2);
                         rotation_yaw := 0 |};
           projection :=
             [(360, 340, 360, 260); (360, 260, 440, 260); (440, 260, 440, 340);
              (440, 340, 360, 340); (360, 340, 380, 320); (380, 320, 380, 280);
              (380, 280, 360, 260); (380, 280, 420, 280); (420, 280, 420, 320);
              (420, 320, 380, 320); (420, 320, 440, 340); (420, 280, 440, 260)]%Z |}.
Proof.
  rewrite bbox_3d_for_actor_eq, surviving_edges_car_ahead.
  unfold car_ahead at 3. rewrite box_by_spec_at_rest. reflexivity.
Qed.

End SceneEvaluation.

(** ** The claims on the scene *)

Section SceneClaims.

#[local] Existing Instance unrotated.

Let W0 : matrix := unrotated_inverse_matrix (at_rest 0 0 0).
Let K0 : matrix := intrinsics 800 600 90 false.

(** The design document's scenario: the camera at the origin facing +x,
    fov 90, 800 x 600; the point (10, 0, 0) projects to the image centre. *)
Example get_image_point_centre :
  get_image_point (mkVec 10 0 0) K0 W0 = Ret [Fin 400; Fin 300].
Proof.
  unfold K0, W0.
  rewrite (get_image_point_eq _ (intrinsics_shape _ _ _ _)
             (unrotated_inverse_matrix_shape _)).
  rewrite origin_camera_projection by lra.
  do 2 f_equal; [|f_equal]; f_equal; lra.
Qed.

Lemma get_image_point_correct_witness :
  let '(cx, cy, cz) := camera_space W0 (mkVec 10 0 0) in
  let '(u, v, s) := apply_intrinsics K0 (cy, - cz, cx) in
  get_image_point (mkVec 10 0 0) K0 W0 =
    Ret [np_div (Fin u) (Fin s); np_div (Fin v) (Fin s)] /\
  (s <> 0 -> get_image_point (mkVec 10 0 0) K0 W0 = Ret [Fin (u / s); Fin (v / s)]) /\
  (s = 0 -> get_image_point (mkVec 10 0 0) K0 W0 = Ret [NonFin; NonFin]).
Proof.
  apply (@get_image_point_correct (mkVec 10 0 0) K0 W0).
  - apply intrinsics_shape.
  - apply unrotated_inverse_matrix_shape.
Defined.

Lemma car_behind_fails_forward_test (v : Vector3D) :
  In v (get_world_vertices (bounding_box car_behind) (get_transform car_behind)) ->
  fails_forward_test camera_at_origin v.
Proof.
  change (get_world_vertices (bounding_box car_behind) (get_transform car_behind))
    with (unrotated_world_vertices (bounding_box car_behind) (get_transform car_behind)).
  rewrite car_behind_vertices. intros Hv.
  repeat (destruct Hv as [<-|Hv];
          [unfold fails_forward_test, vec_dot, vec_sub; cbn; lra|]).
  destruct Hv.
Qed.

(** C5, as stated, fails: every corner vertex of [car_behind] fails the
    forward-dot-product test, and the projector returns 12 segments. *)
Lemma bbox_3d_behind_camera_keeps_edges :
  (forall v,
     In v (get_world_vertices (bounding_box car_behind) (get_transform car_behind)) ->
     fails_forward_test camera_at_origin v) /\
  bbox_3d_for_actor (carla := unrotated)
      car_behind ego_at_origin camera_800_600 camera_at_origin =
    Ret {| d3_actor_id := 42;
           d3_semantic_label := 14;
           bbox_3d := {| center := mkVec (-15) 0 0;
                         dimensions := (10, 2, 2);
                         rotation_yaw := 0 |};
           projection :=
             [(380, 320, 380, 280); (380, 280, 420, 280); (420, 280, 420, 320);
              (420, 320, 380, 320); (380, 320, 360, 340); (360, 340, 360, 260);
              (360, 260, 380, 280); (360, 260, 440, 260); (440, 260, 440, 340);
              (440, 340, 360, 340); (440, 340, 420, 320); (440, 260, 420, 280)]%Z |}.
Proof.
  split; [exact car_behind_fails_forward_test|].
  rewrite bbox_3d_for_actor_eq, surviving_edges_car_behind.
  unfold car_behind at 3. rewrite box_by_spec_at_rest. reflexivity.
Qed.

Lemma car_behind_aside_vertices :
  unrotated_world_vertices (bounding_box car_behind_aside)
                           (get_transform car_behind_aside) =
    [mkVec (-20) 39 (-1); mkVec (-20) 39 1; mkVec (-20) 41 (-1); mkVec (-20) 41 1;
     mkVec (-10) 39 (-1); mkVec (-10) 39 1; mkVec (-10) 41 (-1); mkVec (-10) 41 1].
Proof.
  unfold unrotated_world_vertices. cbn.
  repeat (apply (f_equal2 cons); [apply vec_eq; lra|]). reflexivity.
Qed.

Lemma car_behind_aside_off_canvas (v : Vector3D) :
  In v (get_world_vertices (bounding_box car_behind_aside)
                           (get_transform car_behind_aside)) ->
  off_canvas camera_800_600 camera_at_origin v.
Proof.
  change (get_world_vertices (bounding_box car_behind_aside)
                             (get_transform car_behind_aside))
    with (unrotated_world_vertices (bounding_box car_behind_aside)
                                   (get_transform car_behind_aside)).
  rewrite car_behind_aside_vertices. intros Hv.
  apply off_canvas_spec.
  change (get_inverse_matrix (get_transform camera_at_origin))
    with (unrotated_inverse_matrix (at_rest 0 0 0)).
  change (image_size_x camera_800_600) with 800%Z.
  change (image_size_y camera_800_600) with 600%Z.
  change (fov camera_800_600) with 90.
  repeat (destruct Hv as [<-|Hv];
          [rewrite origin_camera_projection by lra;
           apply in_canvas_finite_false; left; lra|]).
  destruct Hv.
Qed.

Lemma bbox_3d_for_actor_off_canvas_witness :
  bbox_3d_for_actor (carla := unrotated)
      car_behind_aside ego_at_origin camera_800_600 camera_at_origin =
    Ret {| d3_actor_id := id car_behind_aside;
           d3_semantic_label := 14;
           bbox_3d := box_by_spec car_behind_aside ego_at_origin;
           projection := [] |}.
Proof.
  apply (@bbox_3d_for_actor_off_canvas unrotated car_behind_aside ego_at_origin
           camera_800_600 camera_at_origin 14%Z []).
  - reflexivity.
  - exact car_behind_aside_off_canvas.
Defined.




End SceneClaims.

(** * Further properties of the code *)

(** ** Failing computations *)

Lemma mapM_map {A B C : Type} (f : B -> py C) (g : A -> B) (l : list A) :
  mapM f (map g l) = mapM (fun a => f (g a)) l.
Proof.
  induction l as [|a l IH]; simpl; [reflexivity | now rewrite IH].
Qed.

Lemma mapM_ext {A B : Type} (f g : A -> py B) (l : list A) :
  (forall a, In a l -> f a = g a) -> mapM f l = mapM g l.
Proof.
  induction l as [|a l IH]; intros H; simpl; [reflexivity|].
  rewrite (H a (or_introl eq_refl)), IH; [reflexivity|].
  intros b Hb. apply H. now right.
Qed.

(** When every failing element fails with [e], the traversal returns or
    fails with [e], and it fails as soon as one element does. *)
Lemma mapM_outcome {A B : Type} (f : A -> py B) (e : exn) (l : list A) :
  (forall a, In a l -> (exists b, f a = Ret b) \/ f a = Raise e) ->
  ((exists bs, mapM f l = Ret bs) /\ forall a, In a l -> exists b, f a = Ret b) \/
  (mapM f l = Raise e /\ exists a, In a l /\ f a = Raise e).
Proof.
  induction l as [|a l IH]; intros H; simpl.
  - left. split; [now exists []|]. intros a [].
  - destruct (H a (or_introl eq_refl)) as [[b Hb]|Hb]; rewrite Hb; simpl.
    + destruct IH as [[[bs Hbs] Hall]|[Hr (a' & Ha' & Hf)]].
      * intros a' Ha'. apply H. now right.
      * left. rewrite Hbs. simpl. split; [eauto|].
        intros a' [<-|Ha']; eauto.
      * right. rewrite Hr. split; [reflexivity|]. exists a'. auto.
    + right. split; [reflexivity|]. exists a. auto.
Qed.

Lemma mapM_raise {A B : Type} (f : A -> py B) (e : exn) (l : list A) :
  (forall a, In a l -> (exists b, f a = Ret b) \/ f a = Raise e) ->
  (exists a, In a l /\ f a = Raise e) ->
  mapM f l = Raise e.
Proof.
  intros H (a & Ha & Hf).
  destruct (@mapM_outcome _ _ f e l H) as [[_ Hall]|[Hr _]]; [|exact Hr].
  destruct (Hall a Ha) as [b Hb]. congruence.
Qed.

(** ** The canvas test *)

(** X1. The canvas test of a pair is true exactly for finite coordinates
    with [0 <= u < img_w] and [0 <= v < img_h] (the bounds [img_w] and
    [img_h] themselves are outside); a pair always gets an answer, an empty
    position raises IndexError, and a position of one coordinate raises it
    only when that coordinate passes its test. *)
Theorem point_in_canvas_half_open (u v : npfloat) (rest : list npfloat)
    (img_h img_w : Z) :
  (exists b, point_in_canvas (u :: v :: rest) img_h img_w = Ret b) /\
  (point_in_canvas (u :: v :: rest) img_h img_w = Ret true <->
   exists x y, u = Fin x /\ v = Fin y /\
               0 <= x < IZR img_w /\ 0 <= y < IZR img_h) /\
  point_in_canvas [] img_h img_w = Raise IndexError /\
  point_in_canvas [u] img_h img_w =
    (if in_range u img_w then Raise IndexError else Ret false).
Proof.
  assert (Hrange : forall (c : npfloat) (n : Z),
            in_range c n = true <-> exists x, c = Fin x /\ 0 <= x < IZR n).
  { intros c n. destruct c as [x|]; simpl.
    - unfold Rle_b, Rlt_b.
      destruct (Rle_dec 0 x), (Rlt_dec x (IZR n)); simpl; split;
        try discriminate; try (intros _; exists x; split; [reflexivity | lra]);
        intros (x' & Hx & Hb); inversion Hx; subst; lra.
    - split; [discriminate|]. intros (x & Hx & _). discriminate. }
  unfold point_in_canvas. cbn [idx nth_error bind].
  split; [|split; [|split]].
  - destruct (in_range u img_w); eauto.
  - split.
    + destruct (in_range u img_w) eqn:Hu; [|discriminate].
      intros Hv. inversion Hv as [Hv'].
      apply Hrange in Hu. apply Hrange in Hv'.
      destruct Hu as (x & -> & Hx). destruct Hv' as (y & -> & Hy).
      exists x, y. auto.
    + intros (x & y & -> & -> & Hx & Hy).
      rewrite (proj2 (Hrange (Fin x) img_w)) by eauto.
      rewrite (proj2 (Hrange (Fin y) img_h)) by eauto. reflexivity.
  - reflexivity.
  - destruct (in_range u img_w); reflexivity.
Qed.

(** ** More on the 2D extractor *)

Section ExtractorMore.
Local Open Scope Z_scope.

(** X2. The extractor raises only IndexError, and exactly when some pixel
    carries the actor's id while the actor has no semantic tag; an actor
    without tags that is not in the frame still gets [None]. *)
Theorem bbox_2d_for_actor_raises (actor : Actor) (actor_ids semantic_labels : grid) :
  (bbox_2d_for_actor actor actor_ids semantic_labels = Raise IndexError <->
   (exists y x : nat, matches actor_ids (id actor) y x) /\ semantic_tags actor = []) /\
  (forall e, bbox_2d_for_actor actor actor_ids semantic_labels = Raise e ->
             e = IndexError) /\
  ((forall y x : nat, ~ matches actor_ids (id actor) y x) ->
   bbox_2d_for_actor actor actor_ids semantic_labels = Ret None).
Proof.
  destruct (bbox_2d_for_actor_cases actor actor_ids semantic_labels)
    as [[Hno Heq]|[Hex [[Hnil Heq]|(tag & tags & box & Htags & _ & Heq)]]];
    rewrite Heq.
  - split; [|split]; [|discriminate|reflexivity].
    split; [discriminate|]. intros [(y & x & Hm) _]. elim (Hno _ _ Hm).
  - split; [|split].
    + split; auto.
    + intros e He. now inversion He.
    + intros Hno. destruct Hex as (y & x & Hm). elim (Hno _ _ Hm).
  - split; [|split]; [|discriminate|].
    + split; [discriminate|]. intros [_ Hnil]. congruence.
    + intros Hno. destruct Hex as (y & x & Hm). elim (Hno _ _ Hm).
Qed.

Lemma tight_box_unique (actor_ids : grid) (i : Z) (b1 b2 : Z * Z * Z * Z) :
  tight_box actor_ids i b1 -> tight_box actor_ids i b2 -> b1 = b2.
Proof.
  destruct b1 as [[[x1 y1] X1] Y1], b2 as [[[x2 y2] X2] Y2].
  intros (Hin1 & (ya & xa & Ha & Ea) & (yb & xb & Hb & Eb)
               & (yc & xc & Hc & Ec) & (yd & xd & Hd & Ed))
         (Hin2 & (ya' & xa' & Ha' & Ea') & (yb' & xb' & Hb' & Eb')
               & (yc' & xc' & Hc' & Ec') & (yd' & xd' & Hd' & Ed')).
  pose proof (Hin1 _ _ Ha'). pose proof (Hin1 _ _ Hb').
  pose proof (Hin1 _ _ Hc'). pose proof (Hin1 _ _ Hd').
  pose proof (Hin2 _ _ Ha). pose proof (Hin2 _ _ Hb).
  pose proof (Hin2 _ _ Hc). pose proof (Hin2 _ _ Hd).
  repeat f_equal; lia.
Qed.

Lemma tight_box_same_pixels (g1 g2 : grid) (i : Z) (b : Z * Z * Z * Z) :
  (forall y x : nat, matches g1 i y x <-> matches g2 i y x) ->
  tight_box g1 i b -> tight_box g2 i b.
Proof.
  intros Hsame. destruct b as [[[xmin ymin] xmax] ymax].
  intros (Hin & (ya & xa & Ha & Ea) & (yb & xb & Hb & Eb)
              & (yc & xc & Hc & Ec) & (yd & xd & Hd & Ed)).
  split; [|repeat split].
  - intros y x Hm. apply Hin. now apply Hsame.
  - exists ya, xa. split; [now apply Hsame | exact Ea].
  - exists yb, xb. split; [now apply Hsame | exact Eb].
  - exists yc, xc. split; [now apply Hsame | exact Ec].
  - exists yd, xd. split; [now apply Hsame | exact Ed].
Qed.

(** X3. The outcome of the extractor depends only on which pixels carry the
    actor's id: two id grids (of any shapes, with any other ids in them)
    that agree on those pixels give the same result, whatever the two grids
    of semantic labels are. *)
Theorem bbox_2d_for_actor_same_pixels (actor : Actor)
    (ids1 ids2 labels1 labels2 : grid) :
  (forall y x : nat, matches ids1 (id actor) y x <-> matches ids2 (id actor) y x) ->
  bbox_2d_for_actor actor ids1 labels1 = bbox_2d_for_actor actor ids2 labels2.
Proof.
  intros Hsame.
  destruct (bbox_2d_for_actor_cases actor ids1 labels1)
    as [[Hno1 ->]|[Hex1 [[Hnil1 ->]|(t1 & ts1 & b1 & Ht1 & Hb1 & ->)]]];
  destruct (bbox_2d_for_actor_cases actor ids2 labels2)
    as [[Hno2 ->]|[Hex2 [[Hnil2 ->]|(t2 & ts2 & b2 & Ht2 & Hb2 & ->)]]];
    try reflexivity;
    try (destruct Hex2 as (y & x & Hm); apply Hsame in Hm; elim (Hno1 _ _ Hm));
    try (destruct Hex1 as (y & x & Hm); apply Hsame in Hm; elim (Hno2 _ _ Hm));
    try congruence.
  assert (t1 = t2) by congruence. subst t2.
  assert (Hb2' : tight_box ids1 (id actor) b2).
  { apply (@tight_box_same_pixels ids2 ids1 (id actor) b2); [|exact Hb2].
    intros y x. symmetry. apply Hsame. }
  rewrite (@tight_box_unique ids1 (id actor) b1 b2 Hb1 Hb2').
  reflexivity.
Qed.


Lemma ids_frame_other_same (y x : nat) :
  matches ids_frame (id car_42) y x <-> matches ids_frame_other (id car_42) y x.
Proof.
  unfold matches, at2, ids_frame, ids_frame_other.
  do 5 (try (destruct y as [|y])); do 6 (try (destruct x as [|x]));
    simpl; split; intros H; congruence.
Qed.

Lemma bbox_2d_for_actor_same_pixels_witness :
  bbox_2d_for_actor car_42 ids_frame labels_frame =
  bbox_2d_for_actor car_42 ids_frame_other [].
Proof.
  exact (@bbox_2d_for_actor_same_pixels car_42 ids_frame ids_frame_other
           labels_frame [] ids_frame_other_same).
Defined.

End ExtractorMore.

(** ** More on the decoder *)

Section DecoderMore.
Local Open Scope Z_scope.

Lemma at2_zip_with {A B C : Type} (f : A -> B -> C)
    (g1 : list (list A)) (g2 : list (list B)) (y x : nat) (c : C) :
  at2 (zip_with (zip_with f) g1 g2) y x = Some c -> exists a b, c = f a b.
Proof.
  unfold at2. revert g2 y.
  induction g1 as [|r1 g1 IH]; intros [|r2 g2] y; simpl;
    try (destruct y; discriminate).
  destruct y as [|y]; simpl; [|apply IH].
  clear IH. revert r2 x.
  induction r1 as [|a r1 IHr]; intros [|b r2] x; simpl;
    try (destruct x; discriminate).
  destruct x as [|x]; simpl; [|apply IHr].
  intros H. inversion H. eauto.
Qed.

(** X4. Whatever the buffer holds, every id the decoder returns lies in
    [0, 65535]; so the 2D extractor reports [None] for every actor whose id
    is negative or above 65535, whatever is in the frame. *)
Theorem decoded_ids_are_uint16 (img : image) (semantic_labels actor_ids : grid) :
  decode_instance_segmentation img = Ret (semantic_labels, actor_ids) ->
  (forall (y x : nat) (v : Z), at2 actor_ids y x = Some v -> 0 <= v <= 65535) /\
  (forall actor : Actor,
     id actor < 0 \/ 65535 < id actor ->
     bbox_2d_for_actor actor actor_ids semantic_labels = Ret None).
Proof.
  unfold decode_instance_segmentation.
  destruct (take_channel img 2) as [l|e]; [|discriminate].
  destruct (take_channel img 1) as [g|e]; [|discriminate].
  destruct (take_channel img 0) as [b|e]; [|discriminate].
  cbn [bind]. intros Heq. injection Heq as <- <-.
  assert (Hrange : forall (y x : nat) (v : Z),
            at2 (grid_zip add16 (grid_map u16 g) (grid_map shl8_16 (grid_map u16 b))) y x
              = Some v -> 0 <= v <= 65535).
  { intros y x v Hv. apply at2_zip_with in Hv. destruct Hv as (a & c & ->).
    unfold add16, u16. pose proof (Z.mod_pos_bound (a + c) 65536). lia. }
  split; [exact Hrange|].
  intros actor Hid.
  destruct (bbox_2d_for_actor_cases actor
              (grid_zip add16 (grid_map u16 g) (grid_map shl8_16 (grid_map u16 b))) l)
    as [[_ Hnone]|[(y & x & Hm) _]]; [exact Hnone|].
  apply Hrange in Hm. lia.
Qed.


Lemma decoded_ids_are_uint16_witness :
  (forall (y x : nat) (v : Z),
     at2 [[42; 258]; [0; 65535]] y x = Some v -> 0 <= v <= 65535) /\
  (forall actor : Actor,
     id actor < 0 \/ 65535 < id actor ->
     bbox_2d_for_actor actor [[42; 258]; [0; 65535]] [[14; 14]; [1; 12]] = Ret None).
Proof.
  exact (@decoded_ids_are_uint16 sample_buffer _ _ decode_sample_buffer).
Defined.

Lemma idx_firstn {A : Type} (l : list A) (n c : nat) :
  (c < n)%nat -> idx (firstn n l) c = idx l c.
Proof.
  intros Hc. unfold idx. rewrite nth_error_firstn.
  destruct (Nat.ltb_spec c n); [reflexivity | lia].
Qed.

Lemma take_channel_firstn (img : image) (c : nat) :
  (c < 3)%nat -> take_channel (map (map (firstn 3)) img) c = take_channel img c.
Proof.
  intros Hc. unfold take_channel. rewrite mapM_map.
  apply mapM_ext. intros row _. rewrite mapM_map.
  apply mapM_ext. intros px _. now apply idx_firstn.
Qed.

(** X5. The decoder reads the first three channels of a pixel and nothing
    else: cutting every pixel down to its first three channels (dropping
    alpha and whatever follows) changes neither the result nor the error. *)
Theorem decode_reads_three_channels (img : image) :
  decode_instance_segmentation (map (map (firstn 3)) img) =
  decode_instance_segmentation img.
Proof.
  unfold decode_instance_segmentation.
  rewrite !take_channel_firstn by lia. reflexivity.
Qed.

Lemma idx_channel (px : pixel) (c : nat) :
  ((c < length px)%nat /\ idx px c = Ret (channel px c)) \/
  ((length px <= c)%nat /\ idx px c = Raise IndexError).
Proof.
  unfold idx, channel.
  destruct (nth_error px c) as [v|] eqn:E.
  - left. split; [apply nth_error_Some; congruence|].
    now rewrite (nth_error_nth _ _ 0 E).
  - right. split; [now apply nth_error_None | reflexivity].
Qed.

Lemma take_channel_outcome (img : image) (c : nat) :
  (Forall (Forall (fun px : pixel => (c < length px)%nat)) img /\
   take_channel img c = Ret (map (map (fun px => channel px c)) img)) \/
  ((exists row px, In row img /\ In px row /\ (length px <= c)%nat) /\
   take_channel img c = Raise IndexError).
Proof.
  unfold take_channel.
  induction img as [|row img IH]; simpl.
  - left. split; [constructor | reflexivity].
  - assert (Hrow : (Forall (fun px : pixel => (c < length px)%nat) row /\
                    mapM (fun px : pixel => idx px c) row
                      = Ret (map (fun px => channel px c) row)) \/
                   ((exists px, In px row /\ (length px <= c)%nat) /\
                    mapM (fun px : pixel => idx px c) row = Raise IndexError)).
    { clear IH. induction row as [|px row IHr]; simpl.
      - left. split; [constructor | reflexivity].
      - destruct (idx_channel px c) as [[Hlt ->]|[Hge ->]]; simpl.
        + destruct IHr as [[Hall ->]|[(px' & Hin & Hle) ->]]; simpl.
          * left. split; [now constructor | reflexivity].
          * right. split; [|reflexivity]. exists px'. auto.
        + right. split; [|reflexivity]. exists px. auto. }
    destruct Hrow as [[Hall ->]|[(px & Hin & Hle) ->]]; simpl.
    + destruct IH as [[Hall' ->]|[(row' & px & Hrow' & Hin & Hle) ->]]; simpl.
      * left. split; [now constructor | reflexivity].
      * right. split; [|reflexivity]. exists row', px. auto.
    + right. split; [|reflexivity]. exists row, px. auto.
Qed.

(** X6. On a buffer of nonzero dimensions the decoder returns exactly when
    every pixel has at least three channels (so an image without alpha
    decodes too); as soon as one pixel has fewer it raises IndexError. *)
Theorem decode_needs_three_channels (h w : nat) (img : image) :
  rectangular h w img -> (0 < h)%nat -> (0 < w)%nat ->
  (Forall (Forall (fun px : pixel => (3 <= length px)%nat)) img ->
   decode_instance_segmentation img =
     Ret (map (map (fun px => channel px chan_R)) img,
          map (map (fun px => packed_id (channel px chan_G) (channel px chan_B))) img)) /\
  (forall row px, In row img -> In px row -> (length px < 3)%nat ->
     decode_instance_segmentation img = Raise IndexError).
Proof.
  intros _ _ _. unfold decode_instance_segmentation. split.
  - intros Hall.
    assert (Hc : forall c, (c < 3)%nat ->
              take_channel img c = Ret (map (map (fun px => channel px c)) img)).
    { intros c Hc.
      destruct (take_channel_outcome img c)
        as [[_ Heq]|[(row & px & Hrow & Hin & Hle) _]]; [exact Heq|].
      rewrite Forall_forall in Hall. specialize (Hall _ Hrow).
      rewrite Forall_forall in Hall. specialize (Hall _ Hin). lia. }
    rewrite !Hc by lia. cbn [bind]. unfold grid_map. rewrite !map_map.
    rewrite (map_ext (fun x => map u16 (map (fun px : pixel => channel px 1) x))
                     (map (fun px => u16 (channel px 1))))
      by (intros; apply map_map).
    rewrite (map_ext (fun x => map shl8_16 (map u16 (map (fun px : pixel => channel px 0) x)))
                     (map (fun px => shl8_16 (u16 (channel px 0)))))
      by (intros; rewrite !map_map; reflexivity).
    rewrite grid_zip_map. reflexivity.
  - intros row px Hrow Hin Hlen.
    destruct (take_channel_outcome img 2) as [[Hall _]|[_ ->]]; [|reflexivity].
    rewrite Forall_forall in Hall. specialize (Hall _ Hrow).
    rewrite Forall_forall in Hall. specialize (Hall _ Hin). lia.
Qed.


Lemma bgr_buffer_shape : rectangular 1 2 bgr_buffer.
Proof. split; [reflexivity|]. repeat constructor. Qed.

Lemma decode_needs_three_channels_witness :
  (Forall (Forall (fun px : pixel => (3 <= length px)%nat)) bgr_buffer ->
   decode_instance_segmentation bgr_buffer =
     Ret (map (map (fun px => channel px chan_R)) bgr_buffer,
          map (map (fun px => packed_id (channel px chan_G) (channel px chan_B)))
              bgr_buffer)) /\
  (forall row px, In row bgr_buffer -> In px row -> (length px < 3)%nat ->
     decode_instance_segmentation bgr_buffer = Raise IndexError).
Proof.
  apply (@decode_needs_three_channels 1 2 bgr_buffer bgr_buffer_shape); lia.
Defined.

Example decode_bgr_buffer :
  decode_instance_segmentation bgr_buffer = Ret ([[14; 12]], [[258; 7]]).
Proof. reflexivity. Qed.

Example decode_short_buffer :
  decode_instance_segmentation short_buffer = Raise IndexError.
Proof. reflexivity. Qed.

End DecoderMore.

(** ** The decoder followed by the 2D extractor *)

Section Pipeline2D.
Local Open Scope Z_scope.

Lemma decoded_matches (h w : nat) (img : image) (semantic_labels actor_ids : grid)
    (i : Z) (y x : nat) :
  well_formed_buffer h w img ->
  decode_instance_segmentation img = Ret (semantic_labels, actor_ids) ->
  (matches actor_ids i y x <-> carries img i y x).
Proof.
  intros Hwf Hdec.
  rewrite (decode_instance_segmentation_eq Hwf) in Hdec.
  injection Hdec as <- <-.
  unfold matches, carries. rewrite at2_map.
  destruct (at2 img y x) as [px|] eqn:Hat; cbn [option_map].
  - assert (Hpx : well_formed_pixel px).
    { destruct Hwf as [_ Hall]. destruct (at2_In _ _ _ Hat) as (row & Hrow & Hin).
      rewrite Forall_forall in Hall. specialize (Hall _ Hrow).
      rewrite Forall_forall in Hall. exact (Hall _ Hin). }
    rewrite packed_id_bytes by (apply channel_byte; exact Hpx).
    split.
    + intros H. injection H as H. exists px. split; [reflexivity | exact H].
    + intros (px' & Hsome & Hid). injection Hsome as <-. now rewrite Hid.
  - split; [discriminate|]. intros (px & Hsome & _). discriminate.
Qed.

(** X7. From the raw buffer to the box: on a well-formed buffer, for an
    actor that has a semantic tag, the extractor run on the decoded ids
    returns [None] exactly when no pixel of the buffer packs the actor's id
    (G + (B << 8)), and otherwise the box that contains every such pixel and
    touches one of them on each of its four sides. *)
Theorem decode_then_bbox_2d (h w : nat) (img : image)
    (semantic_labels actor_ids : grid) (actor : Actor) (tag : Z) (tags : list Z) :
  well_formed_buffer h w img ->
  decode_instance_segmentation img = Ret (semantic_labels, actor_ids) ->
  semantic_tags actor = tag :: tags ->
  (bbox_2d_for_actor actor actor_ids semantic_labels = Ret None <->
   forall y x : nat, ~ carries img (id actor) y x) /\
  ((exists y x : nat, carries img (id actor) y x) ->
   exists xmin ymin xmax ymax,
     bbox_2d_for_actor actor actor_ids semantic_labels =
       Ret (Some {| d2_actor_id := id actor; d2_semantic_label := tag;
                    bbox_2d := (xmin, ymin, xmax, ymax) |}) /\
     (forall y x : nat, carries img (id actor) y x ->
        xmin <= Z.of_nat x <= xmax /\ ymin <= Z.of_nat y <= ymax) /\
     (exists y x : nat, carries img (id actor) y x /\ Z.of_nat x = xmin) /\
     (exists y x : nat, carries img (id actor) y x /\ Z.of_nat x = xmax) /\
     (exists y x : nat, carries img (id actor) y x /\ Z.of_nat y = ymin) /\
     (exists y x : nat, carries img (id actor) y x /\ Z.of_nat y = ymax)).
Proof.
  intros Hwf Hdec Htags.
  pose proof (fun y x => @decoded_matches h w img semantic_labels actor_ids
                           (id actor) y x Hwf Hdec) as Hm.
  destruct (bbox_2d_for_actor_cases actor actor_ids semantic_labels)
    as [[Hno ->]|[Hex [[Hnil _]|(tag' & tags' & box & Htags' & Htight & ->)]]].
  - split.
    + split; [|reflexivity]. intros _ y x Hc. apply Hm in Hc. elim (Hno _ _ Hc).
    + intros (y & x & Hc). apply Hm in Hc. elim (Hno _ _ Hc).
  - congruence.
  - assert (tag' = tag) by congruence. subst tag'.
    split.
    + split; [discriminate|]. intros Hno. destruct Hex as (y & x & Hc).
      apply Hm in Hc. elim (Hno _ _ Hc).
    + intros _. destruct box as [[[xmin ymin] xmax] ymax].
      exists xmin, ymin, xmax, ymax. split; [reflexivity|].
      destruct Htight as (Hin & (ya & xa & Ha & Ea) & (yb & xb & Hb & Eb)
                          & (yc & xc & Hc & Ec) & (yd & xd & Hd & Ed)).
      split; [|repeat split].
      * intros y x Hcar. apply Hin. now apply Hm.
      * exists ya, xa. split; [now apply Hm | exact Ea].
      * exists yb, xb. split; [now apply Hm | exact Eb].
      * exists yc, xc. split; [now apply Hm | exact Ec].
      * exists yd, xd. split; [now apply Hm | exact Ed].
Qed.


Lemma decode_then_bbox_2d_witness :
  (bbox_2d_for_actor car_258 [[42; 258]; [0; 65535]] [[14; 14]; [1; 12]] = Ret None <->
   forall y x : nat, ~ carries sample_buffer (id car_258) y x) /\
  ((exists y x : nat, carries sample_buffer (id car_258) y x) ->
   exists xmin ymin xmax ymax,
     bbox_2d_for_actor car_258 [[42; 258]; [0; 65535]] [[14; 14]; [1; 12]] =
       Ret (Some {| d2_actor_id := id car_258; d2_semantic_label := 14;
                    bbox_2d := (xmin, ymin, xmax, ymax) |}) /\
     (forall y x : nat, carries sample_buffer (id car_258) y x ->
        xmin <= Z.of_nat x <= xmax /\ ymin <= Z.of_nat y <= ymax) /\
     (exists y x : nat, carries sample_buffer (id car_258) y x /\ Z.of_nat x = xmin) /\
     (exists y x : nat, carries sample_buffer (id car_258) y x /\ Z.of_nat x = xmax) /\
     (exists y x : nat, carries sample_buffer (id car_258) y x /\ Z.of_nat y = ymin) /\
     (exists y x : nat, carries sample_buffer (id car_258) y x /\ Z.of_nat y = ymax)).
Proof.
  exact (@decode_then_bbox_2d 2 2 sample_buffer _ _ car_258 14 []
           sample_buffer_well_formed decode_sample_buffer eq_refl).
Defined.

Example bbox_2d_car_258 :
  bbox_2d_for_actor car_258 [[42; 258]; [0; 65535]] [[14; 14]; [1; 12]] =
    Ret (Some {| d2_actor_id := 258; d2_semantic_label := 14; bbox_2d := (1, 0, 1, 0) |}).
Proof. reflexivity. Qed.

End Pipeline2D.

(** ** More on the projection *)

Section ProjectionMore.

(** X8. For a field of view strictly between 0 and 180 degrees (the divisor
    of the focal length is then positive, so the focal length is a genuine
    quotient) and at a vertex of nonzero depth, the projection with the
    mirrored intrinsics is the point reflection of the normal projection in
    the principal point [(w/2, h/2)]: the two pixels add up to [(w, h)]. *)
Theorem mirrored_projection_reflects (w h : Z) (fov : R) (w2c : matrix)
    (v : Vector3D) :
  0 < fov < 180 ->
  shape 4 4 w2c -> depth w2c v <> 0 ->
  0 < 2 * tan (fov * PI / 360) /\
  exists x y x_b y_b : R,
    (K <- build_projection_matrix w h fov false ;; get_image_point v K w2c)
      = Ret [Fin x; Fin y] /\
    (K_b <- build_projection_matrix w h fov true ;; get_image_point v K_b w2c)
      = Ret [Fin x_b; Fin y_b] /\
    x + x_b = IZR w /\ y + y_b = IZR h.
Proof.
  intros Hfov Hw Hd.
  split; [pose proof (half_fov_tan_pos Hfov); lra|].
  rewrite !build_projection_matrix_eq. cbn [bind].
  rewrite !(get_image_point_eq v (intrinsics_shape _ _ _ _) Hw).
  pose proof (project_by_spec_intrinsics w h fov false w2c v) as Hn.
  pose proof (project_by_spec_intrinsics w h fov true w2c v) as Hm.
  unfold depth in Hd. destruct (camera_space w2c v) as [[cx cy] cz].
  cbv zeta in Hn, Hm. rewrite Hn, Hm, !np_div_finite by exact Hd.
  do 4 eexists. split; [reflexivity|]. split; [reflexivity|].
  split; field; exact Hd.
Qed.

Lemma mirrored_projection_reflects_witness :
  0 < 2 * tan (90 * PI / 360) /\
  exists x y x_b y_b : R,
    (K <- build_projection_matrix 800 600 90 false ;;
     get_image_point (mkVec 10 1 1) K (unrotated_inverse_matrix (at_rest 0 0 0)))
      = Ret [Fin x; Fin y] /\
    (K_b <- build_projection_matrix 800 600 90 true ;;
     get_image_point (mkVec 10 1 1) K_b (unrotated_inverse_matrix (at_rest 0 0 0)))
      = Ret [Fin x_b; Fin y_b] /\
    x + x_b = IZR 800 /\ y + y_b = IZR 600.
Proof.
  apply (@mirrored_projection_reflects 800 600 90
           (unrotated_inverse_matrix (at_rest 0 0 0)) (mkVec 10 1 1)).
  - lra.
  - apply unrotated_inverse_matrix_shape.
  - rewrite origin_camera_depth. lra.
Defined.

Lemma project_by_spec_pair (v : Vector3D) (M w2c : matrix) :
  exists a b, project_by_spec v M w2c = [a; b].
Proof.
  unfold project_by_spec, perspective_divide.
  destruct (homogeneous_image_point v M w2c) as [[u0 v0] s0]. eauto.
Qed.

Lemma project_zero_depth (w h : Z) (fov : R) (mirrored : bool) (w2c : matrix)
    (v : Vector3D) :
  depth w2c v = 0 ->
  project_by_spec v (intrinsics w h fov mirrored) w2c = [NonFin; NonFin].
Proof.
  intros Hd. pose proof (project_by_spec_intrinsics w h fov mirrored w2c v) as H.
  unfold depth in Hd. destruct (camera_space w2c v) as [[cx cy] cz].
  cbv zeta in H. subst cx. rewrite H, !np_div_by_zero. reflexivity.
Qed.

Lemma emit_segment_outcome (a b c d : npfloat) :
  (exists seg, emit_segment ([a; b], [c; d]) = Ret seg) \/
  emit_segment ([a; b], [c; d]) = Raise FloatToIntError.
Proof.
  destruct a, b, c, d; cbn; eauto.
Qed.

Lemma mapM_length {A B : Type} (f : A -> py B) (l : list A) (bs : list B) :
  mapM f l = Ret bs -> length bs = length l.
Proof.
  revert bs. induction l as [|a l IH]; simpl; intros bs H.
  - now inversion H.
  - destruct (f a) as [b|e]; [|discriminate]. simpl in H.
    destruct (mapM f l) as [bs'|e]; [|discriminate]. simpl in H.
    inversion H. simpl. now rewrite (IH bs').
Qed.

End ProjectionMore.

(** ** More on the 3D projector *)

Section ProjectorMore.
Context {carla : Carla}.
Variables (actor ego : Actor) (camera_bp : CameraBlueprint) (camera : Actor).

Let verts := get_world_vertices (bounding_box actor) (get_transform actor).
Let w2c := get_inverse_matrix (get_transform camera).
Let image_w := image_size_x camera_bp.
Let image_h := image_size_y camera_bp.
Let K := intrinsics image_w image_h (fov camera_bp) false.
Let K_b := intrinsics image_w image_h (fov camera_bp) true.
Let cam_loc := location (get_transform camera).
Let cam_forward_vec := get_forward_vector (get_transform camera).

Lemma edge_segment_kept (edges : list (list nat)) :
  length (flat_map (edge_segment verts K K_b w2c image_h image_w
                                 cam_loc cam_forward_vec) edges) =
  length (filter (edge_kept verts K w2c image_h image_w) edges).
Proof.
  induction edges as [|edge rest IH]; [reflexivity|].
  cbn [flat_map filter]. rewrite length_app, IH.
  unfold edge_segment, edge_kept.
  destruct edge as [|i [|j [|k edge]]]; try reflexivity.
  destruct (nth_error verts i) as [vi|]; [|reflexivity].
  destruct (nth_error verts j) as [vj|]; [|reflexivity].
  destruct (in_canvas (project_by_spec vi K w2c) image_h image_w),
           (in_canvas (project_by_spec vj K w2c) image_h image_w); reflexivity.
Qed.

(** X9. A returned list of segments has one segment for each edge of the
    table that has an endpoint whose normal projection passes the canvas
    test, so never more than 12. *)
Theorem bbox_3d_for_actor_edge_count (r : Detection3D) :
  bbox_3d_for_actor actor ego camera_bp camera = Ret r ->
  length (projection r) =
    length (filter (edge_kept verts K w2c image_h image_w) EDGES) /\
  (length (projection r) <= 12)%nat.
Proof.
  rewrite bbox_3d_for_actor_eq. intros Hr.
  destruct (mapM emit_segment _) as [segs|e] eqn:Hsegs; [|discriminate].
  cbn [bind] in Hr.
  destruct (idx (semantic_tags actor) 0) as [tag|e]; [|discriminate].
  inversion Hr; subst r; clear Hr. cbn [projection].
  apply mapM_length in Hsegs. unfold surviving_edges in Hsegs.
  fold verts w2c image_w image_h K K_b cam_loc cam_forward_vec in Hsegs.
  rewrite edge_segment_kept in Hsegs. rewrite Hsegs.
  split; [reflexivity|].
  change 12%nat with (length EDGES). apply filter_length_le.
Qed.

Lemma surviving_edges_outcome :
  forall s, In s (surviving_edges actor camera_bp camera) ->
    (exists seg, emit_segment s = Ret seg) \/ emit_segment s = Raise FloatToIntError.
Proof.
  intros s Hs. unfold surviving_edges in Hs.
  apply in_flat_map in Hs. destruct Hs as (edge & _ & Hs).
  unfold edge_segment in Hs.
  destruct edge as [|i [|j [|k edge]]]; try contradiction.
  destruct (nth_error _ i) as [vi|]; [|contradiction].
  destruct (nth_error _ j) as [vj|]; [|contradiction].
  destruct (_ && _); [contradiction|].
  destruct Hs as [<-|[]].
  unfold corrected_projection.
  destruct (behind_camera _ _ vi), (behind_camera _ _ vj);
    repeat match goal with
      | |- context [project_by_spec ?v ?M ?W] =>
          let a := fresh "a" in let b := fresh "b" in
          destruct (project_by_spec_pair v M W) as (a & b & ->)
      end;
    apply emit_segment_outcome.
Qed.

(** X10. When an edge of the table is kept (an endpoint projects into the
    canvas) and one of its endpoints has depth 0, the projector returns
    nothing: [int()] of the non-finite coordinate raises. *)
Theorem bbox_3d_for_actor_zero_depth (i j : nat) (vi vj : Vector3D) :
  In [i; j] EDGES ->
  nth_error verts i = Some vi -> nth_error verts j = Some vj ->
  edge_kept verts K w2c image_h image_w [i; j] = true ->
  depth w2c vi = 0 \/ depth w2c vj = 0 ->
  bbox_3d_for_actor actor ego camera_bp camera = Raise FloatToIntError.
Proof.
  intros Hedge Evi Evj Hkept Hzero.
  rewrite bbox_3d_for_actor_eq.
  rewrite (@mapM_raise _ _ emit_segment FloatToIntError _ surviving_edges_outcome);
    [reflexivity|].
  exists (corrected_projection K K_b w2c cam_loc cam_forward_vec vi,
          corrected_projection K K_b w2c cam_loc cam_forward_vec vj).
  split.
  - unfold surviving_edges. apply in_flat_map. exists [i; j].
    split; [exact Hedge|].
    fold verts w2c image_w image_h K K_b cam_loc cam_forward_vec.
    unfold edge_segment. unfold edge_kept in Hkept.
    rewrite Evi, Evj in *.
    destruct (in_canvas (project_by_spec vi K w2c) image_h image_w),
             (in_canvas (project_by_spec vj K w2c) image_h image_w);
      try discriminate; left; reflexivity.
  - unfold corrected_projection.
    destruct Hzero as [Hz|Hz].
    + assert (Hp : forall m, project_by_spec vi
                       (intrinsics image_w image_h (fov camera_bp) m) w2c
                     = [NonFin; NonFin]) by (intros; now apply project_zero_depth).
      fold K in Hp. unfold K, K_b.
      destruct (behind_camera cam_forward_vec cam_loc vi); rewrite Hp; reflexivity.
    + assert (Hp : forall m, project_by_spec vj
                       (intrinsics image_w image_h (fov camera_bp) m) w2c
                     = [NonFin; NonFin]) by (intros; now apply project_zero_depth).
      unfold K, K_b.
      destruct (behind_camera cam_forward_vec cam_loc vj); rewrite Hp;
        destruct (behind_camera cam_forward_vec cam_loc vi);
        match goal with
        | |- context [project_by_spec vi ?M ?W] =>
            destruct (project_by_spec_pair vi M W) as (a & b & ->)
        end;
        destruct a, b; reflexivity.
Qed.

(** X11. For an actor without semantic tags none of whose corner vertices
    has depth 0, the projector raises IndexError: the label is looked up
    after the edges have been projected. *)
Theorem bbox_3d_for_actor_without_tags :
  semantic_tags actor = [] ->
  (forall v, In v verts -> depth w2c v <> 0) ->
  bbox_3d_for_actor actor ego camera_bp camera = Raise IndexError.
Proof.
  intros Htags Hdepth. rewrite bbox_3d_for_actor_eq.
  destruct (mapM_emit_total (surviving_edges_finite actor camera_bp camera Hdepth))
    as (segs & -> & _).
  rewrite Htags. reflexivity.
Qed.

End ProjectorMore.

Section SceneMore.

#[local] Existing Instance unrotated.

Lemma bbox_3d_for_actor_edge_count_witness :
  length [(360, 340, 360, 260); (360, 260, 440, 260); (440, 260, 440, 340);
          (440, 340, 360, 340); (360, 340, 380, 320); (380, 320, 380, 280);
          (380, 280, 360, 260); (380, 280, 420, 280); (420, 280, 420, 320);
          (420, 320, 380, 320); (420, 320, 440, 340); (420, 280, 440, 260)]%Z =
    length (filter (edge_kept
                      (get_world_vertices (bounding_box car_ahead) (get_transform car_ahead))
                      (intrinsics 800 600 90 false)
                      (get_inverse_matrix (get_transform camera_at_origin)) 600 800)
                   EDGES) /\
  (12 <= 12)%nat.
Proof.
  exact (@bbox_3d_for_actor_edge_count unrotated car_ahead ego_at_origin
           camera_800_600 camera_at_origin _ bbox_3d_car_ahead).
Defined.

Lemma car_on_camera_plane_kept :
  edge_kept
    (get_world_vertices (bounding_box car_on_camera_plane)
                        (get_transform car_on_camera_plane))
    (intrinsics 800 600 90 false)
    (get_inverse_matrix (get_transform camera_at_origin)) 600 800 [0; 4]%nat = true.
Proof.
  unfold edge_kept. cbn [get_world_vertices unrotated unrotated_world_vertices nth_error].
  apply orb_true_iff. right.
  change (get_inverse_matrix (get_transform camera_at_origin))
    with (unrotated_inverse_matrix (at_rest 0 0 0)).
  cbn [car_on_camera_plane bounding_box get_transform at_rest location bb_location
       extent vec_add vx vy vz].
  rewrite origin_camera_projection by lra.
  apply in_canvas_finite. change (IZR 800) with 800. change (IZR 600) with 600. lra.
Qed.

Lemma bbox_3d_for_actor_zero_depth_witness :
  bbox_3d_for_actor car_on_camera_plane ego_at_origin camera_800_600 camera_at_origin
    = Raise FloatToIntError.
Proof.
  eapply (@bbox_3d_for_actor_zero_depth unrotated car_on_camera_plane ego_at_origin
            camera_800_600 camera_at_origin 0 4).
  - cbn. tauto.
  - reflexivity.
  - reflexivity.
  - exact car_on_camera_plane_kept.
  - left.
    change (get_inverse_matrix (get_transform camera_at_origin))
      with (unrotated_inverse_matrix (at_rest 0 0 0)).
    rewrite origin_camera_depth. cbn. lra.
Defined.

Lemma car_without_tags_depth (v : Vector3D) :
  In v (get_world_vertices (bounding_box car_without_tags)
                           (get_transform car_without_tags)) ->
  depth (get_inverse_matrix (get_transform camera_at_origin)) v <> 0.
Proof.
  change (get_inverse_matrix (get_transform camera_at_origin))
    with (unrotated_inverse_matrix (at_rest 0 0 0)).
  cbn [get_world_vertices unrotated unrotated_world_vertices].
  intros Hv.
  repeat (destruct Hv as [<-|Hv]; [rewrite origin_camera_depth; cbn; lra|]).
  destruct Hv.
Qed.

Lemma bbox_3d_for_actor_without_tags_witness :
  bbox_3d_for_actor car_without_tags ego_at_origin camera_800_600 camera_at_origin
    = Raise IndexError.
Proof.
  apply (@bbox_3d_for_actor_without_tags unrotated car_without_tags ego_at_origin
           camera_800_600 camera_at_origin).
  - reflexivity.
  - exact car_without_tags_depth.
Defined.

End SceneMore.

(** ** Relative velocity *)

Section RelativeVelocity.
Context {carla : Carla}.

(** X12. For a target that moves with the ego's velocity, the relative
    velocity is what CARLA's [inverse_transform] of the ego's transform
    makes of the zero vector, whatever the target's pose and whatever the
    two bounding boxes: the difference of the velocities is handed to the
    transform of points. *)
Theorem calculate_relative_velocity_same_velocity (actor ego : Vehicle) :
  get_velocity actor = get_velocity ego ->
  calculate_relative_velocity actor ego =
    inverse_transform (get_transform (vehicle_actor ego)) (mkVec 0 0 0).
Proof.
  intros Hv. unfold calculate_relative_velocity. rewrite Hv.
  replace (vec_sub (get_velocity ego) (get_velocity ego)) with (mkVec 0 0 0).
  - destruct (inverse_transform _ _); reflexivity.
  - unfold vec_sub. apply vec_eq; ring.
Qed.

End RelativeVelocity.

Lemma calculate_relative_velocity_same_velocity_witness :
  calculate_relative_velocity (carla := unrotated)
    (vehicle_with_state (mkVec 3 4 0) 0 (at_rest 50 10 0))
    (vehicle_with_state (mkVec 3 4 0) 0 (at_rest 20 10 0)) =
  inverse_transform (Carla := unrotated) (at_rest 20 10 0) (mkVec 0 0 0).
Proof.
  apply (@calculate_relative_velocity_same_velocity unrotated
           (vehicle_with_state (mkVec 3 4 0) 0 (at_rest 50 10 0))
           (vehicle_with_state (mkVec 3 4 0) 0 (at_rest 20 10 0))).
  reflexivity.
Defined.

(** In the scene without rotations a target that keeps pace with an ego at
    (20, 10, 0) gets the relative velocity (-20, -10, 0). *)
Example relative_velocity_keeping_pace :
  calculate_relative_velocity (carla := unrotated)
    (vehicle_with_state (mkVec 3 4 0) 0 (at_rest 50 10 0))
    (vehicle_with_state (mkVec 3 4 0) 0 (at_rest 20 10 0)) = mkVec (-20) (-10) 0.
Proof.
  unfold calculate_relative_velocity. cbn. apply vec_eq; lra.
Qed.

(** ** Light state *)

Section LightState.
Local Open Scope Z_scope.

Lemma flag_set_pow2 (state n : Z) :
  0 <= n -> flag_set state (2 ^ n) = Z.testbit state n.
Proof.
  intros Hn. unfold flag_set.
  destruct (Z.testbit state n) eqn:Hb.
  - destruct (Z.eqb_spec (Z.land state (2 ^ n)) 0) as [H0|_]; [|reflexivity].
    assert (Hbit : Z.testbit (Z.land state (2 ^ n)) n = true).
    { rewrite Z.land_spec, Hb, Z.pow2_bits_true by lia. reflexivity. }
    rewrite H0, Z.bits_0 in Hbit. discriminate.
  - assert (H0 : Z.land state (2 ^ n) = 0).
    { apply Z.bits_inj'. intros m Hm. rewrite Z.land_spec, Z.bits_0.
      destruct (Z.eq_dec n m) as [<-|Hne].
      - rewrite Hb. reflexivity.
      - rewrite (Z.pow2_bits_false n m) by lia. apply andb_false_r. }
    rewrite H0. reflexivity.
Qed.


Lemma testbit_light_state_of (bits : list Z) (chosen : list bool) (n : Z) :
  Forall (fun k => 0 <= k) bits -> 0 <= n ->
  Z.testbit (light_state_of (map (Z.pow 2) bits) chosen) n =
    chosen_bit n (combine bits chosen).
Proof.
  intros Hbits Hn. revert chosen.
  induction Hbits as [|k bits Hk _ IH]; intros chosen; simpl.
  - apply Z.bits_0.
  - destruct chosen as [|b chosen]; simpl; [apply Z.bits_0|].
    destruct b; simpl.
    + rewrite Z.lor_spec, IH. f_equal.
      destruct (Z.eqb_spec k n) as [->|Hne].
      * apply Z.pow2_bits_true. lia.
      * apply Z.pow2_bits_false. lia.
    + apply IH.
Qed.

Lemma chosen_bit_absent (n : Z) (bits : list Z) (chosen : list bool) :
  ~ In n bits -> chosen_bit n (combine bits chosen) = false.
Proof.
  revert chosen. induction bits as [|k bits IH]; intros chosen Hn; simpl.
  - reflexivity.
  - destruct chosen as [|b chosen]; simpl; [reflexivity|].
    rewrite IH by (intros H; apply Hn; now right).
    destruct (Z.eqb_spec k n) as [->|_]; [elim Hn; now left|].
    now rewrite andb_false_r.
Qed.

Lemma chosen_bits_read_back (bits : list Z) (chosen : list bool) :
  NoDup bits -> length chosen = length bits ->
  map (fun n => chosen_bit n (combine bits chosen)) bits = chosen.
Proof.
  intros Hnd. revert chosen.
  induction Hnd as [|k bits Hk Hnd IH]; intros chosen Hlen.
  - destruct chosen; [reflexivity | discriminate].
  - destruct chosen as [|b chosen]; [discriminate|].
    simpl. rewrite Z.eqb_refl, andb_true_r.
    rewrite (@chosen_bit_absent k bits chosen Hk), orb_false_r. f_equal.
    transitivity (map (fun n => chosen_bit n (combine bits chosen)) bits).
    + apply map_ext_in. intros n Hn.
      destruct (Z.eqb_spec k n) as [->|_]; [contradiction|].
      now rewrite andb_false_r.
    + apply IH. simpl in Hlen. lia.
Qed.

(** X13. When the flags are single bits, no two of them the same, the dict
    reads back any choice of the eleven lights from the state that is the
    bitwise or of the chosen flags: each key gets the boolean chosen for
    its flag. *)
Theorem vehicle_light_state_round_trip (F : LightFlags) (vehicle : Vehicle)
    (chosen : list bool) :
  single_bits (flags_in_order F) ->
  length chosen = 11%nat ->
  get_light_state vehicle = light_state_of (flags_in_order F) chosen ->
  map snd (vehicle_light_state_to_dict F vehicle) = chosen.
Proof.
  intros (bits & Hflags & Hpos & Hnd) Hlen Hstate.
  change (map snd (vehicle_light_state_to_dict F vehicle))
    with (map (flag_set (get_light_state vehicle)) (flags_in_order F)).
  rewrite Hstate, Hflags, map_map.
  assert (Hbits : length bits = 11%nat).
  { apply (f_equal (@length Z)) in Hflags. rewrite length_map in Hflags.
    rewrite <- Hflags. reflexivity. }
  transitivity (map (fun n => chosen_bit n (combine bits chosen)) bits);
    [|apply chosen_bits_read_back; [exact Hnd | lia]].
  apply map_ext_in. intros n Hn.
  rewrite Forall_forall in Hpos.
  rewrite flag_set_pow2 by auto.
  apply testbit_light_state_of; [now apply Forall_forall | auto].
Qed.

Lemma carla_light_flags_single_bits : single_bits (flags_in_order carla_light_flags).
Proof.
  exists [0; 1; 2; 3; 6; 5; 4; 7; 8; 9; 10].
  split; [reflexivity|]. split.
  - repeat constructor; lia.
  - repeat (constructor; [simpl; intuition lia|]). constructor.
Qed.

Lemma vehicle_light_state_round_trip_witness :
  map snd (vehicle_light_state_to_dict carla_light_flags
             (vehicle_with_state (mkVec 0 0 0) 42 (at_rest 0 0 0))) =
    [false; true; false; true; false; true; false; false; false; false; false].
Proof.
  apply (@vehicle_light_state_round_trip carla_light_flags
           (vehicle_with_state (mkVec 0 0 0) 42 (at_rest 0 0 0))
           [false; true; false; true; false; true; false; false; false; false; false]).
  - exact carla_light_flags_single_bits.
  - reflexivity.
  - reflexivity.
Defined.

(** X14. Bits of the state that belong to none of the eleven flags do not
    show in the dict: or-ing such bits into the state leaves every value as
    it was. *)
Theorem vehicle_light_state_ignores_other_bits (F : LightFlags)
    (vehicle vehicle' : Vehicle) (other : Z) :
  Forall (fun flag => Z.land other flag = 0) (flags_in_order F) ->
  get_light_state vehicle' = Z.lor (get_light_state vehicle) other ->
  vehicle_light_state_to_dict F vehicle' = vehicle_light_state_to_dict F vehicle.
Proof.
  intros Hother Hstate.
  assert (H : forall flag, In flag (flags_in_order F) ->
            flag_set (get_light_state vehicle') flag =
            flag_set (get_light_state vehicle) flag).
  { intros flag Hin. rewrite Forall_forall in Hother. unfold flag_set.
    rewrite Hstate, Z.land_lor_distr_l, (Hother flag Hin), Z.lor_0_r. reflexivity. }
  unfold vehicle_light_state_to_dict.
  rewrite !H by (unfold flags_in_order; simpl; tauto). reflexivity.
Qed.

Lemma vehicle_light_state_ignores_other_bits_witness :
  vehicle_light_state_to_dict carla_light_flags
    (vehicle_with_state (mkVec 0 0 0) (Z.lor 42 2048) (at_rest 0 0 0)) =
  vehicle_light_state_to_dict carla_light_flags
    (vehicle_with_state (mkVec 0 0 0) 42 (at_rest 0 0 0)).
Proof.
  apply (@vehicle_light_state_ignores_other_bits carla_light_flags
           (vehicle_with_state (mkVec 0 0 0) 42 (at_rest 0 0 0))
           (vehicle_with_state (mkVec 0 0 0) (Z.lor 42 2048) (at_rest 0 0 0)) 2048).
  - repeat constructor.
  - reflexivity.
Defined.

End LightState.

(** ** The displayed frame *)

Section Frame.
Local Open Scope Z_scope.

Lemma np_transpose_102_shape (h w : nat) (a : image) :
  rectangular h w a -> (0 < h)%nat -> rectangular w h (np_transpose_102 a).
Proof.
  intros [Hh Hw] Hpos. destruct a as [|row0 a]; [simpl in Hh; lia|].
  assert (Hw0 : length row0 = w) by (inversion Hw; assumption).
  unfold np_transpose_102. rewrite Hw0. split.
  - rewrite length_map, length_seq. reflexivity.
  - rewrite Forall_map, Forall_forall. intros x _.
    rewrite length_map. exact Hh.
Qed.

Lemma np_transpose_102_at (h w : nat) (a : image) (y x : nat) (px : pixel) :
  rectangular h w a -> at2 a y x = Some px ->
  at2 (np_transpose_102 a) x y = Some px.
Proof.
  intros [Hh Hw] Hat.
  assert (Hx : (x < w)%nat).
  { unfold at2 in Hat.
    destruct (nth_error a y) as [row|] eqn:Hy; [|discriminate].
    rewrite Forall_forall in Hw. rewrite <- (Hw row (nth_error_In _ _ Hy)).
    apply nth_error_Some. congruence. }
  destruct a as [|row0 a]; [destruct y; discriminate|].
  assert (Hw0 : length row0 = w) by (inversion Hw; assumption).
  unfold np_transpose_102. rewrite Hw0. unfold at2.
  rewrite nth_error_map, (nth_error_nth' _ 0%nat)
    by (rewrite length_seq; exact Hx).
  rewrite seq_nth by exact Hx. cbn [option_map Nat.add].
  rewrite nth_error_map.
  unfold at2 in Hat.
  destruct (nth_error (row0 :: a) y) as [row|] eqn:Hy; [|discriminate].
  cbn [option_map]. f_equal. exact (nth_error_nth _ _ [] Hat).
Qed.

(** X15. The array handed to the display is the camera image turned from
    rows of B, G, R, A pixels into columns of R, G, B pixels: for a buffer
    of [h] rows and [w] columns it has [w] rows and [h] columns (when
    [h > 0]), and its entry at [x], [y] is [R; G; B] of the pixel at row
    [y], column [x]. *)
Theorem frame_pixels_correct (h w : nat) (img : image) :
  well_formed_buffer h w img ->
  ((0 < h)%nat -> rectangular w h (frame_pixels img)) /\
  (forall (y x : nat) (px : pixel),
     at2 img y x = Some px ->
     at2 (frame_pixels img) x y =
       Some [channel px chan_R; channel px chan_G; channel px chan_B]).
Proof.
  intros [Hrect Hpx].
  unfold frame_pixels, rgb_img. rewrite map_map.
  rewrite (map_ext (fun x => map (firstn 3) (map (fun px : pixel => rev (firstn 3 px)) x))
                   (map (fun px : pixel => firstn 3 (rev (firstn 3 px)))))
    by (intros; apply map_map).
  pose proof (rectangular_map (fun px : pixel => firstn 3 (rev (firstn 3 px))) Hrect)
    as Hrect'.
  split.
  - intros Hpos. exact (np_transpose_102_shape Hrect' Hpos).
  - intros y x px Hat.
    apply (np_transpose_102_at _ _ Hrect').
    rewrite at2_map, Hat. cbn [option_map]. f_equal.
    assert (Hwf : well_formed_pixel px).
    { destruct (at2_In _ _ _ Hat) as (row & Hrow & Hin).
      rewrite Forall_forall in Hpx. specialize (Hpx _ Hrow).
      rewrite Forall_forall in Hpx. exact (Hpx _ Hin). }
    destruct Hwf as [Hlen _].
    destruct (length_4_inv _ Hlen) as (b & g & r & al & ->). reflexivity.
Qed.

Lemma frame_pixels_correct_witness :
  ((0 < 2)%nat -> rectangular 2 2 (frame_pixels sample_buffer)) /\
  (forall (y x : nat) (px : pixel),
     at2 sample_buffer y x = Some px ->
     at2 (frame_pixels sample_buffer) x y =
       Some [channel px chan_R; channel px chan_G; channel px chan_B]).
Proof.
  exact (@frame_pixels_correct 2 2 sample_buffer sample_buffer_well_formed).
Defined.

Example frame_pixels_sample_buffer :
  frame_pixels sample_buffer =
    [[[14; 42; 0]; [1; 0; 0]]; [[14; 2; 1]; [12; 255; 255]]].
Proof. reflexivity. Qed.

End Frame.

(** ** The per-frame annotation *)

Section SemanticMap.
Local Open Scope Z_scope.

Lemma semantic_map_get_known (key : Z) :
  0 <= key <= 28 -> exists item, semantic_map_get key = RetF item.
Proof.
  intros Hk.
  assert (H : key = 0 \/ key = 1 \/ key = 2 \/ key = 3 \/ key = 4 \/ key = 5 \/
              key = 6 \/ key = 7 \/ key = 8 \/ key = 9 \/ key = 10 \/ key = 11 \/
              key = 12 \/ key = 13 \/ key = 14 \/ key = 15 \/ key = 16 \/
              key = 17 \/ key = 18 \/ key = 19 \/ key = 20 \/ key = 21 \/
              key = 22 \/ key = 23 \/ key = 24 \/ key = 25 \/ key = 26 \/
              key = 27 \/ key = 28) by lia.
  repeat (destruct H as [->|H]; [eexists; reflexivity|]).
  subst. eexists; reflexivity.
Qed.

Lemma semantic_map_get_unknown (key : Z) :
  ~ 0 <= key <= 28 -> semantic_map_get key = RaiseF (KeyError key).
Proof.
  intros Hk. unfold semantic_map_get, SEMANTIC_MAP. cbn [find fst].
  repeat match goal with
    | |- context [Z.eqb ?a key] => destruct (Z.eqb_spec a key); [lia|]
    end.
  reflexivity.
Qed.

End SemanticMap.

Section FrameLoopProps.
Context {carla : Carla}.
Variables (F : LightFlags) (ego_vehicle : Vehicle) (camera_bp : CameraBlueprint).
Variables (camera : Actor) (distance : Z) (actor_ids semantic_labels : grid).

Let one := annotate_one F ego_vehicle camera_bp camera actor_ids semantic_labels.
Let all := annotate_all F ego_vehicle camera_bp camera actor_ids semantic_labels.

Lemma frame_loop_eq (vehicles : list Vehicle)
    (frame_bboxes : list FrameBoxes) (objects : list FrameObject) :
  frame_loop F ego_vehicle camera_bp camera distance actor_ids semantic_labels
             vehicles frame_bboxes objects =
    (res <~ all (filter (annotated ego_vehicle camera distance) vehicles) ;;
     RetF (frame_bboxes ++ fst res, objects ++ snd res)).
Proof.
  revert frame_bboxes objects.
  induction vehicles as [|npc rest IH]; intros frame_bboxes objects.
  - simpl. now rewrite !app_nil_r.
  - cbn [frame_loop filter]. unfold annotated at 1.
    destruct (negb _); cbn [andb]; [|apply IH].
    destruct (Rlt_b _ (IZR distance)); cbn [andb]; [|apply IH].
    destruct (Rlt_b 0 _); [|apply IH].
    unfold all. cbn [annotate_all]. unfold annotate_one.
    destruct (call (bbox_2d_for_actor _ _ _)) as [b2|e]; cbn [bindF]; [|reflexivity].
    destruct (call (bbox_3d_for_actor _ _ _ _)) as [b3|e]; cbn [bindF]; [|reflexivity].
    destruct (call (idx _ 0)) as [tag|e]; cbn [bindF]; [|reflexivity].
    destruct (semantic_map_get tag) as [item|e]; cbn [bindF]; [|reflexivity].
    rewrite IH. unfold all.
    destruct (annotate_all _ _ _ _ _ _ _) as [[bs os]|e]; cbn [bindF fst snd];
      [|reflexivity].
    now rewrite <- !app_assoc.
Qed.

Lemma annotate_frame_eq (vehicles : list Vehicle) :
  annotate_frame F ego_vehicle camera_bp camera distance actor_ids semantic_labels
                 vehicles =
    all (filter (annotated ego_vehicle camera distance) vehicles).
Proof.
  unfold annotate_frame. rewrite frame_loop_eq.
  destruct (all _) as [[bs os]|e]; reflexivity.
Qed.


Lemma annotate_one_returns (npc : Vehicle) :
  (exists res, one npc = RetF res) <->
  (exists r, bbox_3d_for_actor (vehicle_actor npc) (vehicle_actor ego_vehicle)
                               camera_bp camera = Ret r) /\
  (exists tag tags, semantic_tags (vehicle_actor npc) = tag :: tags /\
                    (0 <= tag <= 28)%Z).
Proof.
  unfold one, annotate_one.
  pose proof (bbox_3d_for_actor_eq (vehicle_actor npc) (vehicle_actor ego_vehicle)
                camera_bp camera) as H3.
  destruct (bbox_2d_for_actor_cases (vehicle_actor npc) actor_ids semantic_labels)
    as [[_ H2]|[_ [[Hnil H2]|(t & ts & box & Ht & _ & H2)]]]; rewrite H2;
    cbn [call bindF].
  - (* not in the frame *)
    destruct (bbox_3d_for_actor _ _ _ _) as [r|e] eqn:Hr; cbn [call bindF].
    + destruct (mapM emit_segment _) as [segs|e]; [|discriminate].
      cbn [bind] in H3.
      destruct (semantic_tags (vehicle_actor npc)) as [|tag tags] eqn:Htags;
        [discriminate|].
      cbn [idx nth_error call bindF].
      destruct (Z_le_dec 0 tag) as [H0|H0]; [destruct (Z_le_dec tag 28) as [H1|H1]|].
      * destruct (semantic_map_get_known (conj H0 H1)) as [item ->].
        cbn [bindF]. split; [|eauto]. intros _. split; [eauto|].
        exists tag, tags. auto.
      * rewrite semantic_map_get_unknown by lia. cbn [bindF].
        split; [intros [? ?]; discriminate|].
        intros [_ (t' & ts' & Ht' & Hb)]. inversion Ht'; subst. lia.
      * rewrite semantic_map_get_unknown by lia. cbn [bindF].
        split; [intros [? ?]; discriminate|].
        intros [_ (t' & ts' & Ht' & Hb)]. inversion Ht'; subst. lia.
    + split; [intros [? ?]; discriminate|]. intros [[r Hr'] _]. discriminate.
  - (* in the frame, without a tag *)
    split; [intros [? ?]; discriminate|].
    intros [_ (t' & ts' & Ht' & _)]. congruence.
  - (* in the frame *)
    destruct (bbox_3d_for_actor _ _ _ _) as [r|e] eqn:Hr; cbn [call bindF].
    + rewrite Ht. cbn [idx nth_error call bindF].
      destruct (Z_le_dec 0 t) as [H0|H0]; [destruct (Z_le_dec t 28) as [H1|H1]|].
      * destruct (semantic_map_get_known (conj H0 H1)) as [item ->].
        cbn [bindF]. split; [|eauto]. intros _. split; [eauto|].
        exists t, ts. auto.
      * rewrite semantic_map_get_unknown by lia. cbn [bindF].
        split; [intros [? ?]; discriminate|].
        intros [_ (t' & ts' & Ht' & Hb)]. inversion Ht'; subst. lia.
      * rewrite semantic_map_get_unknown by lia. cbn [bindF].
        split; [intros [? ?]; discriminate|].
        intros [_ (t' & ts' & Ht' & Hb)]. inversion Ht'; subst. lia.
    + split; [intros [? ?]; discriminate|]. intros [[r Hr'] _]. discriminate.
Qed.

Lemma annotate_one_facts (npc : Vehicle) (b : FrameBoxes) (o : FrameObject) :
  one npc = RetF (b, o) -> annotation_of ego_vehicle actor_ids npc b o.
Proof.
  unfold one, annotate_one, annotation_of.
  pose proof (bbox_3d_for_actor_eq (vehicle_actor npc) (vehicle_actor ego_vehicle)
                camera_bp camera) as H3.
  destruct (bbox_3d_for_actor _ _ _ _) as [r|e] eqn:Hr.
  2:{ destruct (bbox_2d_for_actor _ _ _); cbn [call bindF]; discriminate. }
  destruct (mapM emit_segment _) as [segs|e]; [|discriminate].
  cbn [bind] in H3.
  destruct (semantic_tags (vehicle_actor npc)) as [|tag tags] eqn:Htags;
    [discriminate|].
  cbn [idx nth_error bind] in H3. injection H3 as ->.
  destruct (bbox_2d_for_actor_cases (vehicle_actor npc) actor_ids semantic_labels)
    as [[Hno H2]|[Hex [[Hnil H2]|(t & ts & box & Ht & _ & H2)]]]; rewrite H2;
    cbn [call bindF idx nth_error].
  - destruct (semantic_map_get tag) as [[name color]|e] eqn:Hget;
      cbn [bindF]; [|discriminate].
    intros Heq. injection Heq as <- <-. cbn.
    repeat split; try reflexivity; eauto.
  - congruence.
  - destruct (semantic_map_get tag) as [[name color]|e] eqn:Hget;
      cbn [bindF]; [|discriminate].
    intros Heq. injection Heq as <- <-. cbn.
    repeat split; try reflexivity; eauto; try discriminate.
    intros Hno. destruct Hex as (y & x & Hm). elim (Hno _ _ Hm).
Qed.

(** X16. When a frame is annotated, the two lists it returns hold one item
    for each vehicle that is not the ego (by id), is nearer to the ego than
    [distance], and whose location is in front of the camera, in the order
    of the vehicles; the item carries that vehicle's id, blueprint, 3D box,
    relative velocity and class name, and its 2D box is null exactly when no
    pixel of the frame carries the vehicle's id.  No item carries the ego's
    id. *)
Theorem annotate_frame_items (vehicles : list Vehicle)
    (frame_bboxes : list FrameBoxes) (objects : list FrameObject) :
  annotate_frame F ego_vehicle camera_bp camera distance actor_ids semantic_labels
                 vehicles = RetF (frame_bboxes, objects) ->
  Forall2 (fun npc bo => annotation_of ego_vehicle actor_ids npc (fst bo) (snd bo))
          (filter (annotated ego_vehicle camera distance) vehicles)
          (combine frame_bboxes objects) /\
  length frame_bboxes = length objects /\
  length objects = length (filter (annotated ego_vehicle camera distance) vehicles) /\
  Forall (fun o => obj_id o <> id (vehicle_actor ego_vehicle)) objects.
Proof.
  rewrite annotate_frame_eq.
  assert (Hsel : Forall (fun npc => annotated ego_vehicle camera distance npc = true)
                        (filter (annotated ego_vehicle camera distance) vehicles)).
  { apply Forall_forall. intros npc Hin. now apply filter_In in Hin. }
  revert frame_bboxes objects Hsel.
  generalize (filter (annotated ego_vehicle camera distance) vehicles) as selected.
  induction selected as [|npc rest IH]; intros frame_bboxes objects Hsel Hret.
  - injection Hret as <- <-. repeat split; constructor.
  - unfold all in Hret. cbn [annotate_all] in Hret.
    fold one in Hret. fold all in Hret.
    destruct (one npc) as [[b o]|e] eqn:Hone; [|discriminate].
    cbn [bindF] in Hret.
    destruct (all rest) as [[bs os]|e] eqn:Hall; [|discriminate].
    cbn [bindF fst snd] in Hret. injection Hret as <- <-.
    inversion Hsel as [|? ? Hnpc Hrest]; subst.
    destruct (IH bs os Hrest eq_refl) as (Hf2 & Hlen1 & Hlen2 & Hego).
    pose proof (annotate_one_facts _ Hone) as Hfacts.
    split; [|split; [|split]].
    + cbn [combine]. constructor; [exact Hfacts | exact Hf2].
    + simpl. now rewrite Hlen1.
    + simpl. now rewrite Hlen2.
    + constructor; [|exact Hego].
      destruct Hfacts as (_ & -> & _).
      unfold annotated in Hnpc.
      destruct (Z.eqb_spec (id (vehicle_actor npc)) (id (vehicle_actor ego_vehicle)));
        [discriminate | assumption].
Qed.

(** X17. A frame is annotated without an exception exactly when, for every
    vehicle that passes the three tests, the 3D projector returns and the
    vehicle's first semantic tag is a key of [SEMANTIC_MAP] (0 to 28); one
    such vehicle that fails this makes the whole frame raise. *)
Theorem annotate_frame_returns (vehicles : list Vehicle) :
  (exists res,
     annotate_frame F ego_vehicle camera_bp camera distance actor_ids semantic_labels
                    vehicles = RetF res) <->
  Forall (fun npc =>
            (exists r, bbox_3d_for_actor (vehicle_actor npc) (vehicle_actor ego_vehicle)
                                         camera_bp camera = Ret r) /\
            (exists tag tags, semantic_tags (vehicle_actor npc) = tag :: tags /\
                              (0 <= tag <= 28)%Z))
         (filter (annotated ego_vehicle camera distance) vehicles).
Proof.
  rewrite annotate_frame_eq.
  generalize (filter (annotated ego_vehicle camera distance) vehicles) as selected.
  induction selected as [|npc rest IH].
  - split; [constructor | intros _; eexists; reflexivity].
  - unfold all. cbn [annotate_all]. fold one. fold all. split.
    + intros [res Hres].
      destruct (one npc) as [[b o]|e] eqn:Hone; [|discriminate].
      cbn [bindF] in Hres.
      destruct (all rest) as [[bs os]|e] eqn:Hall; [|discriminate].
      constructor.
      * apply annotate_one_returns. eauto.
      * apply IH. eauto.
    + intros Hall. inversion Hall as [|? ? Hnpc Hrest]; subst.
      apply annotate_one_returns in Hnpc. destruct Hnpc as [[b o] ->].
      apply IH in Hrest. destruct Hrest as [[bs os] ->].
      eexists. reflexivity.
Qed.

End FrameLoopProps.

Section FrameScene.

#[local] Existing Instance unrotated.

Lemma sqrt_lt_bound (x c : R) : 0 <= x -> 0 <= c -> x < c * c -> sqrt x < c.
Proof.
  intros Hx Hc Hlt. rewrite <- (sqrt_square c) by exact Hc.
  apply sqrt_lt_1_alt. lra.
Qed.

Lemma annotated_ego :
  annotated ego_vehicle_at_origin camera_at_origin 50 ego_vehicle_at_origin = false.
Proof. reflexivity. Qed.

Lemma annotated_vehicle_ahead :
  annotated ego_vehicle_at_origin camera_at_origin 50 vehicle_ahead = true.
Proof.
  assert (H1 : Rlt_b (vec_distance (mkVec 15 0 0) (mkVec 0 0 0)) (IZR 50) = true).
  { unfold Rlt_b. destruct (Rlt_dec _ _) as [_|Hn]; [reflexivity|].
    elim Hn. unfold vec_distance. cbn [vx vy vz].
    apply sqrt_lt_bound; nra. }
  assert (H2 : Rlt_b 0 (vec_dot (mkVec 1 0 0) (vec_sub (mkVec 15 0 0) (mkVec 0 0 0)))
               = true).
  { unfold Rlt_b. destruct (Rlt_dec _ _) as [_|Hn]; [reflexivity|].
    elim Hn. unfold vec_dot, vec_sub. cbn. lra. }
  unfold annotated. apply andb_true_iff. split; [apply andb_true_iff; split|].
  - reflexivity.
  - exact H1.
  - exact H2.
Qed.

Lemma annotated_vehicle_behind :
  annotated ego_vehicle_at_origin camera_at_origin 50 vehicle_behind = false.
Proof.
  assert (H2 : Rlt_b 0 (vec_dot (mkVec 1 0 0) (vec_sub (mkVec (-15) 0 0) (mkVec 0 0 0)))
               = false).
  { unfold Rlt_b. destruct (Rlt_dec _ _) as [Hlt|_]; [|reflexivity].
    exfalso. unfold vec_dot, vec_sub in Hlt. cbn in Hlt. lra. }
  unfold annotated. apply andb_false_iff. right. exact H2.
Qed.

Example annotate_frame_three_vehicles :
  annotate_frame carla_light_flags ego_vehicle_at_origin camera_800_600
                 camera_at_origin 50 ids_with_43 labels_with_43
                 [ego_vehicle_at_origin; vehicle_ahead; vehicle_behind] =
    RetF ([frame_boxes_ahead], [frame_object_ahead]).
Proof.
  rewrite annotate_frame_eq. cbn [filter].
  rewrite annotated_ego, annotated_vehicle_ahead, annotated_vehicle_behind.
  cbn [annotate_all]. unfold annotate_one.
  change (vehicle_actor vehicle_ahead) with car_ahead.
  change (vehicle_actor ego_vehicle_at_origin) with ego_at_origin.
  rewrite bbox_3d_car_ahead.
  change (bbox_2d_for_actor car_ahead ids_with_43 labels_with_43)
    with (Ret (Some {| d2_actor_id := 43; d2_semantic_label := 14;
                       bbox_2d := (1, 0, 1, 0)%Z |})).
  cbn [call bindF idx nth_error semantic_tags car_ahead].
  change (semantic_map_get 14) with (RetF ("car"%string, (0, 0, 142)%Z)).
  cbn [bindF fst snd]. unfold frame_boxes_ahead, frame_object_ahead, detection_ahead.
  do 3 f_equal. f_equal.
  unfold calculate_relative_velocity. cbn. apply vec_eq; lra.
Qed.

Lemma annotate_frame_items_witness :
  Forall2 (fun (npc : Vehicle) (bo : FrameBoxes * FrameObject) =>
             annotation_of ego_vehicle_at_origin ids_with_43 npc (fst bo) (snd bo))
          (filter (annotated ego_vehicle_at_origin camera_at_origin 50)
                  [ego_vehicle_at_origin; vehicle_ahead; vehicle_behind])
          (combine [frame_boxes_ahead] [frame_object_ahead]) /\
  length [frame_boxes_ahead] = length [frame_object_ahead] /\
  length [frame_object_ahead] =
    length (filter (annotated ego_vehicle_at_origin camera_at_origin 50)
                   [ego_vehicle_at_origin; vehicle_ahead; vehicle_behind]) /\
  Forall (fun o : FrameObject => obj_id o <> id (vehicle_actor ego_vehicle_at_origin))
         [frame_object_ahead].
Proof.
  exact (@annotate_frame_items unrotated carla_light_flags ego_vehicle_at_origin
           camera_800_600 camera_at_origin 50 ids_with_43 labels_with_43
           [ego_vehicle_at_origin; vehicle_ahead; vehicle_behind] _ _
           annotate_frame_three_vehicles).
Defined.

End FrameScene.

(** ** Spawning vehicles *)

Section SpawnProps.
Local Open Scope Z_scope.

Variables (RandomState Blueprint : Type).
Variable shuffle : RandomState -> list Transform -> list Transform * RandomState.
Variable choose_blueprint : RandomState -> Blueprint * RandomState.

Lemma spawn_loop_spec (number n : Z) (spawn_points : list Transform)
    (s : RandomState) (batch : list (Blueprint * Transform)) :
  exists cmds,
    fst (spawn_loop choose_blueprint number n spawn_points s batch) = batch ++ cmds /\
    map snd cmds = firstn (Z.to_nat (number - n)) spawn_points.
Proof.
  revert n s batch.
  induction spawn_points as [|t rest IH]; intros n s batch; simpl.
  - exists []. rewrite app_nil_r, firstn_nil. auto.
  - destruct (Z.geb_spec n number) as [Hge|Hlt].
    + exists []. rewrite app_nil_r.
      replace (Z.to_nat (number - n)) with 0%nat by lia. auto.
    + destruct (choose_blueprint s) as [blueprint s'].
      destruct (IH (n + 1) s' (batch ++ [(blueprint, t)])) as (cmds & Heq & Hmap).
      exists ((blueprint, t) :: cmds). split.
      * rewrite Heq, <- app_assoc. reflexivity.
      * replace (Z.to_nat (number - n)) with (S (Z.to_nat (number - (n + 1)))) by lia.
        simpl. now rewrite Hmap.
Qed.

Lemma NoDup_firstn {A : Type} (k : nat) (l : list A) : NoDup l -> NoDup (firstn k l).
Proof.
  intros H. rewrite <- (firstn_skipn k l) in H.
  now apply NoDup_app_remove_r in H.
Qed.

Lemma In_firstn {A : Type} (k : nat) (l : list A) (a : A) : In a (firstn k l) -> In a l.
Proof.
  intros H. rewrite <- (firstn_skipn k l). apply in_or_app. now left.
Qed.

(** X18. Whatever the random choices (a shuffle rearranges the list it is
    given), the batch holds
    [min(number_of_vehicles, len(spawn_points))] spawn commands (none for a
    negative request), each at one of the spawn points, no spawn point
    twice when the spawn points are distinct; and the request is left at no
    more than the number of spawn points. *)
Theorem spawn_vehicles_bounds (number_of_vehicles : Z)
    (spawn_points : list Transform) (s : RandomState) :
  (forall s l, Permutation l (fst (shuffle s l))) ->
  let '(batch, number, _) :=
    spawn_vehicles shuffle choose_blueprint number_of_vehicles spawn_points s in
  length batch =
    Z.to_nat (Z.min number_of_vehicles (Z.of_nat (length spawn_points))) /\
  number <= Z.of_nat (length spawn_points) /\
  Forall (fun cmd => In (snd cmd) spawn_points) batch /\
  (NoDup spawn_points -> NoDup (map snd batch)).
Proof.
  intros Hperm. unfold spawn_vehicles.
  set (num := Z.of_nat (length spawn_points)).
  assert (Hmain : forall pts number s0,
            Permutation spawn_points pts ->
            Z.to_nat (Z.min number (Z.of_nat (length pts)))
              = Z.to_nat (Z.min number_of_vehicles num) ->
            let batch := fst (spawn_loop choose_blueprint number 0 pts s0 []) in
            length batch = Z.to_nat (Z.min number_of_vehicles num) /\
            Forall (fun cmd => In (snd cmd) spawn_points) batch /\
            (NoDup spawn_points -> NoDup (map snd batch))).
  { intros pts number s0 Hp Hk batch.
    destruct (spawn_loop_spec number 0 pts s0 []) as (cmds & Heq & Hmap).
    fold batch in Heq. simpl in Heq. rewrite Heq.
    rewrite Z.sub_0_r in Hmap.
    split; [|split].
    - rewrite <- (length_map snd), Hmap, length_firstn, <- Hk. lia.
    - apply Forall_forall. intros cmd Hin.
      apply (Permutation_in _ (Permutation_sym Hp)).
      apply (In_firstn (Z.to_nat number)). rewrite <- Hmap. now apply in_map.
    - intros Hnd. rewrite Hmap. apply NoDup_firstn.
      exact (Permutation_NoDup Hp Hnd). }
  destruct (Z.ltb_spec number_of_vehicles num) as [Hlt|Hge].
  - pose proof (Hperm s spawn_points) as Hp.
    destruct (shuffle s spawn_points) as [shuffled s1]. simpl in Hp.
    specialize (Hmain shuffled number_of_vehicles s1 Hp).
    destruct (spawn_loop choose_blueprint number_of_vehicles 0 shuffled s1 [])
      as [batch s2]. simpl in Hmain.
    rewrite <- (Permutation_length Hp) in Hmain. fold num in Hmain.
    destruct (Hmain eq_refl) as (H1 & H2 & H3).
    repeat split; auto; lia.
  - destruct (Z.gtb_spec number_of_vehicles num) as [Hgt|Hle].
    + specialize (Hmain spawn_points num s (Permutation_refl _)).
      destruct (spawn_loop choose_blueprint num 0 spawn_points s []) as [batch s2].
      simpl in Hmain. fold num in Hmain.
      destruct Hmain as (H1 & H2 & H3); [lia|].
      repeat split; auto; lia.
    + specialize (Hmain spawn_points number_of_vehicles s (Permutation_refl _)).
      destruct (spawn_loop choose_blueprint number_of_vehicles 0 spawn_points s [])
        as [batch s2].
      simpl in Hmain. fold num in Hmain.
      destruct (Hmain eq_refl) as (H1 & H2 & H3).
      repeat split; auto; lia.
Qed.

End SpawnProps.

Lemma spawn_vehicles_bounds_witness :
  let '(batch, number, _) :=
    spawn_vehicles no_shuffle first_blueprint 5
                   [at_rest 0 0 0; at_rest 10 0 0; at_rest 20 0 0] tt in
  length batch =
    Z.to_nat (Z.min 5 (Z.of_nat (length [at_rest 0 0 0; at_rest 10 0 0; at_rest 20 0 0]))) /\
  (number <= Z.of_nat (length [at_rest 0 0 0; at_rest 10 0 0; at_rest 20 0 0]))%Z /\
  Forall (fun cmd => In (snd cmd) [at_rest 0 0 0; at_rest 10 0 0; at_rest 20 0 0]) batch /\
  (NoDup [at_rest 0 0 0; at_rest 10 0 0; at_rest 20 0 0] -> NoDup (map snd batch)).
Proof.
  apply (@spawn_vehicles_bounds unit nat no_shuffle first_blueprint 5
           [at_rest 0 0 0; at_rest 10 0 0; at_rest 20 0 0] tt).
  intros s l. apply Permutation_refl.
Defined.

Example spawn_vehicles_clamped :
  spawn_vehicles no_shuffle first_blueprint 5
                 [at_rest 0 0 0; at_rest 10 0 0; at_rest 20 0 0] tt =
    ([(0%nat, at_rest 0 0 0); (0%nat, at_rest 10 0 0); (0%nat, at_rest 20 0 0)],
     3%Z, tt).
Proof. reflexivity. Qed.

(** ** Walkers and their controllers *)

Section WalkerProps.
Variable Speed : Type.

Lemma skipn_nth_error {A : Type} (l : list A) (i : nat) :
  (i < length l)%nat ->
  exists x, nth_error l i = Some x /\ skipn i l = x :: skipn (S i) l.
Proof.
  revert i. induction l as [|a l IH]; intros i Hi; simpl in Hi; [lia|].
  destruct i as [|i].
  - exists a. auto.
  - destruct (IH i) as (x & Hn & Hs); [lia|].
    exists x. split; [exact Hn|]. simpl in *. exact Hs.
Qed.


Lemma collect_walkers_eq (responses : list Response) :
  forall (i : nat) (walker_speeds : list Speed) (walkers_list : list Walker)
         (speeds : list Speed),
  (i + length responses <= length walker_speeds)%nat ->
  collect_walkers responses i walker_speeds walkers_list speeds =
    inr (walkers_list ++
           map (fun p => mkWalker (actor_id (fst p)) None)
               (spawned_walkers responses (skipn i walker_speeds)),
         speeds ++ map snd (spawned_walkers responses (skipn i walker_speeds))).
Proof.
  unfold spawned_walkers.
  induction responses as [|r rest IH]; intros i ws wl sp Hlen; simpl in *.
  - now rewrite !app_nil_r.
  - destruct (@skipn_nth_error _ ws i) as (x & Hn & Hs); [lia|].
    rewrite Hs. cbn [combine filter fst].
    destruct (error r); cbn [negb].
    + apply IH. lia.
    + rewrite Hn, IH by lia. cbn [map fst snd].
      now rewrite <- !app_assoc.
Qed.

(** X19. When a speed was recorded for every response of the walker batch,
    the loop raises nothing; [walkers_list] holds the ids of the responses
    without error, in order and without a controller yet, and
    [successful_walker_speeds] holds the speed recorded at the same index
    as each of them: the two lists stay aligned. *)
Theorem collect_walkers_aligned (responses : list Response)
    (walker_speeds : list Speed) :
  (length responses <= length walker_speeds)%nat ->
  collect_walkers responses 0 walker_speeds [] [] =
    inr (map (fun p => mkWalker (actor_id (fst p)) None)
             (spawned_walkers responses walker_speeds),
         map snd (spawned_walkers responses walker_speeds)).
Proof.
  intros Hlen. now rewrite collect_walkers_eq by (simpl; lia).
Qed.

End WalkerProps.

Lemma collect_walkers_aligned_witness :
  collect_walkers walker_responses 0 [1.5; 0; 2.5] [] [] =
    inr (map (fun p => mkWalker (actor_id (fst p)) None)
             (spawned_walkers walker_responses [1.5; 0; 2.5]),
         map snd (spawned_walkers walker_responses [1.5; 0; 2.5])).
Proof.
  apply (@collect_walkers_aligned R walker_responses [1.5; 0; 2.5]).
  simpl. lia.
Defined.

Example collect_walkers_one_failure :
  collect_walkers walker_responses 0 [1.5; 0; 2.5] [] [] =
    inr ([mkWalker 101 None; mkWalker 103 None], [1.5; 2.5]).
Proof. reflexivity. Qed.

Section ControllerProps.
Local Open Scope Z_scope.


Lemma set_con_app (pre : list Walker) (w : Walker) (post : list Walker) (con : Z) :
  set_con (pre ++ w :: post) (length pre) con =
    inr (pre ++ mkWalker (walker_id w) (Some con) :: post).
Proof.
  induction pre as [|a pre IH]; simpl; [reflexivity|].
  now rewrite IH.
Qed.

Lemma attach_controllers_eq (responses : list Response) :
  forall pre post : list Walker,
  length responses = length post ->
  attach_controllers responses (length pre) (pre ++ post) =
    inr (pre ++ map with_controller (combine post responses)).
Proof.
  induction responses as [|r rest IH]; intros pre post Hlen;
    destruct post as [|w post]; simpl in Hlen; try discriminate.
  - reflexivity.
  - injection Hlen as Hlen. cbn [attach_controllers combine map].
    unfold with_controller at 1. cbn [fst snd].
    destruct (error r).
    + replace (pre ++ w :: post) with ((pre ++ [w]) ++ post)
        by (now rewrite <- app_assoc).
      replace (S (length pre)) with (length (pre ++ [w]))
        by (rewrite length_app; simpl; lia).
      rewrite IH by exact Hlen. now rewrite <- app_assoc.
    + rewrite set_con_app.
      replace (pre ++ mkWalker (walker_id w) (Some (actor_id r)) :: post)
        with ((pre ++ [mkWalker (walker_id w) (Some (actor_id r))]) ++ post)
        by (now rewrite <- app_assoc).
      replace (S (length pre))
        with (length (pre ++ [mkWalker (walker_id w) (Some (actor_id r))]))
        by (rewrite length_app; simpl; lia).
      rewrite IH by exact Hlen. now rewrite <- app_assoc.
Qed.

Lemma collect_all_ids_eq (ids : list Z) :
  forall (responses : list Response) (all_ids : list Z),
  length responses = length ids ->
  collect_all_ids
    (map with_controller (combine (map (fun id => mkWalker id None) ids) responses))
    all_ids =
  if forallb (fun r => negb (error r)) responses
  then inr (all_ids ++
              flat_map (fun p => [actor_id (snd p); fst p]) (combine ids responses))
  else inl (WalkerKeyError "con"%string).
Proof.
  induction ids as [|id ids IH]; intros responses all_ids Hlen;
    destruct responses as [|r rest]; simpl in Hlen; try discriminate.
  - simpl. now rewrite app_nil_r.
  - injection Hlen as Hlen.
    cbn [map combine forallb flat_map fst snd].
    assert (Hw : with_controller (mkWalker id None, r) =
                 if error r then mkWalker id None
                 else mkWalker id (Some (actor_id r)))
      by (unfold with_controller; cbn [fst snd walker_id]; reflexivity).
    rewrite Hw. clear Hw.
    destruct (error r); cbn [negb andb collect_all_ids walker_con walker_id].
    + reflexivity.
    + rewrite IH by exact Hlen.
      destruct (forallb (fun r0 => negb (error r0)) rest); [|reflexivity].
      now rewrite <- !app_assoc.
Qed.

(** X20. For walkers just collected (no controller yet) and one controller
    response per walker, the controller loop raises nothing; building
    [all_ids] then gives, when every controller spawned, the list
    [con_0, id_0, con_1, id_1, ...] (controller first, so the walker [k]
    has its controller at index [2k]), and raises KeyError on the key "con"
    as soon as one controller response carries an error. *)
Theorem walker_ids_interleaved (ids : list Z) (responses : list Response) :
  length responses = length ids ->
  exists walkers_list,
    attach_controllers responses 0 (map (fun id => mkWalker id None) ids)
      = inr walkers_list /\
    length walkers_list = length ids /\
    collect_all_ids walkers_list [] =
      if forallb (fun r => negb (error r)) responses
      then inr (flat_map (fun p => [actor_id (snd p); fst p]) (combine ids responses))
      else inl (WalkerKeyError "con"%string).
Proof.
  intros Hlen.
  exists (map with_controller
              (combine (map (fun id => mkWalker id None) ids) responses)).
  split; [|split].
  - change (map (fun id => mkWalker id None) ids)
      with ([] ++ map (fun id => mkWalker id None) ids) at 1.
    rewrite (attach_controllers_eq responses []) by (now rewrite length_map).
    reflexivity.
  - rewrite length_map, length_combine, length_map. lia.
  - now rewrite collect_all_ids_eq.
Qed.

End ControllerProps.

Lemma walker_ids_interleaved_witness :
  exists walkers_list,
    attach_controllers controller_responses 0
        (map (fun id => mkWalker id None) [101; 103]%Z)
      = inr walkers_list /\
    length walkers_list = length [101; 103]%Z /\
    collect_all_ids walkers_list [] =
      if forallb (fun r => negb (error r)) controller_responses
      then inr (flat_map (fun p => [actor_id (snd p); fst p])
                         (combine [101; 103]%Z controller_responses))
      else inl (WalkerKeyError "con"%string).
Proof.
  apply (walker_ids_interleaved [101; 103]%Z controller_responses).
  reflexivity.
Defined.

Example all_ids_two_walkers :
  attach_controllers controller_responses 0 [mkWalker 101 None; mkWalker 103 None]
    = inr [mkWalker 101 (Some 201); mkWalker 103 (Some 203)]%Z /\
  collect_all_ids [mkWalker 101 (Some 201); mkWalker 103 (Some 203)]%Z []
    = inr [201; 101; 203; 103]%Z.
Proof. split; reflexivity. Qed.

Example all_ids_failed_controller :
  attach_controllers [mkResponse false 201; mkResponse true 0] 0
                     [mkWalker 101 None; mkWalker 103 None]
    = inr [mkWalker 101 (Some 201); mkWalker 103 None]%Z /\
  collect_all_ids [mkWalker 101 (Some 201); mkWalker 103 None]%Z []
    = inl (WalkerKeyError "con"%string).
Proof. split; reflexivity. Qed.
